(** * Agent-Smith: the parallel alpha-beta search core

    A shallow embedding of
    - [Chess.SafeInt]              ([SafeUnsigned<std::uint8_t>]),
    - [Chess.MoveSearch:MovePriority] and [:MoveOrdering],
    - [Chess.MoveSearch]           ([AlphaBeta], [Searcher], the coordinator),
    - [Chess.UCI:SearchThread] and the depth argument of the command line
      ([playUCIWithDepth]),
    followed by the properties of the engine that are checked against it.

    Conventions.  A [SafeUnsigned<std::uint8_t>] is a [Z] in [0, 255]; every
    [zAssert] that fails, every array subscript out of range and every
    conversion whose value does not fit ends the computation in a [Fault].
    Code that threads the searcher's state is written in a state-and-fault
    monad.  Modules of the repository that are imported by the sources but not
    part of them (positions, move generation, evaluation, the position table,
    the node type) enter as the fields of one interface, [Collaborators]. *)

From Stdlib Require Import ZArith QArith Qminmax Floats Uint63 Lia Lqa List Bool String.
From stdpp Require Import base option list countable gmap.

Open Scope Z_scope.

(** ** Faults and the checked-computation monad *)

(** The arrays the sources subscript. *)
Inductive Array : Set :=
| KillerMoveTable   (* Searcher::m_killerMoves *)
| KillerMoveRing    (* KillerMoveEntries::killerMoves *)
| Log2Table.        (* LOG_TABLE of MovePriority::trim *)

Inductive Fault : Set :=
| AssertionFailed      (* a zAssert did not hold *)
| IndexOutOfBounds (a : Array)  (* operator[] past the end of a std::array *)
| ValueNotRepresentable (* floating-integral conversion of a value that does not fit *)
| EmptyRange           (* dereference of the end iterator of an empty range *)
| DivisionByZero       (* a quotient the rational model of a rating has no value for *)
| FuelExhausted.       (* the recursion bound of the model, never of the program *)

Inductive Checked (A : Type) : Type :=
| Ok (a : A)
| Failed (f : Fault).
Arguments Ok {A} a.
Arguments Failed {A} f.

#[global] Instance Checked_ret : MRet Checked := fun _ a => Ok a.
#[global] Instance Checked_bind : MBind Checked := fun _ _ k c =>
  match c with
  | Ok a => k a
  | Failed f => Failed f
  end.

Definition zAssert (b : bool) : Checked unit :=
  if b then Ok tt else Failed AssertionFailed.

Definition isOk {A} (c : Checked A) : bool :=
  match c with Ok _ => true | Failed _ => false end.

(** A checked computation that does not end in the fault [f]. *)
Definition avoids {A} (f : Fault) (c : Checked A) : Prop := c <> Failed f.

(** The faults that only the searcher itself raises: the recursion bound of
    the model and the subscript of the killer-move table. *)
Definition searchFault (f : Fault) : Prop :=
  f = FuelExhausted \/ f = IndexOutOfBounds KillerMoveTable.

(** Equality of checked results is decidable where it is on the values. *)
#[global] Instance Array_eq_dec : EqDecision Array.
Proof. solve_decision. Defined.
#[global] Instance Fault_eq_dec : EqDecision Fault.
Proof. solve_decision. Defined.
#[global] Instance Checked_eq_dec {A} `{EqDecision A} : EqDecision (Checked A).
Proof. solve_decision. Defined.

(** ** Chess.SafeInt: [SafeUnsigned<std::uint8_t>] *)

Module SafeUnsigned.

Definition MAX_VALUE : Z := 255.

(** The values a [std::uint8_t] holds. *)
Definition inRange (v : Z) : Prop := 0 <= v <= MAX_VALUE.

(** [operator+] *)
Definition add (a b : Z) : Checked Z :=
  _ ← zAssert (b <=? MAX_VALUE - a);
  Ok (a + b).

(** [operator-] *)
Definition sub (a b : Z) : Checked Z :=
  _ ← zAssert (b <=? a);
  Ok (a - b).

(** [operator%] *)
Definition rem (a b : Z) : Checked Z :=
  _ ← zAssert (negb (b =? 0));
  Ok (a mod b).

(** [operator++] *)
Definition incr (a : Z) : Checked Z :=
  _ ← zAssert (0 <? MAX_VALUE - a);
  Ok (a + 1).

(** [static_cast<std::uint8_t>] of an unsigned integer: reduction modulo 2^8. *)
Definition truncate (v : Z) : Z := v mod 256.

(** [subToMin]: the receiver is the first argument, the result its new value. *)
Definition subToMin (self subbed min : Z) : Checked Z :=
  _ ← zAssert (min <=? self);
  if self <? subbed then Ok min
  else
    diff ← sub self subbed;
    Ok (if diff <? min then min else diff).

(** [operator--] *)
Definition decr (a : Z) : Checked Z :=
  _ ← zAssert (0 <? a);
  Ok (a - 1).

(** [operator*]; the product is cast back to [T]. *)
Definition mul (a b : Z) : Checked Z :=
  _ ← (if negb (a =? 0) then zAssert (b <=? MAX_VALUE / a) else Ok tt);
  Ok (truncate (a * b)).

(** [operator/] *)
Definition div (a b : Z) : Checked Z :=
  _ ← zAssert (negb (b =? 0));
  Ok (truncate (a / b)).

(** [operator&], [operator|] and [operator~]; the operands are promoted to
    [int] and the result is cast back to [T]. *)
Definition bitAnd (a b : Z) : Z := truncate (Z.land a b).
Definition bitOr (a b : Z) : Z := truncate (Z.lor a b).
Definition bitNot (a : Z) : Z := truncate (Z.lnot a).

(** [operator<<] and [operator>>].  The count is taken as a natural number:
    a negative count of a signed [U] passes the assertion and leaves the
    shift undefined. *)
Definition shiftLeft (a : Z) (s : N) : Checked Z :=
  _ ← zAssert (Z.of_N s <? 8);
  Ok (truncate (Z.shiftl a (Z.of_N s))).

Definition shiftRight (a : Z) (s : N) : Checked Z :=
  _ ← zAssert (Z.of_N s <? 8);
  Ok (truncate (Z.shiftr a (Z.of_N s))).

(** [convertImpl<std::uint8_t>], which [operator""_su8] calls. *)
Definition convertImpl (v : Z) : Checked Z :=
  _ ← zAssert ((0 <=? v) && (v <=? MAX_VALUE));
  Ok (truncate v).

End SafeUnsigned.

(** ** Moves

    Modelled from the spec: [Chess.Move] is not among the sources.  The spec
    gives a move an origin and a destination square, the moved, the captured
    and the promotion piece (the last two possibly none) and a distinguished
    null value. *)

Inductive Piece : Set := PieceNone | Pawn | Knight | Bishop | Rook | Queen | King.

Inductive Square : Set := SquareNone | SquareAt (index : nat).

Record Move : Set := mkMove {
  from : Square;
  to : Square;
  movedPiece : Piece;
  capturedPiece : Piece;
  promotionPiece : Piece
}.

Definition Move_null : Move :=
  mkMove SquareNone SquareNone PieceNone PieceNone PieceNone.

#[global] Instance Piece_eq_dec : EqDecision Piece.
Proof. solve_decision. Defined.
#[global] Instance Square_eq_dec : EqDecision Square.
Proof. solve_decision. Defined.
#[global] Instance Move_eq_dec : EqDecision Move.
Proof. solve_decision. Defined.

Definition Piece_code (p : Piece) : nat :=
  match p with
  | PieceNone => 0 | Pawn => 1 | Knight => 2 | Bishop => 3
  | Rook => 4 | Queen => 5 | King => 6
  end%nat.

Definition Piece_of_code (n : nat) : Piece :=
  match n with
  | 1 => Pawn | 2 => Knight | 3 => Bishop | 4 => Rook | 5 => Queen | 6 => King
  | _ => PieceNone
  end%nat.

Definition Square_code (s : Square) : option nat :=
  match s with SquareNone => None | SquareAt i => Some i end.

Definition Square_of_code (o : option nat) : Square :=
  match o with None => SquareNone | Some i => SquareAt i end.

Definition Move_code (m : Move) : option nat * option nat * nat * nat * nat :=
  (Square_code (from m), Square_code (to m), Piece_code (movedPiece m),
   Piece_code (capturedPiece m), Piece_code (promotionPiece m)).

Definition Move_of_code (c : option nat * option nat * nat * nat * nat) : Move :=
  let '(f, t, mp, cp, pp) := c in
  mkMove (Square_of_code f) (Square_of_code t) (Piece_of_code mp)
         (Piece_of_code cp) (Piece_of_code pp).

#[global] Instance Move_countable : Countable Move.
Proof.
  apply (inj_countable' Move_code Move_of_code).
  intros [[|f] [|t] [] [] []]; reflexivity.
Defined.

(** [operator==] on moves. *)
Definition Move_eqb (a b : Move) : bool := bool_decide (a = b).

(** ** Ratings

    Modelled from the spec: [Chess.Rating] is not among the sources.  The spec
    asks for a signed scalar with the arithmetic of the weighted vote; the
    model takes exact rationals, so [1.2_rt] is 6/5. *)

Definition Rating : Type := Q.

Definition Rating_ltb (a b : Rating) : bool := negb (Qle_bool b a).
Definition Rating_leb (a b : Rating) : bool := Qle_bool a b.
Definition Rating_eqb (a b : Rating) : bool := Qeq_bool a b.

(** [std::max(a, b)] is [(a < b) ? b : a] and [std::min(a, b)] is
    [(b < a) ? b : a]. *)
Definition Rating_max (a b : Rating) : Rating := if Rating_ltb a b then b else a.
Definition Rating_min (a b : Rating) : Rating := if Rating_ltb b a then b else a.

(** ** Records shared by the searcher and its collaborators *)

(** [Chess.MoveSearch:MovePriority], the data members of [MovePriority]. *)
Record MovePriority : Type := mkMovePriority {
  m_move : Move;
  m_exchangeRating : Rating;
  m_recommendedDepth : Z;
  m_trimmed : bool
}.

Definition getMove (p : MovePriority) : Move := m_move p.
Definition getDepth (p : MovePriority) : Z := m_recommendedDepth p.
Definition getExchangeRating (p : MovePriority) : Rating := m_exchangeRating p.
Definition isTrimmed (p : MovePriority) : bool := m_trimmed p.

(** A recommended depth between zero and [limit]. *)
Definition depthWithin (limit : Z) (p : MovePriority) : Prop := 0 <= getDepth p <= limit.

(** [MovePriority(const Move&, SafeUnsigned<std::uint8_t> depth)] *)
Definition MovePriority_full (move : Move) (depth : Z) : MovePriority :=
  mkMovePriority move 0%Q depth false.

(** Modelled from the spec: [Chess.MoveSearch:PositionTable] is not among the
    sources.  A row of the table has the fields the searcher reads and writes:
    [bestMove], [rating], [depth] and [bound] (the middle two are spelled
    [entryRating] and [entryDepth] here, apart from the fields of [MoveRating]
    and [Searcher]). *)
Inductive Bound : Set := InWindow | LowerBound | UpperBound.

Record PositionEntry : Type := mkPositionEntry {
  bestMove : Move;
  entryRating : Rating;   (* [rating] *)
  entryDepth : Z;         (* [depth] *)
  bound : Bound
}.

(** [PieceData] of [Chess.MoveSearch:MoveOrdering]. *)
Record PieceData : Set := mkPieceData {
  piece : Piece;
  square : Square
}.

(** ** The collaborators of the search core

    Everything below is imported by the sources and defined elsewhere in the
    repository.  The fields are named after the calls the sources make. *)

Class Collaborators : Type := {
  (* Chess.Position, Chess.MoveGeneration, Chess.Bitboard *)
  Position : Type;
  Bitboard : Type;
  (** [node.getPositionData().legalMoves] *)
  legalMoves : Position -> list Move;
  (** [node.getPositionData().isCheckmate()] *)
  isCheckmate : Position -> bool;
  (** [pos.isWhite()] *)
  isWhite : Position -> bool;
  (** [Position{ pos, move }] and [pos.move(move)] *)
  applyMove : Position -> Move -> Position;
  (** [node.getPositionData().allEnemySquares().destSquaresPinConsidered] *)
  allEnemySquares : Position -> Bitboard;
  (** [makeBitboard(sq) & board] read as a truth value *)
  onBitboard : Square -> Bitboard -> bool;
  (** the squares of [allies[piece] & board], in the order of [nextSquare] *)
  alliedSquares : Position -> Piece -> Bitboard -> list Square;
  (** for the piece attacked on the first square: the second square holds one
      of its attackers or lies on an attacker's ray ([calcAttackers]) *)
  hitsAttackerOrRay : Position -> Square -> Square -> bool;
  (* Chess.Evaluation, Chess.Rating *)
  getPieceRating : Piece -> Rating;
  (** [node.getRating()] *)
  staticRating : Position -> Rating;
  worstPossibleRating : bool -> Rating;
  checkmatedRating : bool -> Rating;
  (* Chess.Position.RepetitionMap *)
  RepetitionMap : Type;
  getPositionCount : RepetitionMap -> Position -> Z;
  (** the map of a child node: the parent's with the child position pushed *)
  pushPosition : RepetitionMap -> Position -> RepetitionMap;
  (* Chess.MoveSearch:PositionTable *)
  PositionTable : Type;
  getPositionEntry : PositionTable -> Position -> Z -> option PositionEntry;
  storePositionEntry : PositionTable -> Position -> PositionEntry -> PositionTable;
  (* the standard library of the platform *)
  (** [std::log2] on doubles *)
  log2 : float -> float;
  (** [std::ranges::sort] with the comparator of [getMovePrioritiesImpl] *)
  sortByExchangeRating : list MovePriority -> list MovePriority;
  (** [std::ranges::partition]: the elements satisfying the predicate, then
      the others, each group in an order the library chooses *)
  partitionUnstable :
    (MovePriority -> bool) -> list MovePriority -> list MovePriority * list MovePriority;
  (** [std::mt19937] and [std::ranges::shuffle] *)
  Urbg : Type;
  shuffle : list MovePriority -> Urbg -> list MovePriority * Urbg;
  (** [m_stopRequested->load()]: the value the n-th load of the shared flag
      observes; other threads set and clear the flag *)
  stopRequested : nat -> bool;
  (** [Move::getUCIString] *)
  getUCIString : Move -> string
}.

(** ** Chess.MoveSearch:MovePriority *)

Section MovePriorityOps.
Context `{Collaborators}.

Definition calcExchangeRating (m : Move) (enemySquares : Bitboard) : Rating :=
  let ret := 0%Q in
  let ret := if onBitboard (to m) enemySquares
             then (ret - getPieceRating (movedPiece m))%Q else ret in
  let ret := if bool_decide (promotionPiece m <> PieceNone)
             then (ret + getPieceRating (promotionPiece m))%Q else ret in
  let ret := if bool_decide (capturedPiece m <> PieceNone)
             then (ret + getPieceRating (capturedPiece m))%Q else ret in
  ret.

(** [MovePriority(const Move&, Bitboard enemySquares, SafeUnsigned<std::uint8_t> depth)] *)
Definition MovePriority_ordered (move : Move) (enemySquares : Bitboard) (depth : Z)
  : Checked MovePriority :=
  d ← SafeUnsigned.sub depth 1;
  Ok (mkMovePriority move (calcExchangeRating move enemySquares) d false).

Definition MAX_MOVE_COUNT : Z := 219.

(** A double holding the integer [i]. *)
Definition double_of_Z (i : Z) : float := PrimFloat.of_uint63 (Uint63.of_Z i).

(** [LOG_TABLE[i]] for the table [makeLog2Table] builds: entry 0 stays
    value-initialised, entry [i] is [std::log2(static_cast<double>(i))]. *)
Definition LOG_TABLE (i : Z) : Checked float :=
  if (0 <=? i) && (i <? MAX_MOVE_COUNT)
  then Ok (if i =? 0 then 0%float else log2 (double_of_Z i))
  else Failed (IndexOutOfBounds Log2Table).

(** [static_cast<std::uint8_t>] of a double: the value truncated towards zero
    when that fits in eight bits, undefined otherwise. *)
Definition uint8_of_double (f : float) : Checked Z :=
  match Prim2SF f with
  | S754_zero _ => Ok 0
  | S754_finite s m e =>
      let magnitude := if 0 <=? e then Z.pos m * 2 ^ e else Z.pos m / 2 ^ (- e) in
      let v := if s then - magnitude else magnitude in
      if (0 <=? v) && (v <=? SafeUnsigned.MAX_VALUE) then Ok v
      else Failed ValueNotRepresentable
  | _ => Failed ValueNotRepresentable
  end.

(** The doubles nearest to the literals [0.99] and [3.14]. *)
Definition ROUND_UP_BIAS : float := 0x1.fae147ae147aep-1%float.
Definition LMR_DIVISOR : float := 0x1.91eb851eb851fp+1%float.

(** [MovePriority::trim] *)
Definition trim (p : MovePriority) (moveIndex : Z) : Checked MovePriority :=
  depthIndex ← SafeUnsigned.add (m_recommendedDepth p) 1;
  logDepth ← LOG_TABLE depthIndex;
  moveSlot ← SafeUnsigned.add moveIndex 1;
  logI ← LOG_TABLE moveSlot;
  reducedDepth ← uint8_of_double (ROUND_UP_BIAS + (logDepth * logI / LMR_DIVISOR))%float;
  subbed ← SafeUnsigned.add (m_recommendedDepth p) 1;
  subbed ← SafeUnsigned.subToMin subbed reducedDepth 0;
  Ok (mkMovePriority (m_move p) (m_exchangeRating p)
        (Z.min (m_recommendedDepth p) subbed) true).

End MovePriorityOps.

(** ** Chess.MoveSearch:MoveOrdering *)

Section MoveOrdering.
Context `{Collaborators}.

(** Modelled from the spec: [Chess.MoveSearch:Node] is not among the sources.
    A node bundles a position, a repetition map, its level (plies from the
    root) and the remaining depth; a child is one level below its parent, at
    the depth its move priority recommends, with its own position pushed on
    the repetition map; a node is done when no depth remains. *)
Record Node : Type := mkNode {
  getPos : Position;
  getRepetitionMap : RepetitionMap;
  getLevel : Z;
  getRemainingDepth : Z
}.

(** [Node{ pos, depth, repetitionMap }] *)
Definition Node_root (pos : Position) (depth : Z) (repetitionMap : RepetitionMap) : Node :=
  mkNode pos repetitionMap 0 depth.

(** [Node{ node, movePriority }] *)
Definition Node_child (node : Node) (movePriority : MovePriority) : Checked Node :=
  childLevel ← SafeUnsigned.add (getLevel node) 1;
  let child := applyMove (getPos node) (getMove movePriority) in
  Ok (mkNode child (pushPosition (getRepetitionMap node) child) childLevel
        (getDepth movePriority)).

Definition isDone (node : Node) : bool := getRemainingDepth node =? 0.
Definition getRating (node : Node) : Rating := staticRating (getPos node).

(** [getTargets]: the attacked allies, most valuable piece first. *)
Definition getTargets (pos : Position) (enemyDestSquares : Bitboard) : list PieceData :=
  flat_map (fun pc => map (mkPieceData pc) (alliedSquares pos pc enemyDestSquares))
           [Queen; Rook; Bishop; Knight; Pawn].

(** The predicate of the [std::ranges::stable_partition] in
    [orderCapturesAndEvasionsFirst(attackedPiece, ...)]. *)
Definition capturesOrEvades (pos : Position) (attackedPiece : PieceData) (p : MovePriority)
  : bool :=
  Rating_leb (getPieceRating (piece attackedPiece)) (getExchangeRating p)
  || hitsAttackerOrRay pos (square attackedPiece) (to (getMove p)).

(** [orderCapturesAndEvasionsFirst(node, allEnemySquares, movePriorities)]:
    the moves partitioned to the front so far, and the remaining subrange. *)
Fixpoint partitionByTargets (pos : Position) (targets : list PieceData)
    (front ret : list MovePriority) : list MovePriority * list MovePriority :=
  match targets with
  | [] => (front, ret)
  | attackedPiece :: targets' =>
      let '(yes, no) := List.partition (capturesOrEvades pos attackedPiece) ret in
      partitionByTargets pos targets' (front ++ yes) no
  end.

Definition orderCapturesAndEvasionsFirst (node : Node) (allEnemy : Bitboard)
    (movePriorities : list MovePriority) : list MovePriority * list MovePriority :=
  partitionByTargets (getPos node) (getTargets (getPos node) allEnemy) [] movePriorities.

(** [orderKillerMovesFirst] *)
Definition orderKillerMovesFirst (killerMoves : list Move) (nonMaterialMoves : list MovePriority)
  : list MovePriority * list MovePriority :=
  partitionUnstable
    (fun priority => existsb (fun move => Move_eqb move (getMove priority)) killerMoves)
    nonMaterialMoves.

(** [std::ranges::find_if]: the index of the first element satisfying [f]. *)
Fixpoint findIndex {A} (f : A -> bool) (l : list A) : option nat :=
  match l with
  | [] => None
  | x :: l' => if f x then Some 0%nat else S <$> findIndex f l'
  end.

(** [std::iter_swap(priorities.begin(), it)] for [it] at index [k]. *)
Definition swapWithFront {A} (k : nat) (l : list A) : list A :=
  match k, l with
  | S k', x :: l' =>
      match l' !! k' with
      | Some y => y :: <[k' := x]> l'
      | None => l
      end
  | _, _ => l
  end.

(** [movePVMoveToFront]: the PV move in front when it is among the moves, and
    the subrange of the non-PV moves. *)
Definition movePVMoveToFront (priorities : list MovePriority) (pvMove : Move)
  : list MovePriority * list MovePriority :=
  if bool_decide (pvMove <> Move_null) then
    match findIndex (fun p => Move_eqb (getMove p) pvMove) priorities with
    | Some k =>
        match swapWithFront k priorities with
        | pv :: nonPV => ([pv], nonPV)
        | [] => ([], [])
        end
    | None => ([], priorities)
    end
  else ([], priorities).

(** The loop over [likelyBadMoves | std::views::enumerate]. *)
Fixpoint trimFrom (offset : Z) (likelyBadMoves : list MovePriority)
  : Checked (list MovePriority) :=
  match likelyBadMoves with
  | [] => Ok []
  | movePriority :: rest =>
      trimmed ← trim movePriority (SafeUnsigned.truncate offset);
      rest' ← trimFrom (offset + 1) rest;
      Ok (trimmed :: rest')
  end.

(** The vector built from [posData.legalMoves | std::views::transform(...)]. *)
Fixpoint makePriorities (allEnemy : Bitboard) (remainingDepth : Z) (moves : list Move)
  : Checked (list MovePriority) :=
  match moves with
  | [] => Ok []
  | move :: rest =>
      priority ← MovePriority_ordered move allEnemy remainingDepth;
      priorities ← makePriorities allEnemy remainingDepth rest;
      Ok (priority :: priorities)
  end.

Definition getMovePrioritiesImpl (node : Node) (pvMove : Move) (killerMoves : list Move)
  : Checked (list MovePriority) :=
  _ ← zAssert (0 <? getRemainingDepth node);
  let allEnemy := allEnemySquares (getPos node) in
  let remainingDepth := getRemainingDepth node in
  priorities ← makePriorities allEnemy remainingDepth (legalMoves (getPos node));
  let priorities := sortByExchangeRating priorities in
  let '(pv, nonPVMoves) := movePVMoveToFront priorities pvMove in
  let '(material, nonMaterialMoves) := orderCapturesAndEvasionsFirst node allEnemy nonPVMoves in
  let '(killers, likelyBadMoves) := orderKillerMovesFirst killerMoves nonMaterialMoves in
  childDepth ← SafeUnsigned.sub remainingDepth 1;
  likelyBadMoves ←
    (if negb (childDepth =? 0)
     then trimFrom (Z.of_nat (length (pv ++ material ++ killers))) likelyBadMoves
     else Ok likelyBadMoves);
  let priorities := pv ++ material ++ killers ++ likelyBadMoves in
  _ ← zAssert (negb (bool_decide (priorities = [])));
  Ok priorities.

Definition getMovePriorities (node : Node) (pvMove : Move) (killerMoves : list Move)
  : Checked (list MovePriority) :=
  getMovePrioritiesImpl node pvMove killerMoves.

End MoveOrdering.

(** The laws of the library routines the search relies on: sorting,
    partitioning and shuffling return elements they were given. *)
Class LibraryLaws `{Collaborators} : Prop := {
  sort_Forall :
    forall (P : MovePriority -> Prop) l,
      Forall P l -> Forall P (sortByExchangeRating l);
  partition_Forall :
    forall (P : MovePriority -> Prop) f l,
      Forall P l ->
      Forall P (fst (partitionUnstable f l)) /\ Forall P (snd (partitionUnstable f l));
  shuffle_Forall :
    forall (P : MovePriority -> Prop) l g,
      Forall P l -> Forall P (fst (shuffle l g))
}.

(** ** Chess.MoveSearch: [AlphaBeta], [MoveRating], [Searcher] *)

Record MoveRating : Type := mkMoveRating {
  move : Move;
  rating : Rating;
  invalidTTEntry : bool;
  checkmateLevel : option Z
}.

(** The default member initialisers of [MoveRating]. *)
Definition MoveRating_default : MoveRating := mkMoveRating Move_null 0%Q false None.

Definition withMove (r : MoveRating) (m : Move) : MoveRating :=
  mkMoveRating m (rating r) (invalidTTEntry r) (checkmateLevel r).

Definition withInvalidTTEntry (r : MoveRating) (b : bool) : MoveRating :=
  mkMoveRating (move r) (rating r) b (checkmateLevel r).

Record AlphaBeta : Type := mkAlphaBeta {
  m_alpha : Rating;
  m_beta : Rating
}.

Definition updateAlpha (ab : AlphaBeta) (childRating : Rating) : AlphaBeta :=
  mkAlphaBeta (Rating_max childRating (m_alpha ab)) (m_beta ab).

Definition updateBeta (ab : AlphaBeta) (childRating : Rating) : AlphaBeta :=
  mkAlphaBeta (m_alpha ab) (Rating_min childRating (m_beta ab)).

(** [update<Maximizing>] *)
Definition update (maximizing : bool) (ab : AlphaBeta) (childRating : Rating) : AlphaBeta :=
  if maximizing then updateAlpha ab childRating else updateBeta ab childRating.

Definition canPrune (ab : AlphaBeta) : bool := Rating_leb (m_beta ab) (m_alpha ab).
Definition getAlpha (ab : AlphaBeta) : Rating := m_alpha ab.
Definition getBeta (ab : AlphaBeta) : Rating := m_beta ab.

Definition RANDOMIZATION_CUTOFF : Z := 3.
Definition MAX_DEPTH : nat := 30.
Definition MAX_KILLER_MOVES : nat := 3.

Record KillerMoveEntries : Type := mkKillerMoveEntries {
  killerMoves : list Move;   (* std::array<Move, MAX_KILLER_MOVES> *)
  index : nat
}.

Section Searcher.
Context `{Collaborators}.

Record Searcher : Type := mkSearcher {
  m_urbg : Urbg;
  m_helper : bool;
  m_killerMoves : list KillerMoveEntries;   (* std::array<KillerMoveEntries, MAX_DEPTH> *)
  depth : Z
}.

(** The constructor: every killer slot null, every ring index 0. *)
Definition Searcher_new (urbg : Urbg) (helper : bool) : Searcher :=
  mkSearcher urbg helper
    (replicate MAX_DEPTH (mkKillerMoveEntries (replicate MAX_KILLER_MOVES Move_null) 0%nat))
    0.

Definition isHelper (s : Searcher) : bool := m_helper s.

Definition withDepth (s : Searcher) (d : Z) : Searcher :=
  mkSearcher (m_urbg s) (m_helper s) (m_killerMoves s) d.

(** What a running searcher reads and writes: its own members, the position
    table it shares with the other workers, and how many loads of the stop
    flag have been made. *)
Record SearchState : Type := mkSearchState {
  self : Searcher;
  table : PositionTable;
  loads : nat
}.

Definition Search (A : Type) : Type := SearchState -> Checked (A * SearchState).

(** [return] of the monad. *)
Definition yield {A} (a : A) : Search A := fun st => Ok (a, st).

#[global] Instance Search_ret : MRet Search := @yield.
#[global] Instance Search_bind : MBind Search := fun _ _ k c st =>
  match c st with
  | Ok (a, st') => k a st'
  | Failed f => Failed f
  end.

(** A checked computation that touches no state. *)
Definition pure {A} (c : Checked A) : Search A := fun st =>
  match c with
  | Ok a => Ok (a, st)
  | Failed f => Failed f
  end.

(** The stop flag reads as set from the [n]-th load on. *)
Definition stoppedFrom (n : nat) : Prop :=
  forall k : nat, (n <= k)%nat -> stopRequested k = true.

(** [m_stopRequested->load()] *)
Definition loadStopRequested : Search bool := fun st =>
  Ok (stopRequested (loads st), mkSearchState (self st) (table st) (S (loads st))).

Definition lookupEntry (pos : Position) (remainingDepth : Z) : Search (option PositionEntry) :=
  fun st => Ok (getPositionEntry (table st) pos remainingDepth, st).

Definition storeEntry (pos : Position) (entry : PositionEntry) : Search unit := fun st =>
  Ok (tt, mkSearchState (self st) (storePositionEntry (table st) pos entry) (loads st)).

Definition helperFlag : Search bool := fun st => Ok (m_helper (self st), st).

(** [m_killerMoves[level]] *)
Definition killerEntriesAt (level : Z) : Search KillerMoveEntries := fun st =>
  match m_killerMoves (self st) !! Z.to_nat level with
  | Some entries => Ok (entries, st)
  | None => Failed (IndexOutOfBounds KillerMoveTable)
  end.

(** The write through the reference [killerMoves] when a quiet move prunes. *)
Definition addKillerMove (level : Z) (killer : Move) : Search unit := fun st =>
  let s := self st in
  match m_killerMoves s !! Z.to_nat level with
  | Some entries =>
      if (index entries <? MAX_KILLER_MOVES)%nat then
        let entries' :=
          mkKillerMoveEntries (<[index entries := killer]> (killerMoves entries))
            (if (index entries + 1 =? MAX_KILLER_MOVES)%nat then 0%nat
             else (index entries + 1)%nat) in
        Ok (tt, mkSearchState
                  (mkSearcher (m_urbg s) (m_helper s)
                     (<[Z.to_nat level := entries']> (m_killerMoves s)) (depth s))
                  (table st) (loads st))
      else Failed (IndexOutOfBounds KillerMoveRing)
  | None => Failed (IndexOutOfBounds KillerMoveTable)
  end.

(** [std::ranges::shuffle(movePriorities, m_urbg)] *)
Definition shuffleWithUrbg (movePriorities : list MovePriority) : Search (list MovePriority) :=
  fun st =>
    let s := self st in
    let '(shuffled, urbg') := shuffle movePriorities (m_urbg s) in
    Ok (shuffled, mkSearchState (mkSearcher urbg' (m_helper s) (m_killerMoves s) (depth s))
                    (table st) (loads st)).

Definition wouldMakeRepetition (pos : Position) (pvMove : Move) (repetitionMap : RepetitionMap)
  : bool :=
  let child := applyMove pos pvMove in
  let repetitionCount := getPositionCount repetitionMap child + 1 in
  2 <=? repetitionCount.

(** What the consultation of a table entry decides: an immediate return, or
    to go on with a PV move and a window. *)
Inductive TableVerdict : Type :=
| Cutoff (r : MoveRating)
| Proceed (pvMove : Move) (alphaBeta : AlphaBeta).

Definition entryResult (entry : PositionEntry) : MoveRating :=
  mkMoveRating (bestMove entry) (entryRating entry) false None.

(** Lines 145-168 of [tryShortCircuit]: the body of [if (auto entryRes = ...)]. *)
Definition consultEntry (node : Node) (entry : PositionEntry) (alphaBeta : AlphaBeta)
  : TableVerdict :=
  let pvMove := bestMove entry in
  if negb (wouldMakeRepetition (getPos node) (bestMove entry) (getRepetitionMap node))
     && (getRemainingDepth node <=? entryDepth entry)
  then
    match bound entry with
    | InWindow => Cutoff (entryResult entry)
    | LowerBound =>
        if Rating_leb (getBeta alphaBeta) (entryRating entry)
        then Cutoff (entryResult entry)
        else Proceed pvMove (updateAlpha alphaBeta (entryRating entry))
    | UpperBound =>
        if Rating_leb (entryRating entry) (getAlpha alphaBeta)
        then Cutoff (entryResult entry)
        else Proceed pvMove (updateBeta alphaBeta (entryRating entry))
    end
  else Proceed pvMove alphaBeta.

(** The result of the loop over the move priorities in [bestChildPosition]. *)
Record ChildLoopResult : Type := mkChildLoopResult {
  bestRating : MoveRating;
  loopBound : Bound;
  didNotPrune : bool
}.

Section Recursion.
(** The recursive call [tryShortCircuit<!Maximizing>]. *)
Variable recurse : bool -> Node -> AlphaBeta -> Search MoveRating.

(** One child: the search at the recommended depth and, for a trimmed move
    that may be chosen, the search again at full depth. *)
Definition searchChild (maximizing : bool) (node : Node) (alphaBeta : AlphaBeta)
    (movePriority : MovePriority) : Search MoveRating :=
  child ← pure (Node_child node movePriority);
  childRating ← recurse (negb maximizing) child alphaBeta;
  if isTrimmed movePriority then
    let mayChooseThisMove :=
      if maximizing then Rating_leb (getAlpha alphaBeta) (rating childRating)
      else Rating_leb (rating childRating) (getBeta alphaBeta) in
    if mayChooseThisMove then
      fullDepth ← pure (SafeUnsigned.sub (getRemainingDepth node) 1);
      newChild ← pure (Node_child node (MovePriority_full (getMove movePriority) fullDepth));
      recurse (negb maximizing) newChild alphaBeta
    else yield childRating
  else yield childRating.

(** [if (childRating.rating > bestRating.rating)] and its minimizing twin. *)
Definition takeBetter (maximizing : bool) (best childRating : MoveRating) (m : Move)
  : MoveRating :=
  if (if maximizing then Rating_ltb (rating best) (rating childRating)
      else Rating_ltb (rating childRating) (rating best))
  then withMove childRating m
  else best.

(** The loop [for (const auto& movePriority : movePriorities)]. *)
Fixpoint searchChildren (maximizing : bool) (node : Node) (movePriorities : list MovePriority)
    (best : MoveRating) (alphaBeta : AlphaBeta) : Search ChildLoopResult :=
  match movePriorities with
  | [] => yield (mkChildLoopResult best InWindow true)
  | movePriority :: rest =>
      childRating ← searchChild maximizing node alphaBeta movePriority;
      let best := takeBetter maximizing best childRating (getMove movePriority) in
      let alphaBeta := update maximizing alphaBeta (rating best) in
      if canPrune alphaBeta then
        _ ← (if bool_decide (capturedPiece (getMove movePriority) = PieceNone)
             then addKillerMove (getLevel node) (getMove movePriority)
             else yield tt);
        yield (mkChildLoopResult best (if maximizing then LowerBound else UpperBound) false)
      else if Rating_eqb (rating childRating) (checkmatedRating (negb maximizing)) then
        yield (mkChildLoopResult best InWindow true)
      else searchChildren maximizing node rest best alphaBeta
  end.

(** Lines 237-247 of [bestChildPosition]: the bound the node is stored with. *)
Definition nodeBound (maximizing : bool) (originalAlphaBeta : AlphaBeta)
    (outcome : ChildLoopResult) : Bound :=
  let best := bestRating outcome in
  if didNotPrune outcome then
    if maximizing then
      if Rating_leb (rating best) (getAlpha originalAlphaBeta) then UpperBound
      else loopBound outcome
    else
      if Rating_leb (getBeta originalAlphaBeta) (rating best) then LowerBound
      else loopBound outcome
  else loopBound outcome.

(** Lines 249-255 of [bestChildPosition]: the store into the position table
    and the cleared repetition flag. *)
Definition finishNode (maximizing : bool) (node : Node) (originalAlphaBeta : AlphaBeta)
    (outcome : ChildLoopResult) : Search MoveRating :=
  let best := bestRating outcome in
  let bound := nodeBound maximizing originalAlphaBeta outcome in
  _ ← (if negb (invalidTTEntry best)
       then storeEntry (getPos node)
              (mkPositionEntry (move best) (rating best) (getRemainingDepth node) bound)
       else yield tt);
  yield (withInvalidTTEntry best false).

Definition bestChildPosition (maximizing : bool) (node : Node) (pvMove : Move)
    (alphaBeta : AlphaBeta) : Search MoveRating :=
  let originalAlphaBeta := alphaBeta in
  entries ← killerEntriesAt (getLevel node);
  movePriorities ← pure (getMovePriorities node pvMove (killerMoves entries));
  helper ← helperFlag;
  movePriorities ←
    (if helper && (getLevel node <? RANDOMIZATION_CUTOFF)
     then shuffleWithUrbg movePriorities
     else yield movePriorities);
  let best := mkMoveRating Move_null (worstPossibleRating maximizing) false None in
  outcome ← searchChildren maximizing node movePriorities best alphaBeta;
  finishNode maximizing node originalAlphaBeta outcome.

End Recursion.

(** The result for a node without legal moves. *)
Definition terminalResult (maximizing : bool) (node : Node) : MoveRating :=
  if isCheckmate (getPos node)
  then mkMoveRating Move_null (checkmatedRating maximizing) false (Some (getLevel node))
  else MoveRating_default.

(** Lines 141-170: the table is consulted unless a stop was requested or the
    node is a helper's root. *)
Definition consultTable (node : Node) (alphaBeta : AlphaBeta) : Search TableVerdict :=
  helper ← helperFlag;
  let canUseEntry := negb (helper && (getLevel node =? 0)) in
  stop ← loadStopRequested;
  if negb stop && canUseEntry then
    entryRes ← lookupEntry (getPos node) (getRemainingDepth node);
    match entryRes with
    | Some entry => yield (consultEntry node entry alphaBeta)
    | None => yield (Proceed Move_null alphaBeta)
    end
  else yield (Proceed Move_null alphaBeta).

(** [tryShortCircuit<Maximizing>].  [fuel] bounds the nesting of
    [bestChildPosition]; a node at remaining depth [d] needs [d]. *)
Fixpoint tryShortCircuit (fuel : nat) (maximizing : bool) (node : Node) (alphaBeta : AlphaBeta)
  {struct fuel} : Search MoveRating :=
  if bool_decide (legalMoves (getPos node) = []) then
    yield (terminalResult maximizing node)
  else if 3 <=? getPositionCount (getRepetitionMap node) (getPos node) then
    yield (mkMoveRating Move_null 0%Q true None)
  else
    stop ← loadStopRequested;
    if (stop : bool) then yield (mkMoveRating Move_null (getRating node) false None)
    else
      verdict ← consultTable node alphaBeta;
      match verdict with
      | Cutoff r => yield r
      | Proceed pvMove alphaBeta =>
          if isDone node then yield (mkMoveRating Move_null (getRating node) false None)
          else
            match fuel with
            | O => fun _ => Failed FuelExhausted
            | S fuel' =>
                bestChildPosition (tryShortCircuit fuel') maximizing node pvMove alphaBeta
            end
      end.

(** What [tryShortCircuit] does once the table has been consulted without a
    cutoff: the leaf evaluation of a node that is done, child selection
    otherwise (lines 171-174). *)
Definition continueSearch (fuel : nat) (maximizing : bool) (node : Node) (pvMove : Move)
    (alphaBeta : AlphaBeta) : Search MoveRating :=
  if isDone node then yield (mkMoveRating Move_null (getRating node) false None)
  else
    match fuel with
    | O => fun _ => Failed FuelExhausted
    | S fuel' => bestChildPosition (tryShortCircuit fuel') maximizing node pvMove alphaBeta
    end.

(** The state after [n] further loads of the stop flag. *)
Definition afterLoads (n : nat) (st : SearchState) : SearchState :=
  mkSearchState (self st) (table st) (n + loads st).

(** A search that does not stop for lack of fuel in the state [st]. *)
Definition hasFuel {A} (c : Search A) (st : SearchState) : Prop :=
  c st <> Failed FuelExhausted.

(** The killer-move table has its [MAX_DEPTH] rows. *)
Definition tableIntact (st : SearchState) : Prop :=
  length (m_killerMoves (self st)) = MAX_DEPTH.

(** A node all of whose descendants have a level inside the killer-move
    table. *)
Definition insideTable (node : Node) : Prop :=
  0 <= getLevel node /\ 0 <= getRemainingDepth node /\
  getLevel node + getRemainingDepth node <= Z.of_nat MAX_DEPTH.

(** From a state with an intact killer-move table, the search does not
    subscript the table out of bounds and leaves it intact. *)
Definition subscriptsSafely {A} (c : Search A) (st : SearchState) : Prop :=
  tableIntact st ->
  c st <> Failed (IndexOutOfBounds KillerMoveTable) /\
  forall a st', c st = Ok (a, st') -> tableIntact st'.

(** The recursive call is safe on every node inside the table. *)
Definition guarded (recurse : bool -> Node -> AlphaBeta -> Search MoveRating) : Prop :=
  forall maximizing node alphaBeta st,
    insideTable node -> subscriptsSafely (recurse maximizing node alphaBeta) st.

(** The recursive call never runs out of fuel on a node it has fuel for. *)
Definition fuelled (recurse : bool -> Node -> AlphaBeta -> Search MoveRating) (limit : Z)
  : Prop :=
  forall maximizing node alphaBeta st,
    0 <= getRemainingDepth node <= limit -> hasFuel (recurse maximizing node alphaBeta) st.

Definition AlphaBeta_initial : AlphaBeta :=
  mkAlphaBeta (worstPossibleRating true) (worstPossibleRating false).

Definition startAlphaBetaSearch (maximizing : bool) (pos : Position) (depth : Z)
    (repetitionMap : RepetitionMap) : Search MoveRating :=
  let root := Node_root pos depth repetitionMap in
  tryShortCircuit (Z.to_nat depth) maximizing root AlphaBeta_initial.

(** The discarded searches of [iterativeDeepening], at the depths given. *)
Fixpoint warmUp (maximizing : bool) (pos : Position) (repetitionMap : RepetitionMap)
    (iterDepths : list Z) : Search unit :=
  match iterDepths with
  | [] => yield tt
  | iterDepth :: rest =>
      _ ← startAlphaBetaSearch maximizing pos iterDepth repetitionMap;
      warmUp maximizing pos repetitionMap rest
  end.

(** [iterativeDeepening<Maximizing>]: depths 1 .. depth-1, then [depth]. *)
Definition iterativeDeepening (maximizing : bool) (pos : Position)
    (repetitionMap : RepetitionMap) : Search MoveRating :=
  fun st =>
    let d := depth (self st) in
    (_ ← warmUp maximizing pos repetitionMap (seqZ 1 (d - 1));
     startAlphaBetaSearch maximizing pos d repetitionMap) st.

(** [Searcher::operator()] *)
Definition searcherCall (pos : Position) (repetitionMap : RepetitionMap) : Search MoveRating :=
  if isWhite pos then iterativeDeepening true pos repetitionMap
  else iterativeDeepening false pos repetitionMap.

End Searcher.

(** ** Chess.MoveSearch: the parallel search coordinator *)

Section Coordinator.
Context `{Collaborators}.

(** [1.2_rt] *)
Definition SCORE_BOOST : Rating := 6 # 5.

(** [Searcher::getVotingWeight].  [worstScore] is passed by reference and
    never written. *)
Definition getVotingWeight (searcher : Searcher) (moveRating : MoveRating)
    (worstScore maxScoreDiff : Rating) : Checked Rating :=
  _ ← zAssert (Rating_leb 0%Q maxScoreDiff);
  let ret := 1%Q in
  let ret := (ret + inject_Z (2 ^ depth searcher))%Q in
  let ret :=
    if negb (Rating_eqb maxScoreDiff 0%Q)
    then (ret * (SCORE_BOOST * (rating moveRating - worstScore) / maxScoreDiff))%Q
    else ret in
  match checkmateLevel moveRating with
  | Some level =>
      if level =? 0 then Failed DivisionByZero
      else Ok (ret + ret / inject_Z level)%Q
  | None => Ok ret
  end.

(** The loop body of [AsyncSearchState::assignDepths] for the searcher at
    position [i] of the vector. *)
Definition assignDepth (maxDepth : Z) (i : nat) (searcher : Searcher) : Checked Searcher :=
  if negb (isHelper searcher) then Ok (withDepth searcher maxDepth)
  else
    parity ← SafeUnsigned.rem (SafeUnsigned.truncate (Z.of_nat i)) 2;
    let d := if parity =? 0 then 1 else 0 in
    depth ← (if maxDepth =? 1 then Ok maxDepth else SafeUnsigned.sub maxDepth d);
    Ok (withDepth searcher depth).

Fixpoint assignDepthsFrom (maxDepth : Z) (i : nat) (searchers : list Searcher)
  : Checked (list Searcher) :=
  match searchers with
  | [] => Ok []
  | searcher :: rest =>
      searcher' ← assignDepth maxDepth i searcher;
      rest' ← assignDepthsFrom maxDepth (S i) rest;
      Ok (searcher' :: rest')
  end.

Definition assignDepths (maxDepth : Z) (searchers : list Searcher) : Checked (list Searcher) :=
  _ ← zAssert (1 <=? maxDepth);
  assignDepthsFrom maxDepth 0 searchers.

(** The depth assignment as section 4.3 of the specification words it, for
    the worker at position [i] of the worker list; [assignDepths] is compared
    with it below. *)
Definition staggeredDepth (maxDepth : Z) (i : nat) (helper : bool) : Z :=
  if helper then
    if maxDepth =? 1 then maxDepth
    else if Z.of_nat i mod 2 =? 1 then maxDepth else maxDepth - 1
  else maxDepth.

(** [std::ranges::any_of(moves, ... m.checkmateLevel.has_value())] *)
Definition anyPathsLeadToCheckmate (moves : list MoveRating) : bool :=
  existsb (fun m => bool_decide (is_Some (checkmateLevel m))) moves.

(** The projection of the [min_element] over checkmate levels. *)
Definition checkmateKey (mr : MoveRating) : Z :=
  match checkmateLevel mr with
  | None => 255
  | Some level => level
  end.

(** [std::ranges::min_element] with [std::less]: the first smallest element. *)
Fixpoint minElement {A} (key : A -> Z) (best : A) (l : list A) : A :=
  match l with
  | [] => best
  | x :: l' => minElement key (if key x <? key best then x else best) l'
  end.

(** [std::ranges::minmax_element] projected on ratings: the first smallest
    and the last largest rating. *)
Fixpoint minmaxRating (worst best : Rating) (l : list MoveRating) : Rating * Rating :=
  match l with
  | [] => (worst, best)
  | mr :: l' =>
      minmaxRating (if Rating_ltb (rating mr) worst then rating mr else worst)
                   (if Rating_ltb (rating mr) best then best else rating mr) l'
  end.

(** The locals of the voting loop. *)
Record Tally : Type := mkTally {
  moveRatings : gmap Move Rating;   (* std::unordered_map<Move, Rating, MoveHasher> *)
  bestMoveSoFar : Move;             (* bestMove *)
  bestVoteRating : Rating
}.

Definition Tally_initial : Tally := mkTally ∅ Move_null 0%Q.

(** [moveRatings[m]] read without inserting: a missing key counts 0. *)
Definition votesFor (t : Tally) (m : Move) : Rating := default 0%Q (moveRatings t !! m).

Section Voting.
(** The weight function of the loop: [searcher.getVotingWeight]. *)
Variable weigh : Searcher -> MoveRating -> Rating -> Rating -> Checked Rating.

(** One turn of the loop over [std::views::zip(moves, searchers)]. *)
Definition castVote (worstScore maxScoreDiff : Rating) (t : Tally)
    (moveRating : MoveRating) (searcher : Searcher) : Checked Tally :=
  weight ← weigh searcher moveRating worstScore maxScoreDiff;
  let voteRating := (votesFor t (move moveRating) + weight)%Q in
  let ratings := <[move moveRating := voteRating]> (moveRatings t) in
  Ok (if Rating_ltb (bestVoteRating t) voteRating
      then mkTally ratings (move moveRating) voteRating
      else mkTally ratings (bestMoveSoFar t) (bestVoteRating t)).

Fixpoint castVotes (worstScore maxScoreDiff : Rating) (t : Tally)
    (votes : list (MoveRating * Searcher)) : Checked Tally :=
  match votes with
  | [] => Ok t
  | (moveRating, searcher) :: rest =>
      t' ← castVote worstScore maxScoreDiff t moveRating searcher;
      castVotes worstScore maxScoreDiff t' rest
  end.

(** [voteForBestMove] over a weight function. *)
Definition voteWith (searchers : list Searcher) (moves : list MoveRating) : Checked Move :=
  if anyPathsLeadToCheckmate moves then
    match moves with
    | [] => Failed EmptyRange
    | first :: others => Ok (move (minElement checkmateKey first others))
    end
  else
    match moves with
    | [] => Failed EmptyRange
    | first :: others =>
        let '(worstScore, bestScore) := minmaxRating (rating first) (rating first) others in
        let maxScoreDiff := (bestScore - worstScore)%Q in
        t ← castVotes worstScore maxScoreDiff Tally_initial (zip moves searchers);
        Ok (bestMoveSoFar t)
    end.

End Voting.

Definition voteForBestMove (searchers : list Searcher) (moves : list MoveRating) : Checked Move :=
  voteWith getVotingWeight searchers moves.

(** The weight [getVotingWeight] computes before it looks at the checkmate
    level, which is its result when the level is unset. *)
Definition quietWeight (searcher : Searcher) (moveRating : MoveRating)
    (worstScore maxScoreDiff : Rating) : Rating :=
  let ret := (1 + inject_Z (2 ^ depth searcher))%Q in
  if negb (Rating_eqb maxScoreDiff 0%Q)
  then (ret * (SCORE_BOOST * (rating moveRating - worstScore) / maxScoreDiff))%Q
  else ret.

(** [getVotingWeight] with its branch for a set checkmate level cut out: a
    call with a set level fails. *)
Definition getVotingWeightUnset (searcher : Searcher) (moveRating : MoveRating)
    (worstScore maxScoreDiff : Rating) : Checked Rating :=
  _ ← zAssert (Rating_leb 0%Q maxScoreDiff);
  match checkmateLevel moveRating with
  | Some _ => Failed AssertionFailed
  | None => Ok (quietWeight searcher moveRating worstScore maxScoreDiff)
  end.

(** The ballots of a vote without checkmates: for each worker, in the order
    of the enumeration, its move and its voting weight. *)
Definition ballots (searchers : list Searcher) (moves : list MoveRating)
  : list (Move * Rating) :=
  match moves with
  | [] => []
  | first :: others =>
      let '(worstScore, bestScore) := minmaxRating (rating first) (rating first) others in
      map (fun '(moveRating, searcher) =>
             (move moveRating,
              quietWeight searcher moveRating worstScore (bestScore - worstScore)%Q))
          (zip moves searchers)
  end.

(** The weight a move has accumulated over a list of ballots. *)
Fixpoint accumulatedWeight (cast : list (Move * Rating)) (m : Move) : Rating :=
  match cast with
  | [] => 0%Q
  | (voted, weight) :: rest =>
      ((if bool_decide (voted = m) then weight else 0) + accumulatedWeight rest m)%Q
  end.

(** The voting loop run on ballots. *)
Definition countBallot (t : Tally) (ballot : Move * Rating) : Tally :=
  let voteRating := (votesFor t (fst ballot) + snd ballot)%Q in
  let ratings := <[fst ballot := voteRating]> (moveRatings t) in
  if Rating_ltb (bestVoteRating t) voteRating
  then mkTally ratings (fst ballot) voteRating
  else mkTally ratings (bestMoveSoFar t) (bestVoteRating t).

(** What the voting loop has established after the ballots [cast]: the map
    holds the accumulated weights, the best vote rating bounds them all and
    is attained by the best move, and the best move got there first. *)
Record Counted (cast : list (Move * Rating)) (t : Tally) : Prop := mkCounted {
  counted_votes : forall m, (votesFor t m == accumulatedWeight cast m)%Q;
  counted_bound : forall m, (accumulatedWeight cast m <= bestVoteRating t)%Q;
  counted_best : (bestVoteRating t <= accumulatedWeight cast (bestMoveSoFar t))%Q;
  counted_first :
    (0 < bestVoteRating t)%Q ->
    exists n : nat,
      (n <= length cast)%nat /\
      (bestVoteRating t <= accumulatedWeight (take n cast) (bestMoveSoFar t))%Q /\
      forall m, m <> bestMoveSoFar t ->
                (accumulatedWeight (take n cast) m < bestVoteRating t)%Q
}.

(** What [AsyncSearchState] holds for the model: the searchers, and the
    position table and the count of stop-flag loads they share. *)
Record AsyncSearchState : Type := mkAsyncSearchState {
  searchers : list Searcher;
  sharedTable : PositionTable;
  stopLoads : nat
}.

(** [pool.submit_sequence(...).get()] under the schedule that runs the
    searchers one after the other: the candidates, and the searchers and the
    shared state they leave. *)
Fixpoint runSearchers (pos : Position) (repetitionMap : RepetitionMap)
    (pending : list Searcher) (tt : PositionTable) (n : nat)
  : Checked (list MoveRating * AsyncSearchState) :=
  match pending with
  | [] => Ok ([], mkAsyncSearchState [] tt n)
  | searcher :: rest =>
      '(candidate, st) ← searcherCall pos repetitionMap (mkSearchState searcher tt n);
      '(candidates, final) ← runSearchers pos repetitionMap rest (table st) (loads st);
      Ok (candidate :: candidates,
          mkAsyncSearchState (self st :: searchers final) (sharedTable final) (stopLoads final))
  end.

(** [std::ranges::any_of(moveCandidates, ... mr.move == Move::null())] *)
Definition hasNullMove (moveCandidates : list MoveRating) : bool :=
  existsb (fun mr => Move_eqb (move mr) Move_null) moveCandidates.

(** The part of [findBestMoveImpl] after the candidates are in. *)
Definition chooseMove (searchers : list Searcher) (moveCandidates : list MoveRating)
  : Checked (option Move) :=
  _ ← zAssert (negb (bool_decide (moveCandidates = [])));
  if hasNullMove moveCandidates then Ok None
  else
    winner ← voteForBestMove searchers moveCandidates;
    Ok (Some winner).

(** [findBestMoveImpl] and [AsyncSearch::findBestMove].  The write
    [state->stopRequested.store(false)] and the [cancel()] calls of the
    other thread that follow it show in what the loads of the flag observe,
    which [stopRequested] gives from [stopLoads state] on. *)
Definition findBestMoveImpl (state : AsyncSearchState) (pos : Position) (depth : Z)
    (repetitionMap : RepetitionMap) : Checked (option Move * AsyncSearchState) :=
  assigned ← assignDepths depth (searchers state);
  '(moveCandidates, state') ←
    runSearchers pos repetitionMap assigned (sharedTable state) (stopLoads state);
  chosen ← chooseMove (searchers state') moveCandidates;
  Ok (chosen, state').

Definition findBestMove := findBestMoveImpl.

(** The searchers [AsyncSearchState()] creates for [threadCount] hardware
    threads: the main one, then the helpers; [seeded i] is the generator
    [std::random_device] seeds for the [i]-th of them. *)
Definition AsyncSearchState_searchers (threadCount : nat) (seeded : nat -> Urbg)
  : list Searcher :=
  Searcher_new (seeded 0%nat) false
  :: map (fun i => Searcher_new (seeded i) true) (seq 1 (threadCount - 1)).

End Coordinator.

(** ** Chess.UCI:SearchThread *)

Module SearchThread.
Section Thread.
Context `{Collaborators}.

(** Modelled from the spec: [GameState] is declared in the interface unit of
    [Chess.UCI], which is not among the sources; it holds a position, a
    repetition map and a depth. *)
Record GameState : Type := mkGameState {
  pos : Position;
  repetitionMap : RepetitionMap;
  depth : Z
}.

(** The members the mutex [m_mutex] protects. *)
Record Shared : Type := mkShared {
  m_state : GameState;
  m_shouldPonder : bool;
  m_calculationRequested : bool
}.

(** The critical sections of the commands the protocol thread calls. *)
Definition setPosition (state : GameState) (sh : Shared) : Shared :=
  mkShared state true (m_calculationRequested sh).

Definition go (d : Z) (sh : Shared) : Shared :=
  mkShared (mkGameState (pos (m_state sh)) (repetitionMap (m_state sh)) d) false true.

Definition stop (sh : Shared) : Shared :=
  mkShared (m_state sh) false (m_calculationRequested sh).

(** Where the search thread stands between two of its critical sections. *)
Inductive Control : Type :=
| AtLoopHead                           (* [run], line 190 *)
| AtThink                              (* [think], line 157 *)
| AtWait                               (* [think], line 165 *)
| Pondering (stateCopy : GameState)    (* [think], line 177, the search running *)
| AtCommit                             (* [run], line 192 *)
| Committing (stateCopy : GameState)   (* [run], line 203, the search running *)
| Returned.                            (* [run] has returned *)

Record Machine : Type := mkMachine {
  control : Control;
  shared : Shared;
  m_searcher : AsyncSearchState;
  printed : list string   (* the lines written to stdout, oldest first *)
}.

(** The depth of the pondering search, [255_su8]. *)
Definition PONDER_DEPTH : Z := 255.

(** [think], lines 178-183: the ponder search has returned [found]. *)
Definition afterPonder (found : option Move) (sh : Shared) : Shared :=
  match found with
  | Some _ => sh
  | None =>
      if negb (m_calculationRequested sh)
      then mkShared (m_state sh) false (m_calculationRequested sh)
      else sh
  end.

(** [run], lines 203-218: the committed search has returned [bestMove];
    [stopping] is what [stopToken.stop_requested()] answers. *)
Definition afterCommitted (bestMove : option Move) (stopping : bool) (sh : Shared)
  : list string * Shared :=
  match bestMove with
  | Some best =>
      if negb stopping then
        ([getUCIString best],
         if negb (m_calculationRequested sh) then
           mkShared
             (mkGameState (applyMove (pos (m_state sh)) best)
                (repetitionMap (m_state sh)) (depth (m_state sh)))
             true (m_calculationRequested sh)
         else sh)
      else ([], sh)
  | None => ([], mkShared (m_state sh) false (m_calculationRequested sh))
  end.

(** One step of the search thread; [stopping] is the answer of the stop
    token at that step.  [None]: the thread is blocked on the condition
    variable, or has returned. *)
Definition step (stopping : bool) (m : Machine) : Checked (option Machine) :=
  let sh := shared m in
  match control m with
  | AtLoopHead =>
      Ok (Some (mkMachine (if stopping then Returned else AtThink) sh
                  (m_searcher m) (printed m)))
  | AtThink =>
      Ok (Some (mkMachine
                  (if stopping || m_calculationRequested sh then AtCommit else AtWait)
                  sh (m_searcher m) (printed m)))
  | AtWait =>
      if stopping || m_shouldPonder sh || m_calculationRequested sh then
        Ok (Some (mkMachine
                    (if stopping || negb (m_shouldPonder sh) || m_calculationRequested sh
                     then AtCommit else Pondering (m_state sh))
                    sh (m_searcher m) (printed m)))
      else Ok None
  | Pondering stateCopy =>
      '(found, searcher') ←
        findBestMove (m_searcher m) (pos stateCopy) PONDER_DEPTH (repetitionMap stateCopy);
      Ok (Some (mkMachine AtThink (afterPonder found sh) searcher' (printed m)))
  | AtCommit =>
      if stopping then Ok (Some (mkMachine Returned sh (m_searcher m) (printed m)))
      else
        Ok (Some (mkMachine (Committing (m_state sh))
                    (mkShared (m_state sh) (m_shouldPonder sh) false)
                    (m_searcher m) (printed m)))
  | Committing stateCopy =>
      '(bestMove, searcher') ←
        findBestMove (m_searcher m) (pos stateCopy) (depth stateCopy)
          (repetitionMap stateCopy);
      let '(lines, sh') := afterCommitted bestMove stopping sh in
      Ok (Some (mkMachine AtLoopHead sh' searcher' (printed m ++ lines)))
  | Returned => Ok None
  end.

(** [n] steps in a row, none of them blocked. *)
Fixpoint steps (stopping : bool) (n : nat) (m : Machine) : Checked (option Machine) :=
  match n with
  | O => Ok (Some m)
  | S n' =>
      next ← step stopping m;
      match next with
      | Some m' => steps stopping n' m'
      | None => Ok None
      end
  end.

(** A command of the protocol thread, run between two steps. *)
Definition command (f : Shared -> Shared) (m : Machine) : Machine :=
  mkMachine (control m) (f (shared m)) (m_searcher m) (printed m).

End Thread.
End SearchThread.

(** ** A small instance of the collaborators

    A game on a line: position [n] has the single quiet move to position
    [n + 1] as long as [n < 1000]; positions from 1000 on are stalemates and
    positions from 2000 on checkmates.  The position table keeps the last
    entry stored for a position; the stop flag is an argument.  The theorems
    below are stated for every instance; this one supplies the concrete
    inputs on which they are exercised. *)

Module LineGame.

Definition advance : Move := mkMove (SquareAt 8) (SquareAt 16) Pawn PieceNone PieceNone.
Definition sidestep : Move := mkMove (SquareAt 1) (SquareAt 18) Knight PieceNone PieceNone.

Definition pieceValue (p : Piece) : Rating :=
  match p with
  | PieceNone => 0 | Pawn => 1 | Knight => 3 | Bishop => 3
  | Rook => 5 | Queen => 9 | King => 100
  end%Q.

(** Insertion into a list sorted by descending exchange rating. *)
Fixpoint insertByExchange (p : MovePriority) (l : list MovePriority) : list MovePriority :=
  match l with
  | [] => [p]
  | q :: l' =>
      if Rating_ltb (getExchangeRating q) (getExchangeRating p) then p :: l
      else q :: insertByExchange p l'
  end.

Definition insertionSort (l : list MovePriority) : list MovePriority :=
  foldr insertByExchange [] l.

(** A logarithm that is exact on the powers of two: the binary exponent. *)
Definition exponentLog2 (f : float) : float :=
  double_of_Z (snd (Z.frexp f) - 1).

Definition uciString (m : Move) : string :=
  if bool_decide (m = advance) then "a2a3"%string else "b1c3"%string.

Definition game (stops : nat -> bool) : Collaborators := {|
  Position := nat;
  Bitboard := unit;
  legalMoves := fun n => if (n <? 1000)%nat then [advance] else [];
  isCheckmate := fun n => (2000 <=? n)%nat;
  isWhite := Nat.even;
  applyMove := fun n _ => S n;
  allEnemySquares := fun _ => tt;
  onBitboard := fun _ _ => false;
  alliedSquares := fun _ _ _ => [];
  hitsAttackerOrRay := fun _ _ _ => false;
  getPieceRating := pieceValue;
  staticRating := fun _ => 0%Q;
  worstPossibleRating := fun maximizing => if maximizing then (-1000000)%Q else 1000000%Q;
  checkmatedRating := fun maximizing => if maximizing then (-999999)%Q else 999999%Q;
  RepetitionMap := list nat;
  getPositionCount := fun m n => Z.of_nat (count_occ Nat.eq_dec m n);
  pushPosition := fun m n => n :: m;
  PositionTable := gmap nat PositionEntry;
  getPositionEntry := fun t n _ => t !! n;
  storePositionEntry := fun t n e => <[n := e]> t;
  log2 := exponentLog2;
  sortByExchangeRating := insertionSort;
  partitionUnstable := @List.partition MovePriority;
  Urbg := unit;
  shuffle := fun l g => (l, g);
  stopRequested := stops;
  getUCIString := uciString
|}.

(** No stop is ever requested. *)
Definition undisturbed : Collaborators := game (fun _ => false).


(** Four workers searching one ply, as [assignDepths] leaves them for a
    maximal depth of 1, and their results: the first and the last worker
    found [advance], the two in between [sidestep], all with the same
    rating. *)
Definition onePlyWorkers : list (@Searcher undisturbed) :=
  map (fun helper => @withDepth undisturbed (@Searcher_new undisturbed tt helper) 1)
      [false; true; true; true].

Definition splitVote : list MoveRating :=
  map (fun m => mkMoveRating m 0%Q false None) [advance; sidestep; sidestep; advance].

(** A one-worker search state whose table holds an exact entry for
    position 0, searched five plies deep, and the root of a two-ply search
    of position 0. *)
Definition cachedEntry : PositionEntry := mkPositionEntry advance 7%Q 5 InWindow.

Definition mainWorker (tt0 : gmap nat PositionEntry) (d : Z) : @SearchState undisturbed :=
  @mkSearchState undisturbed
    (@withDepth undisturbed (@Searcher_new undisturbed tt false) d) tt0 0.

Definition helperWorker (tt0 : gmap nat PositionEntry) (d : Z) : @SearchState undisturbed :=
  @mkSearchState undisturbed
    (@withDepth undisturbed (@Searcher_new undisturbed tt true) d) tt0 0.

Definition rootOfTwoPlies : @Node undisturbed := @Node_root undisturbed 0%nat 2 [].

(** A root that has already occurred three times. *)
Definition thriceSeenRoot : @Node undisturbed := @Node_root undisturbed 5%nat 4 [5; 5; 5]%nat.

(** The coordinator of a machine with [threadCount] hardware threads before
    its first search, for a given stop flag. *)
Definition freshCoordinator (stops : nat -> bool) (threadCount : nat)
  : @AsyncSearchState (game stops) :=
  @mkAsyncSearchState (game stops) (@AsyncSearchState_searchers (game stops) threadCount (fun _ => tt)) ∅ 0.

(** The search thread of a two-thread machine on position 0 with a
    configured depth of 1, standing at [c]; nothing printed so far. *)
Definition threadAt (c : @SearchThread.Control undisturbed) (shouldPonder : bool)
  : @SearchThread.Machine undisturbed :=
  @SearchThread.mkMachine undisturbed c
    (@SearchThread.mkShared undisturbed
       (@SearchThread.mkGameState undisturbed 0%nat [] 1) shouldPonder false)
    (freshCoordinator (fun _ => false) 2) [].

Definition startPosition : @SearchThread.GameState undisturbed :=
  @SearchThread.mkGameState undisturbed 0%nat [] 1.

End LineGame.

Section MovePriorityMore.
Context `{Collaborators}.

(** The reduction [trim] computes for a move at [moveIndex] whose child would
    be searched [d] plies deep. *)
Definition reductionOf (d moveIndex : Z) : Checked Z :=
  uint8_of_double
    (ROUND_UP_BIAS
     + (log2 (double_of_Z (d + 1)) * log2 (double_of_Z (moveIndex + 1)) / LMR_DIVISOR))%float.

(** The priority [getMovePrioritiesImpl] builds for a legal move of a node
    with [remainingDepth] plies left, before any trimming. *)
Definition freshPriority (allEnemy : Bitboard) (remainingDepth : Z) (m : Move)
  : MovePriority :=
  mkMovePriority m (calcExchangeRating m allEnemy) (remainingDepth - 1) false.

(** A priority and what [trim] has made of it: the same move and exchange
    rating, marked as trimmed, at a depth that is not greater. *)
Definition trimmedFrom (p p' : MovePriority) : Prop :=
  getMove p' = getMove p /\ getExchangeRating p' = getExchangeRating p /\
  isTrimmed p' = true /\ 0 <= getDepth p' <= getDepth p.

End MovePriorityMore.

(** What the C++ standard promises of the library routines of the move
    ordering: [std::ranges::sort], [std::ranges::partition] and
    [std::ranges::shuffle] rearrange the range they are given, and the
    partition puts the elements that satisfy the predicate first. *)
Class OrderingLaws `{Collaborators} : Prop := {
  sort_Permutation :
    forall l, Permutation (sortByExchangeRating l) l;
  partition_Permutation :
    forall f l, Permutation (fst (partitionUnstable f l) ++ snd (partitionUnstable f l)) l;
  partition_selects :
    forall f l,
      Forall (fun p => f p = true) (fst (partitionUnstable f l)) /\
      Forall (fun p => f p = false) (snd (partitionUnstable f l));
  shuffle_Permutation :
    forall l g, Permutation (fst (shuffle l g)) l
}.

(** ** A second small instance: a position with something to order

    Position 0 has four legal moves for White, whose queen on d1 is attacked
    by a rook: a knight takes the rook, a bishop steps into the rook's ray, a
    knight develops and a pawn advances.  Every other position has no legal
    move.  The library routines are those of the line game. *)

Module Skirmish.

Definition takes : Move := mkMove (SquareAt 21) (SquareAt 11) Knight Rook PieceNone.
Definition blocks : Move := mkMove (SquareAt 5) (SquareAt 12) Bishop PieceNone PieceNone.
Definition develops : Move := mkMove (SquareAt 1) (SquareAt 18) Knight PieceNone PieceNone.
Definition pushes : Move := mkMove (SquareAt 8) (SquareAt 16) Pawn PieceNone PieceNone.

Definition uciString (m : Move) : string :=
  if bool_decide (m = takes) then "f3d2"%string
  else if bool_decide (m = blocks) then "f1e2"%string
  else if bool_decide (m = develops) then "b1c3"%string
  else "a2a3"%string.

Definition game : Collaborators := {|
  Position := nat;
  Bitboard := list Square;
  legalMoves := fun n => if (n =? 0)%nat then [pushes; develops; blocks; takes] else [];
  isCheckmate := fun _ => false;
  isWhite := Nat.even;
  applyMove := fun n _ => S n;
  allEnemySquares := fun _ => [SquareAt 3];
  onBitboard := fun sq board => bool_decide (sq ∈ board);
  alliedSquares := fun n pc board =>
    if bool_decide (pc = Queen) && bool_decide (SquareAt 3 ∈ board) then [SquareAt 3] else [];
  hitsAttackerOrRay := fun _ attacked target =>
    bool_decide (attacked = SquareAt 3) && bool_decide (target ∈ [SquareAt 11; SquareAt 12]);
  getPieceRating := LineGame.pieceValue;
  staticRating := fun _ => 0%Q;
  worstPossibleRating := fun maximizing => if maximizing then (-1000000)%Q else 1000000%Q;
  checkmatedRating := fun maximizing => if maximizing then (-999999)%Q else 999999%Q;
  RepetitionMap := list nat;
  getPositionCount := fun m n => Z.of_nat (count_occ Nat.eq_dec m n);
  pushPosition := fun m n => n :: m;
  PositionTable := gmap nat PositionEntry;
  getPositionEntry := fun t n _ => t !! n;
  storePositionEntry := fun t n e => <[n := e]> t;
  log2 := LineGame.exponentLog2;
  sortByExchangeRating := LineGame.insertionSort;
  partitionUnstable := @List.partition MovePriority;
  Urbg := unit;
  shuffle := fun l g => (l, g);
  stopRequested := fun _ => false;
  getUCIString := uciString
|}.

(** The root of a search of position 0 with three plies left. *)
Definition root : @Node game := @Node_root game 0%nat 3 [].

(** The killer moves of the root's level: the developing move was one. *)
Definition killers : list Move := [develops; Move_null; Move_null].

End Skirmish.

Section SearcherInvariant.
Context `{Collaborators}.

(** A row of the killer-move table as the searcher keeps it: three slots, a
    ring index below three, and no capture among the moves. *)
Definition rowIntact (row : KillerMoveEntries) : Prop :=
  length (killerMoves row) = MAX_KILLER_MOVES /\
  (index row < MAX_KILLER_MOVES)%nat /\
  Forall (fun m => capturedPiece m = PieceNone) (killerMoves row).

(** The invariant of a [Searcher]: a killer-move table of [MAX_DEPTH] intact
    rows. *)
Definition wellFormed (s : Searcher) : Prop :=
  length (m_killerMoves s) = MAX_DEPTH /\ Forall rowIntact (m_killerMoves s).

(** A row of the killer-move table after the write of [bestChildPosition]:
    the move in the slot of the ring index, and the index one further round
    the ring. *)
Definition killerWritten (killer : Move) (row : KillerMoveEntries) : KillerMoveEntries :=
  mkKillerMoveEntries (<[index row := killer]> (killerMoves row))
    (if (index row + 1 =? MAX_KILLER_MOVES)%nat then 0%nat else (index row + 1)%nat).

End SearcherInvariant.

Section SearchContracts.
Context `{Collaborators}.

(** What the rules of chess and the logarithm of the platform promise the
    late-move reduction: a position has at most 218 legal moves (the comment
    at [MAX_MOVE_COUNT]), and the reduction computed from two entries of the
    log table converts to eight bits. *)
Class BoardLaws : Prop := {
  legalMoves_bounded :
    forall pos, Z.of_nat (length (legalMoves pos)) < MAX_MOVE_COUNT;
  reduction_fits :
    forall d i, 0 <= d < 218 -> 0 <= i < 218 -> exists r, reductionOf d i = Ok r
}.

(** The members of a searcher that a search leaves alone. *)
Definition sameSearcher (s s' : Searcher) : Prop :=
  m_helper s' = m_helper s /\ depth s' = depth s.

(** From a state whose searcher is well formed, the search returns a result
    and leaves a well-formed searcher of the same role and depth. *)
Definition returns {A} (c : Search A) (st : SearchState) : Prop :=
  wellFormed (self st) ->
  exists a st',
    c st = Ok (a, st') /\ wellFormed (self st') /\ sameSearcher (self st) (self st').

(** The recursive call returns on every node inside the killer-move table
    with at most [limit] plies left. *)
Definition dependable (recurse : bool -> Node -> AlphaBeta -> Search MoveRating)
    (limit : Z) : Prop :=
  forall maximizing node alphaBeta st,
    insideTable node -> getRemainingDepth node <= limit ->
    returns (recurse maximizing node alphaBeta) st.

(** A move a search may answer with at a position: the null move or one of
    the legal moves. *)
Definition legalOrNull (pos : Position) (m : Move) : Prop :=
  m = Move_null \/ In m (legalMoves pos).

(** A position table all of whose answers hold a move of the position asked
    for. *)
Definition tableSound (tt : PositionTable) : Prop :=
  forall pos d entry,
    getPositionEntry tt pos d = Some entry -> legalOrNull pos (bestMove entry).

(** What the searcher needs of the position table: storing a move of a
    position under that position keeps the table sound (the table does not
    answer a lookup with the entry of another position). *)
Class TableLaws : Prop := {
  store_sound :
    forall tt pos entry,
      tableSound tt -> legalOrNull pos (bestMove entry) ->
      tableSound (storePositionEntry tt pos entry)
}.

(** From a sound table, a search that returns leaves the table sound and
    returns a result that satisfies [Q]. *)
Definition answers {A} (Q : A -> Prop) (c : Search A) (st : SearchState) : Prop :=
  tableSound (table st) ->
  forall a st', c st = Ok (a, st') -> tableSound (table st') /\ Q a.

(** The recursive call answers with a move of its node. *)
Definition trusty (recurse : bool -> Node -> AlphaBeta -> Search MoveRating) : Prop :=
  forall maximizing node alphaBeta st,
    answers (fun r => legalOrNull (getPos node) (move r))
      (recurse maximizing node alphaBeta) st.

(** What a search leaves of its searcher whatever it does: the role, and
    for the main searcher the random-number generator. *)
Definition mainUntouched (s s' : Searcher) : Prop :=
  m_helper s' = m_helper s /\ (m_helper s = false -> m_urbg s' = m_urbg s).

(** A search that, when it returns, has left the main searcher's generator
    alone. *)
Definition steady {A} (c : Search A) (st : SearchState) : Prop :=
  forall a st', c st = Ok (a, st') -> mainUntouched (self st) (self st').

(** The recursive call leaves the main searcher's generator alone. *)
Definition calm (recurse : bool -> Node -> AlphaBeta -> Search MoveRating) : Prop :=
  forall maximizing node alphaBeta st, steady (recurse maximizing node alphaBeta) st.

End SearchContracts.

(** ** The search thread and the protocol thread together

    The protocol thread calls [setPosition], [go] and [stop] while the search
    thread runs; every command takes the mutex, so it falls between two steps
    of the search thread.  A session is a sequence of such events, for a
    thread that is not being shut down. *)

Module Session.
Section Events.
Context `{Collaborators}.

Inductive Event : Type :=
| Tick                                          (* the search thread takes a step *)
| SetPosition (state : SearchThread.GameState)  (* [setPosition(state)] *)
| Go (d : Z)                                    (* [go(depth)] *)
| Stop.                                         (* [stop()] *)

(** One event; a step of a blocked thread leaves everything as it is. *)
Definition perform (e : Event) (m : SearchThread.Machine) : Checked SearchThread.Machine :=
  match e with
  | Tick =>
      next ← SearchThread.step false m;
      Ok (default m next)
  | SetPosition state => Ok (SearchThread.command (SearchThread.setPosition state) m)
  | Go d => Ok (SearchThread.command (SearchThread.go d) m)
  | Stop => Ok (SearchThread.command SearchThread.stop m)
  end.

Fixpoint performAll (events : list Event) (m : SearchThread.Machine)
  : Checked SearchThread.Machine :=
  match events with
  | [] => Ok m
  | e :: rest =>
      m' ← perform e m;
      performAll rest m'
  end.

Definition isGo (e : Event) : bool :=
  match e with Go _ => true | _ => false end.

(** The number of [go] commands among the events. *)
Definition goCount (events : list Event) : nat := length (List.filter isGo events).

(** The moves the thread still owes an answer for: the committed search that
    is running, and the calculation that is requested. *)
Definition owed (m : SearchThread.Machine) : nat :=
  let requested :=
    if SearchThread.m_calculationRequested (SearchThread.shared m) then 1%nat else 0%nat in
  match SearchThread.control m with
  | SearchThread.Committing _ => S requested
  | _ => requested
  end.

(** The thread stands at the start of a committed search only when a
    calculation is requested. *)
Definition commitIsRequested (m : SearchThread.Machine) : Prop :=
  SearchThread.control m = SearchThread.AtCommit ->
  SearchThread.m_calculationRequested (SearchThread.shared m) = true.

End Events.
End Session.

(** ** The command line: [playUCIWithDepth]

    [argv] is the list of the program's arguments, [argc] its length.  What
    the function does besides printing is to call [playUCI], which is not
    among the sources; [Launch] records which of the two it came to. *)

Module CommandLine.

(** The value of a decimal digit, for [std::from_chars] in base 10. *)
Definition digitOf (c : Ascii.ascii) : option Z :=
  let code := Z.of_nat (Ascii.nat_of_ascii c) in
  if (48 <=? code) && (code <=? 57) then Some (code - 48) else None.

(** The digits [std::from_chars] matches at the start of the string: for an
    unsigned type no sign is accepted, and leading white space is not
    skipped. *)
Fixpoint leadingDigits (s : string) : list Z :=
  match s with
  | EmptyString => []
  | String c rest =>
      match digitOf c with
      | Some d => d :: leadingDigits rest
      | None => []
      end
  end.

Definition valueOf (digits : list Z) : Z :=
  fold_left (fun value d => 10 * value + d) digits 0.

Inductive Errc : Set := NoError | InvalidArgument | ResultOutOfRange.

(** [std::from_chars(first, last, value, 10)] for a [std::uint8_t]: the error
    code, and [value] afterwards (unmodified on an error). *)
Definition from_chars (s : string) (value : Z) : Errc * Z :=
  match leadingDigits s with
  | [] => (InvalidArgument, value)
  | digits =>
      if valueOf digits <=? SafeUnsigned.MAX_VALUE then (NoError, valueOf digits)
      else (ResultOutOfRange, value)
  end.

Inductive Launch : Set :=
| PlayUCI (depth : Z)           (* [playUCI(depth)] is called *)
| Complaint (message : string). (* the line printed before returning *)

Definition playUCIWithDepth (argv : list string) : Launch :=
  if negb (length argv =? 3)%nat then
    Complaint "Error: uci with depth requires 1 argument: [depth]"
  else
    let depth := 0 in
    let depthStr := nth 2 argv EmptyString in
    let '(ec, temp) := from_chars depthStr depth in
    match ec with
    | NoError =>
        let depth := temp in
        if depth <? 1 then Complaint "Error: depth must be at least 1"
        else PlayUCI depth
    | _ => Complaint "Error: could not parse depth argument"
    end.

(** The numeral with the given digits. *)
Definition numeral (digits : list Z) : string :=
  fold_right (fun d s => String (Ascii.ascii_of_nat (Z.to_nat (48 + d))) s) EmptyString digits.

End CommandLine.

(** * Properties *)

(** ** Reasoning about checked computations *)

Lemma Checked_bind_Ok {A B} (c : Checked A) (k : A -> Checked B) (b : B) :
  c ≫= k = Ok b <-> exists a, c = Ok a /\ k a = Ok b.
Proof.
  unfold mbind, Checked_bind. destruct c as [a|f]; split.
  - intros Hk. exists a. split; [reflexivity | exact Hk].
  - intros (a' & Ha & Hk). injection Ha as ->. exact Hk.
  - discriminate.
  - intros (a' & Ha & _). discriminate.
Qed.

Lemma zAssert_Ok (b : bool) (u : unit) : zAssert b = Ok u <-> b = true.
Proof. destruct b, u; simpl; split; congruence. Qed.

Lemma zAssert_true (b : bool) : b = true -> zAssert b = Ok tt.
Proof. intros ->. reflexivity. Qed.

(** Splits a hypothesis [c ≫= k = Ok b] into its two halves, repeatedly. *)
Ltac checked_inv :=
  repeat match goal with
  | Hb : _ ≫= _ = Ok _ |- _ =>
      apply Checked_bind_Ok in Hb; destruct Hb as (? & ? & ?)
  | Hz : zAssert _ = Ok _ |- _ => apply zAssert_Ok in Hz
  | Ho : Ok _ = Ok _ |- _ => injection Ho as ?
  | Hf : Failed _ = Ok _ |- _ => discriminate Hf
  end.

(** Turns boolean comparisons of integers among the hypotheses into the
    propositions [lia] reads. *)
Ltac comparisons :=
  repeat match goal with
  | Hc : (_ && _) = true |- _ => apply andb_true_iff in Hc; destruct Hc
  | Hc : negb _ = true |- _ => apply negb_true_iff in Hc
  | Hc : negb _ = false |- _ => apply negb_false_iff in Hc
  | Hc : (_ <=? _) = true |- _ => apply Z.leb_le in Hc
  | Hc : (_ <=? _) = false |- _ => apply Z.leb_gt in Hc
  | Hc : (_ <? _) = true |- _ => apply Z.ltb_lt in Hc
  | Hc : (_ <? _) = false |- _ => apply Z.ltb_ge in Hc
  | Hc : (_ =? _) = true |- _ => apply Z.eqb_eq in Hc
  | Hc : (_ =? _) = false |- _ => apply Z.eqb_neq in Hc
  end.

(** ** Chess.SafeInt *)

Lemma SafeUnsigned_add_Ok (a b r : Z) :
  SafeUnsigned.add a b = Ok r <-> b <= SafeUnsigned.MAX_VALUE - a /\ r = a + b.
Proof.
  unfold SafeUnsigned.add. split.
  - intros Hadd. checked_inv. comparisons. split; [lia | congruence].
  - intros [Hle ->]. rewrite zAssert_true by lia. reflexivity.
Qed.

Lemma SafeUnsigned_sub_Ok (a b r : Z) :
  SafeUnsigned.sub a b = Ok r <-> b <= a /\ r = a - b.
Proof.
  unfold SafeUnsigned.sub. split.
  - intros Hsub. checked_inv. comparisons. split; [lia | congruence].
  - intros [Hle ->]. rewrite zAssert_true by lia. reflexivity.
Qed.

(** [subToMin] never leaves the interval between the floor and the receiver. *)
Lemma SafeUnsigned_subToMin_bounds (self subbed min r : Z) :
  0 <= subbed ->
  SafeUnsigned.subToMin self subbed min = Ok r -> min <= r <= self.
Proof.
  unfold SafeUnsigned.subToMin. intros Hnat Hsub.
  apply Checked_bind_Ok in Hsub as (u & Hassert & Hrest).
  apply zAssert_Ok in Hassert.
  destruct (self <? subbed) eqn:Hlt.
  - injection Hrest as Hr. comparisons. lia.
  - apply Checked_bind_Ok in Hrest as (diff & Hdiff & Hr).
    apply SafeUnsigned_sub_Ok in Hdiff as [Hle ->]. injection Hr as Hr.
    destruct (self - subbed <? min) eqn:Hmin; comparisons; lia.
Qed.

(** ** Chess.MoveSearch:MovePriority: late-move reduction *)

Section MovePriorityFacts.
Context `{Collaborators}.

(** A double converted to [std::uint8_t] is an eight-bit value. *)
Lemma uint8_of_double_range (f : float) (v : Z) :
  uint8_of_double f = Ok v -> SafeUnsigned.inRange v.
Proof.
  unfold uint8_of_double, SafeUnsigned.inRange.
  destruct (Prim2SF f) as [s| s | |s m e]; try discriminate.
  - intros [= <-]. unfold SafeUnsigned.MAX_VALUE. lia.
  - match goal with
    | |- (if ?c then _ else _) = _ -> _ => destruct c eqn:Hfits; [|discriminate]
    end.
    intros [= <-]. comparisons. lia.
Qed.

Lemma trim_Ok (p : MovePriority) (moveIndex : Z) (p' : MovePriority) :
  trim p moveIndex = Ok p' ->
  exists subbed,
    0 <= subbed <= getDepth p + 1 /\
    p' = mkMovePriority (getMove p) (getExchangeRating p)
           (Z.min (getDepth p) subbed) true.
Proof.
  unfold trim, getDepth, getMove, getExchangeRating. intros Htrim. checked_inv.
  match goal with
  | Hu : uint8_of_double _ = Ok _ |- _ => apply uint8_of_double_range in Hu as [Hu _]
  end.
  match goal with
  | Hs : SafeUnsigned.subToMin _ _ _ = Ok ?s |- _ =>
      apply SafeUnsigned_subToMin_bounds in Hs; [exists s | assumption]
  end.
  match goal with
  | Ha : SafeUnsigned.add (m_recommendedDepth p) 1 = Ok ?v, Hb : _ <= _ <= ?v |- _ =>
      apply SafeUnsigned_add_Ok in Ha as [_ ->]
  end.
  split; [lia | congruence].
Qed.

(** C7.  After [trim] the recommended depth lies between zero and the value
    it had before the call, and a second [trim], at whatever move index,
    cannot increase it.  The depth is a [SafeUnsigned<std::uint8_t>], hence
    the range hypothesis. *)
Theorem trim_within_original_depth (p : MovePriority) (moveIndex : Z) (p' : MovePriority) :
  SafeUnsigned.inRange (getDepth p) ->
  trim p moveIndex = Ok p' ->
  0 <= getDepth p' <= getDepth p /\
  isTrimmed p' = true /\
  forall (again : Z) (p'' : MovePriority),
    trim p' again = Ok p'' -> 0 <= getDepth p'' <= getDepth p'.
Proof.
  intros [Hlo Hhi] Htrim.
  apply trim_Ok in Htrim as (subbed & Hsub & ->).
  unfold getDepth, isTrimmed in *; simpl in *.
  split; [lia | split; [reflexivity |]].
  intros again p'' Hagain.
  apply trim_Ok in Hagain as (subbed' & Hsub' & ->).
  unfold getDepth in *; simpl in *. lia.
Qed.

End MovePriorityFacts.

(** The move at index 3 of a node with eight plies left: one of the seven
    plies of its child is taken away, and trimming again takes away no more
    than that leaves. *)
Lemma trim_within_original_depth_witness :
  let p := mkMovePriority LineGame.advance 0%Q 7 false in
  let p' := mkMovePriority LineGame.advance 0%Q 6 true in
  0 <= getDepth p' <= getDepth p /\
  isTrimmed p' = true /\
  forall (again : Z) (p'' : MovePriority),
    @trim LineGame.undisturbed p' again = Ok p'' -> 0 <= getDepth p'' <= getDepth p'.
Proof.
  intros p p'.
  apply (@trim_within_original_depth LineGame.undisturbed p 3 p').
  - unfold SafeUnsigned.inRange, SafeUnsigned.MAX_VALUE. simpl. lia.
  - vm_compute. reflexivity.
Defined.

(** ** The coordinator: depth assignment *)

Section DepthAssignment.
Context `{Collaborators}.

Lemma truncate_parity (i : nat) :
  SafeUnsigned.truncate (Z.of_nat i) mod 2 = Z.of_nat i mod 2.
Proof.
  unfold SafeUnsigned.truncate.
  apply Z.mod_mod_divide. exists 128. reflexivity.
Qed.

Lemma assignDepth_Ok (maxDepth : Z) (i : nat) (s : Searcher) :
  1 <= maxDepth ->
  assignDepth maxDepth i s = Ok (withDepth s (staggeredDepth maxDepth i (isHelper s))).
Proof.
  intros Hmax. unfold assignDepth, staggeredDepth.
  destruct (isHelper s); simpl; [|reflexivity].
  unfold SafeUnsigned.rem. simpl. rewrite truncate_parity.
  pose proof (Z.mod_pos_bound (Z.of_nat i) 2 ltac:(lia)) as Hparity.
  destruct (maxDepth =? 1) eqn:Hone; simpl.
  - destruct (Z.of_nat i mod 2 =? 0); reflexivity.
  - destruct (Z.of_nat i mod 2 =? 0) eqn:Heven; comparisons.
    + replace (Z.of_nat i mod 2 =? 1) with false by (symmetry; apply Z.eqb_neq; lia).
      unfold SafeUnsigned.sub. rewrite zAssert_true by lia. reflexivity.
    + replace (Z.of_nat i mod 2 =? 1) with true by (symmetry; apply Z.eqb_eq; lia).
      unfold SafeUnsigned.sub. rewrite zAssert_true by lia. simpl.
      do 2 f_equal. lia.
Qed.

Lemma assignDepthsFrom_Ok (maxDepth : Z) (searchers : list Searcher) (first : nat) :
  1 <= maxDepth ->
  assignDepthsFrom maxDepth first searchers
  = Ok (imap (fun k s => withDepth s (staggeredDepth maxDepth (first + k) (isHelper s)))
             searchers).
Proof.
  intros Hmax. revert first.
  induction searchers as [|s rest IH]; intros first; simpl; [reflexivity|].
  rewrite assignDepth_Ok by assumption. simpl.
  rewrite IH. simpl. rewrite Nat.add_0_r. do 2 f_equal.
  apply imap_ext. intros k s' _. simpl. do 3 f_equal. lia.
Qed.

Lemma assignDepths_Ok (maxDepth : Z) (searchers : list Searcher) :
  1 <= maxDepth ->
  assignDepths maxDepth searchers
  = Ok (imap (fun k s => withDepth s (staggeredDepth maxDepth k (isHelper s))) searchers).
Proof.
  intros Hmax. unfold assignDepths. rewrite zAssert_true by lia.
  exact (assignDepthsFrom_Ok maxDepth searchers 0 Hmax).
Qed.

Lemma staggeredDepth_at_least_one (maxDepth : Z) (i : nat) (helper : bool) :
  1 <= maxDepth -> 1 <= staggeredDepth maxDepth i helper <= maxDepth.
Proof.
  intros Hmax. unfold staggeredDepth.
  destruct helper; [|lia].
  destruct (maxDepth =? 1) eqn:Hone; [lia|].
  comparisons. destruct (Z.of_nat i mod 2 =? 1); lia.
Qed.

(** C6.  For [max_depth >= 1] the depth assignment succeeds and changes
    nothing but depths: the main worker gets [max_depth]; the helper at
    index [i] of the worker list gets [max_depth] when [max_depth] is 1, and
    otherwise [max_depth] for odd [i] and [max_depth - 1] for even [i];
    every worker ends with a depth of at least 1. *)
Theorem assignDepths_staggers (maxDepth : Z) (searchers : list Searcher) :
  1 <= maxDepth ->
  exists assigned,
    assignDepths maxDepth searchers = Ok assigned /\
    length assigned = length searchers /\
    forall (i : nat) (s : Searcher),
      searchers !! i = Some s ->
      exists s',
        assigned !! i = Some s' /\
        s' = withDepth s (depth s') /\
        1 <= depth s' /\
        (isHelper s = false -> depth s' = maxDepth) /\
        (isHelper s = true -> maxDepth = 1 -> depth s' = maxDepth) /\
        (isHelper s = true -> maxDepth <> 1 -> Z.of_nat i mod 2 = 1 ->
         depth s' = maxDepth) /\
        (isHelper s = true -> maxDepth <> 1 -> Z.of_nat i mod 2 = 0 ->
         depth s' = maxDepth - 1).
Proof.
  intros Hmax.
  eexists. rewrite assignDepths_Ok by assumption.
  split; [reflexivity|]. split; [apply length_imap|].
  intros i s Hs. eexists. rewrite list_lookup_imap, Hs. simpl.
  split; [reflexivity|]. split; [reflexivity|].
  pose proof (staggeredDepth_at_least_one maxDepth i (isHelper s) Hmax) as Hone.
  cbn [depth withDepth].
  split; [lia|]. unfold staggeredDepth.
  repeat split; intros Hhelper; rewrite Hhelper; try reflexivity.
  - intros ->. reflexivity.
  - intros Hne Hodd. rewrite Hodd.
    destruct (maxDepth =? 1) eqn:Hd; comparisons; [lia | reflexivity].
  - intros Hne Heven. rewrite Heven.
    destruct (maxDepth =? 1) eqn:Hd; comparisons; [lia | reflexivity].
Qed.

End DepthAssignment.

(** Four workers at depth 6: the assignment succeeds, and helper 2 searches
    five plies. *)
Lemma assignDepths_staggers_witness :
  exists assigned s',
    @assignDepths LineGame.undisturbed 6
      (@AsyncSearchState_searchers LineGame.undisturbed 4 (fun _ => tt)) = Ok assigned /\
    length assigned = 4%nat /\
    assigned !! 2%nat = Some s' /\
    @depth LineGame.undisturbed s' = 5.
Proof.
  destruct (@assignDepths_staggers LineGame.undisturbed 6
              (@AsyncSearchState_searchers LineGame.undisturbed 4 (fun _ => tt)))
    as (assigned & Hassigned & Hlength & Hdepths); [lia|].
  destruct (Hdepths 2%nat (@Searcher_new LineGame.undisturbed tt true) eq_refl)
    as (s' & Hs' & _ & _ & _ & _ & _ & Heven).
  exists assigned, s'. split; [exact Hassigned|]. split; [exact Hlength|].
  split; [exact Hs'|]. apply Heven; [reflexivity | discriminate | reflexivity].
Defined.

(** ** The coordinator: the weighted vote *)

Lemma Rating_ltb_lt (a b : Rating) : Rating_ltb a b = true <-> (a < b)%Q.
Proof.
  unfold Rating_ltb. rewrite negb_true_iff. split.
  - intros Hle. apply Qnot_le_lt. intros Hba.
    apply Qle_bool_iff in Hba. congruence.
  - intros Hlt. destruct (Qle_bool b a) eqn:Hle; [|reflexivity].
    apply Qle_bool_iff in Hle. exfalso. exact (Qlt_not_le _ _ Hlt Hle).
Qed.

Lemma Rating_ltb_ge (a b : Rating) : Rating_ltb a b = false <-> (b <= a)%Q.
Proof.
  unfold Rating_ltb. rewrite negb_false_iff. apply Qle_bool_iff.
Qed.

Lemma Rating_leb_le (a b : Rating) : Rating_leb a b = true <-> (a <= b)%Q.
Proof. apply Qle_bool_iff. Qed.

Lemma Rating_eqb_eq (a b : Rating) : Rating_eqb a b = true <-> (a == b)%Q.
Proof. apply Qeq_bool_iff. Qed.

Section VoteFacts.
Context `{Collaborators}.

Lemma anyPathsLeadToCheckmate_false (moves : list MoveRating) :
  anyPathsLeadToCheckmate moves = false <->
  Forall (fun mr => checkmateLevel mr = None) moves.
Proof.
  unfold anyPathsLeadToCheckmate. induction moves as [|mr moves IH]; simpl.
  - split; [constructor | reflexivity].
  - rewrite orb_false_iff, IH, Forall_cons, bool_decide_eq_false.
    rewrite <- eq_None_not_Some. reflexivity.
Qed.

(** On a rating whose checkmate level is unset, the weight function of the
    source and the one without the checkmate branch agree. *)
Lemma getVotingWeight_unset (searcher : Searcher) (mr : MoveRating) (worst diff : Rating) :
  checkmateLevel mr = None ->
  getVotingWeight searcher mr worst diff = getVotingWeightUnset searcher mr worst diff.
Proof.
  intros Hunset. unfold getVotingWeight, getVotingWeightUnset, quietWeight.
  rewrite Hunset. reflexivity.
Qed.

Lemma castVotes_unset (worst diff : Rating) (votes : list (MoveRating * Searcher)) (t : Tally) :
  Forall (fun v => checkmateLevel (fst v) = None) votes ->
  castVotes getVotingWeight worst diff t votes
  = castVotes getVotingWeightUnset worst diff t votes.
Proof.
  intros Hunset. revert t.
  induction Hunset as [|[mr s] votes Hmr _ IH]; intros t; cbn [castVotes]; [reflexivity|].
  replace (castVote getVotingWeight worst diff t mr s)
    with (castVote getVotingWeightUnset worst diff t mr s)
    by (unfold castVote; rewrite (getVotingWeight_unset _ _ _ _ Hmr); reflexivity).
  destruct (castVote getVotingWeightUnset worst diff t mr s) as [t'|f];
    [apply IH | reflexivity].
Qed.

Lemma Forall_zip_fst {A B} (P : A -> Prop) (l : list A) (k : list B) :
  Forall P l -> Forall (fun v => P (fst v)) (zip l k).
Proof.
  intros Hl. revert k. induction Hl as [|x l Hx _ IH]; intros [|y k]; simpl;
    constructor; [exact Hx | apply IH].
Qed.

(** [std::ranges::min_element] returns an element of the range with the
    least key. *)
Lemma minElement_least {A} (key : A -> Z) (l : list A) (best : A) :
  (minElement key best l = best \/ In (minElement key best l) l) /\
  key (minElement key best l) <= key best /\
  forall x, In x l -> key (minElement key best l) <= key x.
Proof.
  revert best. induction l as [|x l IH]; intros best; simpl.
  - split; [left; reflexivity | split; [lia | intros x []]].
  - destruct (IH (if key x <? key best then x else best)) as (Hin & Hle & Hall).
    destruct (key x <? key best) eqn:Hlt; comparisons.
    + split; [destruct Hin as [-> | Hin]; auto|].
      split; [lia|]. intros y [<- | Hy]; [exact Hle | auto].
    + split; [destruct Hin as [-> | Hin]; auto|].
      split; [lia|]. intros y [<- | Hy]; [lia | auto].
Qed.

(** C10.  [voteForBestMove] never asks for the voting weight of a rating
    whose checkmate level is set: whatever the searchers and the ratings,
    the vote is the one taken with a weight function that fails on a set
    level, so the quotient by the checkmate level is not computed and no
    division by zero can come out of the vote.  A list with a set level
    returns at once with the move of the first rating whose level (255 when
    unset) is least; the ratings that reach the weighted loop all have the
    level unset. *)
Theorem voting_weight_only_without_checkmate
    (searchers : list Searcher) (moves : list MoveRating) :
  voteForBestMove searchers moves = voteWith getVotingWeightUnset searchers moves /\
  voteForBestMove searchers moves <> Failed DivisionByZero /\
  (anyPathsLeadToCheckmate moves = true ->
   exists quickest,
     In quickest moves /\
     (forall mr, In mr moves -> checkmateKey quickest <= checkmateKey mr) /\
     voteForBestMove searchers moves = Ok (move quickest)) /\
  (anyPathsLeadToCheckmate moves = false ->
   Forall (fun vote => checkmateLevel (fst vote) = None) (zip moves searchers)).
Proof.
  assert (Hsame : voteForBestMove searchers moves
                  = voteWith getVotingWeightUnset searchers moves).
  { unfold voteForBestMove, voteWith.
    destruct (anyPathsLeadToCheckmate moves) eqn:Hany; [reflexivity|].
    destruct moves as [|first others]; [reflexivity|].
    destruct (minmaxRating (rating first) (rating first) others) as [worst best].
    rewrite castVotes_unset; [reflexivity|].
    apply (Forall_zip_fst (fun mr => checkmateLevel mr = None)),
      anyPathsLeadToCheckmate_false, Hany. }
  split; [exact Hsame|]. split; [|split].
  - rewrite Hsame. unfold voteWith.
    destruct (anyPathsLeadToCheckmate moves); destruct moves as [|first others];
      try discriminate.
    destruct (minmaxRating (rating first) (rating first) others) as [worst best].
    generalize Tally_initial.
    induction (zip (first :: others) searchers) as [|[mr s] votes IH]; intros t;
      cbn [castVotes]; [discriminate|].
    unfold castVote, getVotingWeightUnset, zAssert.
    destruct (Rating_leb 0%Q (best - worst)%Q); [|discriminate].
    destruct (checkmateLevel mr); [discriminate | apply IH].
  - intros Hany. unfold voteForBestMove, voteWith. rewrite Hany.
    destruct moves as [|first others]; [discriminate|].
    destruct (minElement_least checkmateKey others first) as (Hin & Hle & Hall).
    exists (minElement checkmateKey first others).
    split; [simpl; destruct Hin as [-> | Hin]; auto|].
    split; [|reflexivity].
    intros mr [<- | Hmr]; [exact Hle | exact (Hall mr Hmr)].
  - intros Hany. apply (Forall_zip_fst (fun mr => checkmateLevel mr = None)),
      anyPathsLeadToCheckmate_false, Hany.
Qed.

End VoteFacts.

Section TallyFacts.
Context `{Collaborators}.
#[local] Open Scope Q_scope.

Lemma votesFor_countBallot (t : Tally) (voted : Move) (weight : Rating) (m : Move) :
  votesFor (countBallot t (voted, weight)) m
  = if bool_decide (voted = m) then votesFor t voted + weight else votesFor t m.
Proof.
  unfold countBallot, votesFor. simpl.
  destruct (Rating_ltb _ _); simpl;
    (case_bool_decide as Heq;
     [subst m; rewrite lookup_insert_eq | rewrite lookup_insert_ne by assumption];
     reflexivity).
Qed.

Lemma accumulatedWeight_app (cast more : list (Move * Rating)) (m : Move) :
  (accumulatedWeight (cast ++ more) m
   == accumulatedWeight cast m + accumulatedWeight more m).
Proof.
  induction cast as [|[voted weight] cast IH]; simpl.
  - lra.
  - rewrite IH. lra.
Qed.

Lemma accumulatedWeight_nonneg (cast : list (Move * Rating)) (m : Move) :
  Forall (fun ballot => (0 <= snd ballot)) cast ->
  (0 <= accumulatedWeight cast m).
Proof.
  induction 1 as [|[voted weight] cast Hweight _ IH]; simpl in *.
  - lra.
  - case_bool_decide; lra.
Qed.

Lemma Counted_initial : Counted [] Tally_initial.
Proof.
  split; simpl.
  - intros m. unfold votesFor. simpl. rewrite lookup_empty. simpl. lra.
  - intros m. lra.
  - lra.
  - intros Hpos. lra.
Qed.

Lemma Counted_step (cast : list (Move * Rating)) (t : Tally) (voted : Move) (weight : Rating) :
  Forall (fun ballot => (0 <= snd ballot)) cast ->
  (0 <= weight) ->
  Counted cast t ->
  Counted (cast ++ [(voted, weight)]) (countBallot t (voted, weight)).
Proof.
  intros Hcast Hweight [Hvotes Hbound Hbest Hfirst].
  assert (Hsum : forall m,
             (accumulatedWeight (cast ++ [(voted, weight)]) m
              == accumulatedWeight cast m + (if bool_decide (voted = m) then weight else 0))).
  { intros m. rewrite accumulatedWeight_app. simpl. lra. }
  assert (Hall : forall m,
             (votesFor (countBallot t (voted, weight)) m
              == accumulatedWeight (cast ++ [(voted, weight)]) m)).
  { intros m. rewrite votesFor_countBallot, Hsum.
    case_bool_decide as Heq.
    - subst m. rewrite Hvotes. lra.
    - rewrite Hvotes. lra. }
  pose proof (Hvotes voted) as Hvoted.
  pose proof (Hsum voted) as Hsumv. rewrite bool_decide_eq_true_2 in Hsumv by reflexivity.
  unfold countBallot. simpl fst. simpl snd.
  destruct (Rating_ltb (bestVoteRating t) (votesFor t voted + weight)) eqn:Hlt.
  - apply Rating_ltb_lt in Hlt.
    split; simpl.
    + intros m. specialize (Hall m). unfold countBallot in Hall. simpl in Hall.
      apply Rating_ltb_lt in Hlt. rewrite Hlt in Hall. exact Hall.
    + intros m. rewrite Hsum. specialize (Hbound m).
      case_bool_decide as Heq; [subst m|]; lra.
    + lra.
    + intros _. exists (S (length cast)). rewrite length_app. simpl.
      split; [lia|]. rewrite take_ge by (rewrite length_app; simpl; lia).
      split; [lra|].
      intros m Hm. rewrite Hsum. rewrite bool_decide_eq_false_2 by congruence.
      specialize (Hbound m). lra.
  - pose proof Hlt as Hge. apply Rating_ltb_ge in Hge.
    split; simpl.
    + intros m. specialize (Hall m). unfold countBallot in Hall. simpl in Hall.
      rewrite Hlt in Hall. exact Hall.
    + intros m. rewrite Hsum. specialize (Hbound m).
      case_bool_decide as Heq; [subst m|]; lra.
    + rewrite Hsum. case_bool_decide; lra.
    + intros Hpos. destruct (Hfirst Hpos) as (n & Hn & Hreach & Hothers).
      exists n. rewrite length_app. split; [lia|].
      rewrite take_app_le by assumption. split; assumption.
Qed.

Lemma Counted_all (more cast : list (Move * Rating)) (t : Tally) :
  Forall (fun ballot => (0 <= snd ballot)) cast ->
  Forall (fun ballot => (0 <= snd ballot)) more ->
  Counted cast t ->
  Counted (cast ++ more) (fold_left countBallot more t).
Proof.
  revert cast t. induction more as [|[voted weight] more IH]; intros cast t Hcast Hmore Hcounted.
  - rewrite app_nil_r. exact Hcounted.
  - apply Forall_cons in Hmore as [Hweight Hmore]. simpl in Hweight.
    replace (cast ++ (voted, weight) :: more) with ((cast ++ [(voted, weight)]) ++ more)
      by (rewrite <- app_assoc; reflexivity).
    simpl. apply IH.
    + apply Forall_app. split; [assumption|]. constructor; [assumption | constructor].
    + assumption.
    + apply Counted_step; assumption.
Qed.

End TallyFacts.

Section WeightedVoteFacts.
Context `{Collaborators}.
#[local] Open Scope Q_scope.

(** [std::ranges::minmax_element]: the two ratings bracket every rating of
    the range, and the larger one is the rating of one of its elements. *)
Lemma minmaxRating_brackets (l : list MoveRating) (worst0 best0 worst best : Rating) :
  minmaxRating worst0 best0 l = (worst, best) ->
  worst0 <= best0 ->
  worst <= worst0 /\ best0 <= best /\
  Forall (fun mr => worst <= rating mr <= best) l /\
  (best = best0 \/ exists mr, In mr l /\ rating mr = best).
Proof.
  revert worst0 best0. induction l as [|mr l IH]; intros worst0 best0 Hmm Hle; simpl in Hmm.
  - injection Hmm as <- <-. repeat split; [lra | lra | constructor | left; reflexivity].
  - destruct (Rating_ltb (rating mr) worst0) eqn:Hw; destruct (Rating_ltb (rating mr) best0) eqn:Hb;
      [apply Rating_ltb_lt in Hw | apply Rating_ltb_lt in Hw
      | apply Rating_ltb_ge in Hw | apply Rating_ltb_ge in Hw];
      [apply Rating_ltb_lt in Hb | apply Rating_ltb_ge in Hb
      | apply Rating_ltb_lt in Hb | apply Rating_ltb_ge in Hb];
      apply IH in Hmm as (Hworst & Hbest & Hall & Hattained); try lra;
      (repeat split;
       [ lra | lra
       | constructor; [lra | exact Hall]
       | destruct Hattained as [-> | (mr' & Hin & Hmr')];
         [ first [left; reflexivity | right; exists mr; split; [left; reflexivity | reflexivity]]
         | right; exists mr'; split; [right; exact Hin | exact Hmr'] ] ]).
Qed.

Lemma searcher_base_weight_positive (searcher : Searcher) :
  0 < 1 + inject_Z (2 ^ depth searcher).
Proof.
  assert (Hpow : (0 <= 2 ^ depth searcher)%Z) by (apply Z.pow_nonneg; lia).
  rewrite Zle_Qle in Hpow. change (inject_Z 0) with 0 in Hpow. lra.
Qed.

Lemma quietWeight_nonneg (searcher : Searcher) (mr : MoveRating) (worst diff : Rating) :
  worst <= rating mr -> 0 <= diff ->
  0 <= quietWeight searcher mr worst diff.
Proof.
  intros Hworst Hdiff. unfold quietWeight.
  pose proof (searcher_base_weight_positive searcher) as Hbase.
  destruct (Rating_eqb diff 0) eqn:Hzero; simpl; [lra|].
  assert (Hpos : 0 < diff).
  { apply Qle_lt_or_eq in Hdiff as [Hlt | Heq]; [exact Hlt|].
    symmetry in Heq. apply Rating_eqb_eq in Heq. congruence. }
  apply Qmult_le_0_compat; [lra|].
  apply Qle_shift_div_l; [exact Hpos|]. unfold SCORE_BOOST. lra.
Qed.

Lemma quietWeight_of_best_positive (searcher : Searcher) (mr : MoveRating)
    (worst best : Rating) :
  worst <= best -> rating mr = best ->
  0 < quietWeight searcher mr worst (best - worst).
Proof.
  intros Hle Hbest. unfold quietWeight.
  pose proof (searcher_base_weight_positive searcher) as Hbase.
  destruct (Rating_eqb (best - worst) 0) eqn:Hzero; simpl; [lra|].
  assert (Hpos : 0 < best - worst).
  { assert (Hnn : 0 <= best - worst) by lra.
    apply Qle_lt_or_eq in Hnn as [Hlt | Heq]; [exact Hlt|].
    symmetry in Heq. apply Rating_eqb_eq in Heq. congruence. }
  apply Qmult_lt_0_compat; [lra|].
  apply Qlt_shift_div_l; [exact Hpos|]. rewrite Hbest. unfold SCORE_BOOST. lra.
Qed.

(** Without a checkmate level in the list, the vote is the loop run on the
    ballots. *)
Lemma castVotes_ballots (worst diff : Rating) (votes : list (MoveRating * Searcher))
    (t : Tally) :
  0 <= diff ->
  Forall (fun v => checkmateLevel (fst v) = None) votes ->
  castVotes getVotingWeight worst diff t votes
  = Ok (fold_left countBallot
          (map (fun '(mr, s) => (move mr, quietWeight s mr worst diff)) votes) t).
Proof.
  intros Hdiff Hunset. revert t.
  induction Hunset as [|[mr s] votes Hmr _ IH]; intros t; cbn [castVotes map fold_left];
    [reflexivity|].
  assert (Hvote : castVote getVotingWeight worst diff t mr s
                  = Ok (countBallot t (move mr, quietWeight s mr worst diff))).
  { simpl in Hmr. unfold castVote. rewrite (getVotingWeight_unset _ _ _ _ Hmr).
    unfold getVotingWeightUnset. rewrite Hmr.
    rewrite zAssert_true by (apply Rating_leb_le; exact Hdiff). reflexivity. }
  rewrite Hvote. apply IH.
Qed.

Lemma voteForBestMove_ballots (searchers : list Searcher) (moves : list MoveRating)
    (winner : Move) :
  anyPathsLeadToCheckmate moves = false ->
  voteForBestMove searchers moves = Ok winner ->
  winner = bestMoveSoFar (fold_left countBallot (ballots searchers moves) Tally_initial) /\
  Forall (fun ballot => 0 <= snd ballot) (ballots searchers moves).
Proof.
  intros Hany. unfold voteForBestMove, voteWith, ballots. rewrite Hany.
  destruct moves as [|first others]; [discriminate|].
  destruct (minmaxRating (rating first) (rating first) others) as [worst best] eqn:Hmm.
  apply minmaxRating_brackets in Hmm as (Hworst & Hbest & Hall & _); [|lra].
  rewrite castVotes_ballots;
    [| lra
     | apply (Forall_zip_fst (fun mr => checkmateLevel mr = None)),
         anyPathsLeadToCheckmate_false, Hany].
  intros [= <-]. split; [reflexivity|].
  apply Forall_map.
  assert (Hmoves : Forall (fun mr => worst <= rating mr) (first :: others)).
  { constructor; [lra|]. eapply Forall_impl; [exact Hall|]. simpl. intros mr Hmr. lra. }
  apply (Forall_zip_fst (fun mr => worst <= rating mr) _ searchers) in Hmoves.
  eapply Forall_impl; [exact Hmoves|].
  intros [mr s] Hmr. simpl in *. apply quietWeight_nonneg; [exact Hmr | lra].
Qed.

Lemma accumulatedWeight_In (cast : list (Move * Rating)) (m : Move) (weight : Rating) :
  Forall (fun ballot => 0 <= snd ballot) cast ->
  In (m, weight) cast ->
  weight <= accumulatedWeight cast m.
Proof.
  induction 1 as [|[voted w] cast Hw Hcast IH]; intros Hin; simpl in *; [contradiction|].
  pose proof (accumulatedWeight_nonneg cast m Hcast) as Hrest.
  destruct Hin as [[= -> ->] | Hin].
  - rewrite bool_decide_eq_true_2 by reflexivity. lra.
  - specialize (IH Hin). case_bool_decide; lra.
Qed.

Lemma In_zip_fst {A B} (x : A) (l : list A) (k : list B) :
  (length l <= length k)%nat -> In x l -> exists y, In (x, y) (zip l k).
Proof.
  revert k. induction l as [|a l IH]; intros [|b k] Hlen Hin; simpl in *;
    try contradiction; try lia.
  destruct Hin as [-> | Hin].
  - exists b. left. reflexivity.
  - destruct (IH k ltac:(lia) Hin) as (y & Hy). exists y. right. exact Hy.
Qed.

(** With a searcher for every rating, some ballot carries a positive weight. *)
Lemma ballots_some_positive (searchers : list Searcher) (moves : list MoveRating) :
  moves <> [] ->
  (length moves <= length searchers)%nat ->
  exists m weight, In (m, weight) (ballots searchers moves) /\ 0 < weight.
Proof.
  intros Hne Hlen. unfold ballots.
  destruct moves as [|first others]; [congruence|].
  destruct (minmaxRating (rating first) (rating first) others) as [worst best] eqn:Hmm.
  apply minmaxRating_brackets in Hmm as (Hworst & Hbest & _ & Hattained); [|lra].
  assert (Hmr : exists mr, In mr (first :: others) /\ rating mr = best).
  { destruct Hattained as [-> | (mr & Hin & Hmr)].
    - exists first. split; [left; reflexivity | reflexivity].
    - exists mr. split; [right; exact Hin | exact Hmr]. }
  destruct Hmr as (mr & Hin & Hmr).
  destruct (In_zip_fst mr (first :: others) searchers Hlen Hin) as (s & Hs).
  exists (move mr), (quietWeight s mr worst (best - worst)). split.
  - apply in_map_iff. exists (mr, s). split; [reflexivity | exact Hs].
  - apply quietWeight_of_best_positive; [lra | exact Hmr].
Qed.

(** C3, as amended.  In the weighted vote (no checkmate level in the list)
    the weights are summed per move over the workers in enumeration order,
    and the move returned has the greatest accumulated weight.  It is the
    first move whose running total reaches that weight: at some point of the
    enumeration its running total has reached the greatest accumulated
    weight while the running total of every other move is still below it.
    Any other move that ends with the same accumulated weight got there
    later, whether or not it was seen earlier. *)
Theorem vote_returns_first_to_reach_greatest_weight
    (searchers : list Searcher) (moves : list MoveRating) (winner : Move) :
  anyPathsLeadToCheckmate moves = false ->
  (length moves <= length searchers)%nat ->
  voteForBestMove searchers moves = Ok winner ->
  let cast := ballots searchers moves in
  let greatest := accumulatedWeight cast winner in
  (forall m, accumulatedWeight cast m <= greatest) /\
  0 < greatest /\
  exists n : nat,
    (n <= length cast)%nat /\
    greatest <= accumulatedWeight (take n cast) winner /\
    forall m, m <> winner -> accumulatedWeight (take n cast) m < greatest.
Proof.
  intros Hany Hlen Hvote cast greatest.
  assert (Hne : moves <> []).
  { intros ->. unfold voteForBestMove, voteWith in Hvote. simpl in Hvote. discriminate. }
  apply voteForBestMove_ballots in Hvote as [Hwinner Hnonneg]; [|exact Hany].
  fold cast in Hwinner, Hnonneg.
  pose proof (Counted_all cast [] Tally_initial (Forall_nil_2 _) Hnonneg Counted_initial)
    as [Hvotes Hbound Hbest Hfirst].
  simpl in Hvotes, Hbound, Hbest, Hfirst. rewrite <- Hwinner in Hbest, Hfirst.
  set (t := fold_left countBallot cast Tally_initial) in *.
  assert (Hgreatest : greatest == bestVoteRating t).
  { unfold greatest. pose proof (Hbound winner). lra. }
  assert (Hpos : 0 < bestVoteRating t).
  { destruct (ballots_some_positive searchers moves Hne Hlen) as (m & weight & Hin & Hweight).
    fold cast in Hin.
    pose proof (accumulatedWeight_In cast m weight Hnonneg Hin).
    pose proof (Hbound m). lra. }
  split; [intros m; rewrite Hgreatest; apply Hbound|].
  split; [lra|].
  destruct (Hfirst Hpos) as (n & Hn & Hreach & Hothers).
  exists n. split; [exact Hn|]. split; [lra|].
  intros m Hm. rewrite Hgreatest. apply Hothers. exact Hm.
Qed.

End WeightedVoteFacts.

(** The amended statement on the split vote of four one-ply workers:
    [sidestep] is returned, and after the third ballot it alone has reached
    the greatest accumulated weight. *)
Lemma vote_returns_first_to_reach_greatest_weight_witness :
  let cast := @ballots LineGame.undisturbed LineGame.onePlyWorkers LineGame.splitVote in
  let greatest := accumulatedWeight cast LineGame.sidestep in
  (forall m, accumulatedWeight cast m <= greatest)%Q /\
  (0 < greatest)%Q /\
  exists n : nat,
    (n <= length cast)%nat /\
    (greatest <= accumulatedWeight (take n cast) LineGame.sidestep)%Q /\
    forall m, m <> LineGame.sidestep -> (accumulatedWeight (take n cast) m < greatest)%Q.
Proof.
  apply (@vote_returns_first_to_reach_greatest_weight LineGame.undisturbed
           LineGame.onePlyWorkers LineGame.splitVote LineGame.sidestep).
  - vm_compute. reflexivity.
  - simpl. lia.
  - vm_compute. reflexivity.
Defined.

(** C3, the claim as stated fails.  Four workers at depth 1 report, in
    enumeration order, [advance], [sidestep], [sidestep], [advance] with
    equal ratings, so every ballot weighs 3.  Both moves end with the
    greatest accumulated weight, 6; [advance] is the move seen first; the
    vote returns [sidestep]. *)
Lemma vote_tie_not_broken_by_first_seen :
  let searchers := LineGame.onePlyWorkers in
  let moves := LineGame.splitVote in
  let cast := @ballots LineGame.undisturbed searchers moves in
  anyPathsLeadToCheckmate moves = false /\
  hasNullMove moves = false /\
  @assignDepths LineGame.undisturbed 1
     (@AsyncSearchState_searchers LineGame.undisturbed 4 (fun _ => tt)) = Ok searchers /\
  (forall m, accumulatedWeight cast m <= accumulatedWeight cast LineGame.advance)%Q /\
  (accumulatedWeight cast LineGame.sidestep == accumulatedWeight cast LineGame.advance)%Q /\
  findIndex (fun mr => Move_eqb (move mr) LineGame.advance) moves = Some 0%nat /\
  findIndex (fun mr => Move_eqb (move mr) LineGame.sidestep) moves = Some 1%nat /\
  @voteForBestMove LineGame.undisturbed searchers moves = Ok LineGame.sidestep.
Proof.
  cbv zeta.
  split; [reflexivity|]. split; [reflexivity|]. split; [reflexivity|].
  split; [|split; [reflexivity|]; split; [reflexivity|]; split;
              [reflexivity | vm_compute; reflexivity]].
  intros m. vm_compute ballots. cbn [accumulatedWeight].
  rewrite (bool_decide_eq_true_2 (LineGame.advance = LineGame.advance)) by reflexivity.
  rewrite (bool_decide_eq_false_2 (LineGame.sidestep = LineGame.advance)) by discriminate.
  do 2 case_bool_decide; try congruence; lra.
Qed.

(** ** The searcher *)

Section SearchFacts.
Context `{Collaborators}.

Lemma Search_bind_Ok {A B} (c : Search A) (k : A -> Search B) (st st' : SearchState) (b : B) :
  (c ≫= k) st = Ok (b, st') <->
  exists a st1, c st = Ok (a, st1) /\ k a st1 = Ok (b, st').
Proof.
  unfold mbind, Search_bind. destruct (c st) as [[a st1]|f]; split.
  - intros Hk. exists a, st1. split; [reflexivity | exact Hk].
  - intros (a' & st1' & [= -> ->] & Hk). exact Hk.
  - discriminate.
  - intros (a' & st1' & Hc & _). discriminate.
Qed.

Lemma Search_bind_step {A B} (c : Search A) (k : A -> Search B) (st st1 : SearchState) (a : A) :
  c st = Ok (a, st1) -> (c ≫= k) st = k a st1.
Proof. intros Hc. unfold mbind, Search_bind. rewrite Hc. reflexivity. Qed.

(** The body of [tryShortCircuit], with the tail named. *)
Lemma tryShortCircuit_unfold (fuel : nat) (maximizing : bool) (node : Node)
    (alphaBeta : AlphaBeta) :
  tryShortCircuit fuel maximizing node alphaBeta
  = if bool_decide (legalMoves (getPos node) = []) then
      yield (terminalResult maximizing node)
    else if 3 <=? getPositionCount (getRepetitionMap node) (getPos node) then
      yield (mkMoveRating Move_null 0%Q true None)
    else
      stop ← loadStopRequested;
      if (stop : bool) then yield (mkMoveRating Move_null (getRating node) false None)
      else
        verdict ← consultTable node alphaBeta;
        match verdict with
        | Cutoff r => yield r
        | Proceed pvMove alphaBeta' =>
            continueSearch fuel maximizing node pvMove alphaBeta'
        end.
Proof. destruct fuel; reflexivity. Qed.

(** The table consultation when it is reached by a searcher that may use
    the entry and no stop is seen. *)
Lemma consultTable_lookup (node : Node) (alphaBeta : AlphaBeta) (st : SearchState) :
  (m_helper (self st) && (getLevel node =? 0)) = false ->
  stopRequested (loads st) = false ->
  consultTable node alphaBeta st
  = Ok (match getPositionEntry (table st) (getPos node) (getRemainingDepth node) with
        | Some entry => consultEntry node entry alphaBeta
        | None => Proceed Move_null alphaBeta
        end, afterLoads 1 st).
Proof.
  intros Hcan Hstop. unfold consultTable, helperFlag, loadStopRequested, lookupEntry.
  unfold mbind, Search_bind. simpl. rewrite Hcan, Hstop. simpl.
  destruct (getPositionEntry _ _ _); reflexivity.
Qed.

(** A helper's root, or a stop seen by the second load: the table is not
    looked at. *)
Lemma consultTable_skipped (node : Node) (alphaBeta : AlphaBeta) (st : SearchState) :
  (m_helper (self st) && (getLevel node =? 0)) = true \/ stopRequested (loads st) = true ->
  consultTable node alphaBeta st = Ok (Proceed Move_null alphaBeta, afterLoads 1 st).
Proof.
  intros Hskip. unfold consultTable, helperFlag, loadStopRequested, lookupEntry.
  unfold mbind, Search_bind. simpl.
  destruct Hskip as [-> | ->]; simpl; [rewrite andb_false_r|]; reflexivity.
Qed.

(** [tryShortCircuit] on a node that passes the three early returns. *)
Lemma tryShortCircuit_reaches_table (fuel : nat) (maximizing : bool) (node : Node)
    (alphaBeta : AlphaBeta) (st : SearchState) :
  legalMoves (getPos node) <> [] ->
  getPositionCount (getRepetitionMap node) (getPos node) < 3 ->
  stopRequested (loads st) = false ->
  tryShortCircuit fuel maximizing node alphaBeta st
  = (verdict ← consultTable node alphaBeta;
     match verdict with
     | Cutoff r => yield r
     | Proceed pvMove alphaBeta' => continueSearch fuel maximizing node pvMove alphaBeta'
     end) (afterLoads 1 st).
Proof.
  intros Hmoves Hcount Hstop. rewrite tryShortCircuit_unfold.
  rewrite bool_decide_eq_false_2 by assumption.
  replace (3 <=? _) with false by (symmetry; apply Z.leb_gt; assumption).
  unfold mbind at 1, Search_bind at 1, loadStopRequested. rewrite Hstop. reflexivity.
Qed.

End SearchFacts.

Section TableConsultation.
Context `{Collaborators}.

(** [wouldMakeRepetition] counts the occurrences of the child position and
    adds the one the move would make: it answers yes from two on. *)
Lemma wouldMakeRepetition_count (pos : Position) (pvMove : Move)
    (repetitionMap : RepetitionMap) :
  wouldMakeRepetition pos pvMove repetitionMap = true
  <-> 2 <= getPositionCount repetitionMap (applyMove pos pvMove) + 1.
Proof. unfold wouldMakeRepetition. apply Z.leb_le. Qed.

(** C2.  Where [tryShortCircuit] looks an entry up for a node (the node has
    legal moves, its own repetition count is below 3, neither load of the
    stop flag sees a request, and it is not a helper's root) and finds one,
    the entry's best move is the PV move of everything that follows,
    whatever the entry's depth.  The entry ends the call or changes the
    window only if its depth is at least the remaining depth of the node and
    its best move does not bring the count of the child position, the
    occurrences in the node's repetition map and the one the move makes, to
    2 or more; then [InWindow] returns the entry, [LowerBound] returns it
    when its rating is at least beta and otherwise raises alpha to it,
    [UpperBound] returns it when its rating is at most alpha and otherwise
    lowers beta to it. *)
Theorem table_entry_is_hint_and_gated_cutoff
    (fuel : nat) (maximizing : bool) (node : Node) (alphaBeta : AlphaBeta)
    (st : SearchState) (entry : PositionEntry) :
  legalMoves (getPos node) <> [] ->
  getPositionCount (getRepetitionMap node) (getPos node) < 3 ->
  stopRequested (loads st) = false ->
  stopRequested (S (loads st)) = false ->
  (m_helper (self st) && (getLevel node =? 0)) = false ->
  getPositionEntry (table st) (getPos node) (getRemainingDepth node) = Some entry ->
  let child := applyMove (getPos node) (bestMove entry) in
  let childCount := getPositionCount (getRepetitionMap node) child + 1 in
  let result := tryShortCircuit fuel maximizing node alphaBeta st in
  let returned :=
    Ok (mkMoveRating (bestMove entry) (entryRating entry) false None, afterLoads 2 st) in
  let goesOn window :=
    continueSearch fuel maximizing node (bestMove entry) window (afterLoads 2 st) in
  (2 <= childCount \/ entryDepth entry < getRemainingDepth node ->
   result = goesOn alphaBeta) /\
  (childCount < 2 -> getRemainingDepth node <= entryDepth entry ->
   (bound entry = InWindow -> result = returned) /\
   (bound entry = LowerBound ->
    ((getBeta alphaBeta <= entryRating entry)%Q -> result = returned) /\
    ((entryRating entry < getBeta alphaBeta)%Q ->
     result = goesOn (mkAlphaBeta (Rating_max (entryRating entry) (getAlpha alphaBeta))
                        (getBeta alphaBeta)))) /\
   (bound entry = UpperBound ->
    ((entryRating entry <= getAlpha alphaBeta)%Q -> result = returned) /\
    ((getAlpha alphaBeta < entryRating entry)%Q ->
     result = goesOn (mkAlphaBeta (getAlpha alphaBeta)
                        (Rating_min (entryRating entry) (getBeta alphaBeta)))))).
Proof.
  intros Hmoves Hcount Hstop1 Hstop2 Hcan Hentry child childCount result returned goesOn.
  assert (Hresult :
            result = match consultEntry node entry alphaBeta with
                     | Cutoff r => Ok (r, afterLoads 2 st)
                     | Proceed pvMove window =>
                         continueSearch fuel maximizing node pvMove window (afterLoads 2 st)
                     end).
  { unfold result. rewrite tryShortCircuit_reaches_table by assumption.
    erewrite Search_bind_step
      by (apply consultTable_lookup; [exact Hcan | exact Hstop2]).
    simpl table. simpl getPositionEntry. cbn [afterLoads table self loads] in *.
    rewrite Hentry. destruct (consultEntry node entry alphaBeta); reflexivity. }
  rewrite Hresult. unfold consultEntry.
  assert (Hno : forall a b : Rating, (a < b)%Q -> Rating_leb b a = false).
  { intros a b Hlt. apply not_true_is_false. intros Hle.
    apply (proj1 (Rating_leb_le _ _)) in Hle. exact (Qlt_not_le _ _ Hlt Hle). }
  pose proof (wouldMakeRepetition_count (getPos node) (bestMove entry) (getRepetitionMap node))
    as Hrepeats.
  fold child in Hrepeats. fold childCount in Hrepeats.
  split.
  - intros [Hseen | Hshallow].
    + rewrite (proj2 Hrepeats Hseen). reflexivity.
    + replace (getRemainingDepth node <=? entryDepth entry) with false
        by (symmetry; apply Z.leb_gt; exact Hshallow).
      rewrite andb_false_r. reflexivity.
  - intros Hfresh Hdeep.
    replace (wouldMakeRepetition (getPos node) (bestMove entry) (getRepetitionMap node))
      with false.
    2: { symmetry. apply not_true_is_false. intros Hyes. apply Hrepeats in Hyes. lia. }
    replace (getRemainingDepth node <=? entryDepth entry) with true
      by (symmetry; apply Z.leb_le; exact Hdeep).
    cbn [negb andb].
    split; [|split].
    + intros ->. reflexivity.
    + intros ->. split.
      * intros Hge. apply (proj2 (Rating_leb_le _ _)) in Hge. rewrite Hge. reflexivity.
      * intros Hlt. rewrite (Hno _ _ Hlt). reflexivity.
    + intros ->. split.
      * intros Hle. apply (proj2 (Rating_leb_le _ _)) in Hle. rewrite Hle. reflexivity.
      * intros Hgt. rewrite (Hno _ _ Hgt). reflexivity.
Qed.

End TableConsultation.

(** The main worker at the root of a two-ply search of position 0, with an
    exact five-ply entry for it in the table.  When position 1, where the
    entry's move leads, has not occurred, the entry is returned.  When it
    has occurred once, the entry gives the PV move and nothing else: the
    root goes on to search its children and returns their rating, not the
    entry's. *)
Lemma table_entry_is_hint_and_gated_cutoff_witness :
  let st := LineGame.mainWorker {[ 0%nat := LineGame.cachedEntry ]} 2 in
  let window := @AlphaBeta_initial LineGame.undisturbed in
  let seenOnce := @Node_root LineGame.undisturbed 0%nat 2 [1%nat] in
  @tryShortCircuit LineGame.undisturbed 2 true LineGame.rootOfTwoPlies window st
  = Ok (mkMoveRating LineGame.advance 7%Q false None,
        @afterLoads LineGame.undisturbed 2 st) /\
  @tryShortCircuit LineGame.undisturbed 2 true seenOnce window st
  = @continueSearch LineGame.undisturbed 2 true seenOnce LineGame.advance window
      (@afterLoads LineGame.undisturbed 2 st) /\
  exists st',
    @tryShortCircuit LineGame.undisturbed 2 true seenOnce window st
    = Ok (mkMoveRating LineGame.advance 0%Q false None, st').
Proof.
  intros st window seenOnce. split; [|split].
  - refine (proj1 (proj2
      (@table_entry_is_hint_and_gated_cutoff LineGame.undisturbed 2 true
         LineGame.rootOfTwoPlies window st LineGame.cachedEntry _ _ _ _ _ _) _ _) _).
    + discriminate.
    + simpl. lia.
    + reflexivity.
    + reflexivity.
    + reflexivity.
    + reflexivity.
    + simpl. lia.
    + simpl. lia.
    + reflexivity.
  - refine (proj1
      (@table_entry_is_hint_and_gated_cutoff LineGame.undisturbed 2 true
         seenOnce window st LineGame.cachedEntry _ _ _ _ _ _) _).
    + discriminate.
    + simpl. lia.
    + reflexivity.
    + reflexivity.
    + reflexivity.
    + reflexivity.
    + left. simpl. lia.
  - eexists. vm_compute. reflexivity.
Defined.

Section ChildSelectionFacts.
Context `{Collaborators}.

(** What [finishNode] leaves: the best rating with the flag cleared, and the
    table with the node's entry unless the flag was set. *)
Lemma finishNode_Ok (maximizing : bool) (node : Node) (original : AlphaBeta)
    (outcome : ChildLoopResult) (st : SearchState) :
  finishNode maximizing node original outcome st
  = Ok (withInvalidTTEntry (bestRating outcome) false,
        if invalidTTEntry (bestRating outcome) then st
        else mkSearchState (self st)
               (storePositionEntry (table st) (getPos node)
                  (mkPositionEntry (move (bestRating outcome)) (rating (bestRating outcome))
                     (getRemainingDepth node) (nodeBound maximizing original outcome)))
               (loads st)).
Proof.
  unfold finishNode, storeEntry, yield, mbind, Search_bind.
  destruct (invalidTTEntry (bestRating outcome)); reflexivity.
Qed.

(** [bestChildPosition] is the loop over the children followed by
    [finishNode]. *)
Lemma bestChildPosition_Ok (recurse : bool -> Node -> AlphaBeta -> Search MoveRating)
    (maximizing : bool) (node : Node) (pvMove : Move) (alphaBeta : AlphaBeta)
    (st st' : SearchState) (r : MoveRating) :
  bestChildPosition recurse maximizing node pvMove alphaBeta st = Ok (r, st') ->
  exists movePriorities st0 outcome st1,
    searchChildren recurse maximizing node movePriorities
      (mkMoveRating Move_null (worstPossibleRating maximizing) false None) alphaBeta st0
    = Ok (outcome, st1) /\
    finishNode maximizing node alphaBeta outcome st1 = Ok (r, st').
Proof.
  unfold bestChildPosition. intros Hbest.
  apply Search_bind_Ok in Hbest as (entries & s1 & _ & Hbest).
  apply Search_bind_Ok in Hbest as (priorities & s2 & _ & Hbest).
  apply Search_bind_Ok in Hbest as (helper & s3 & _ & Hbest).
  apply Search_bind_Ok in Hbest as (shuffled & s4 & _ & Hbest).
  apply Search_bind_Ok in Hbest as (outcome & s5 & Hloop & Hfinish).
  exists shuffled, s4, outcome, s5. split; assumption.
Qed.

Lemma consultTable_Cutoff (node : Node) (alphaBeta : AlphaBeta) (st st' : SearchState)
    (r : MoveRating) :
  consultTable node alphaBeta st = Ok (Cutoff r, st') -> invalidTTEntry r = false.
Proof.
  unfold consultTable. intros Hconsult.
  apply Search_bind_Ok in Hconsult as (helper & s1 & _ & Hconsult).
  apply Search_bind_Ok in Hconsult as (stop & s2 & _ & Hconsult).
  destruct (negb stop && negb (helper && (getLevel node =? 0))); [|discriminate].
  apply Search_bind_Ok in Hconsult as (entryRes & s3 & _ & Hconsult).
  destruct entryRes as [entry|]; [|discriminate].
  unfold yield in Hconsult. injection Hconsult as Hverdict _.
  unfold consultEntry in Hverdict.
  repeat match type of Hverdict with
         | (if ?c then _ else _) = _ => destruct c
         | match ?b with InWindow => _ | LowerBound => _ | UpperBound => _ end = _ =>
             destruct b
         end;
    try discriminate; injection Hverdict as <-; reflexivity.
Qed.

(** The result of the search of one child is what the recursive call
    returned for a child node of that move: the node at the depth the move
    priority recommends or, for a trimmed move searched again, the node at
    full depth. *)
Lemma searchChild_result (recurse : bool -> Node -> AlphaBeta -> Search MoveRating)
    (maximizing : bool) (node : Node) (alphaBeta : AlphaBeta) (movePriority : MovePriority)
    (st st' : SearchState) (childRating : MoveRating) :
  searchChild recurse maximizing node alphaBeta movePriority st = Ok (childRating, st') ->
  exists child s,
    (Node_child node movePriority = Ok child \/
     exists fullDepth,
       SafeUnsigned.sub (getRemainingDepth node) 1 = Ok fullDepth /\
       Node_child node (MovePriority_full (getMove movePriority) fullDepth) = Ok child) /\
    recurse (negb maximizing) child alphaBeta s = Ok (childRating, st').
Proof.
  unfold searchChild. intros Hsearch.
  apply Search_bind_Ok in Hsearch as (child & s1 & Hchild & Hsearch).
  unfold pure in Hchild.
  destruct (Node_child node movePriority) as [c|f] eqn:Hnode; [|discriminate].
  injection Hchild as -> <-.
  apply Search_bind_Ok in Hsearch as (first & s2 & Hfirst & Hsearch).
  assert (Hdirect :
            yield first s2 = Ok (childRating, st') ->
            exists child0 s,
              (Ok child = Ok child0 \/
               exists fullDepth,
                 SafeUnsigned.sub (getRemainingDepth node) 1 = Ok fullDepth /\
                 Node_child node (MovePriority_full (getMove movePriority) fullDepth)
                 = Ok child0) /\
              recurse (negb maximizing) child0 alphaBeta s = Ok (childRating, st')).
  { unfold yield. intros [= <- <-]. exists child, st. split; [left; reflexivity | exact Hfirst]. }
  destruct (isTrimmed movePriority); [|exact (Hdirect Hsearch)].
  destruct (if maximizing then _ else _); [|exact (Hdirect Hsearch)].
  apply Search_bind_Ok in Hsearch as (fullDepth & s3 & Hfull & Hsearch).
  unfold pure in Hfull.
  destruct (SafeUnsigned.sub (getRemainingDepth node) 1) as [d|f] eqn:Hsub; [|discriminate].
  injection Hfull as -> <-.
  apply Search_bind_Ok in Hsearch as (newChild & s4 & Hnew & Hsearch).
  unfold pure in Hnew.
  destruct (Node_child node (MovePriority_full (getMove movePriority) fullDepth))
    as [c|f] eqn:Hnode'; [|discriminate].
  injection Hnew as -> <-.
  exists newChild, s2. split; [|exact Hsearch].
  right. exists fullDepth. split; [reflexivity | exact Hnode'].
Qed.

(** The best rating the loop over the children ends with is the one it
    started with, or the result the recursive call returned for a child of
    one of the moves, as it returned it (rating, repetition flag and
    checkmate level), with that move put in. *)
Lemma searchChildren_best (recurse : bool -> Node -> AlphaBeta -> Search MoveRating)
    (maximizing : bool) (node : Node) (movePriorities : list MovePriority)
    (best : MoveRating) (alphaBeta : AlphaBeta) (st st1 : SearchState)
    (outcome : ChildLoopResult) :
  searchChildren recurse maximizing node movePriorities best alphaBeta st = Ok (outcome, st1) ->
  bestRating outcome = best \/
  exists movePriority child window s s' childRating,
    In movePriority movePriorities /\
    (Node_child node movePriority = Ok child \/
     exists fullDepth,
       SafeUnsigned.sub (getRemainingDepth node) 1 = Ok fullDepth /\
       Node_child node (MovePriority_full (getMove movePriority) fullDepth) = Ok child) /\
    recurse (negb maximizing) child window s = Ok (childRating, s') /\
    bestRating outcome = withMove childRating (getMove movePriority).
Proof.
  revert best alphaBeta st.
  induction movePriorities as [|p rest IH]; intros best alphaBeta st Hloop;
    cbn [searchChildren] in Hloop.
  - unfold yield in Hloop. injection Hloop as <- _. left. reflexivity.
  - apply Search_bind_Ok in Hloop as (childRating & s' & Hchild & Hloop).
    apply searchChild_result in Hchild as (child & s0 & Hnode & Hchild).
    assert (Htaken :
              takeBetter maximizing best childRating (getMove p) = best \/
              takeBetter maximizing best childRating (getMove p)
              = withMove childRating (getMove p)).
    { unfold takeBetter. destruct maximizing; destruct (Rating_ltb _ _); auto. }
    assert (Hhere :
              forall o : ChildLoopResult,
                bestRating o = takeBetter maximizing best childRating (getMove p) ->
                bestRating o = best \/
                exists movePriority child0 window s s1 childRating0,
                  In movePriority (p :: rest) /\
                  (Node_child node movePriority = Ok child0 \/
                   exists fullDepth,
                     SafeUnsigned.sub (getRemainingDepth node) 1 = Ok fullDepth /\
                     Node_child node (MovePriority_full (getMove movePriority) fullDepth)
                     = Ok child0) /\
                  recurse (negb maximizing) child0 window s = Ok (childRating0, s1) /\
                  bestRating o = withMove childRating0 (getMove movePriority)).
    { intros o Ho. destruct Htaken as [Hkept | Htook].
      - left. congruence.
      - right. exists p, child, alphaBeta, s0, s', childRating.
        split; [left; reflexivity|]. split; [exact Hnode|].
        split; [exact Hchild | congruence]. }
    destruct (canPrune _).
    { apply Search_bind_Ok in Hloop as (u & s2 & _ & Hloop).
      unfold yield in Hloop. injection Hloop as <- _. apply Hhere. reflexivity. }
    destruct (Rating_eqb _ _).
    { unfold yield in Hloop. injection Hloop as <- _. apply Hhere. reflexivity. }
    apply IH in Hloop as [Hsame | (q & c & window & s & s1' & r0 & Hin & Hq & Hrec & Hbest)].
    + apply Hhere. exact Hsame.
    + right. exists q, c, window, s, s1', r0.
      split; [right; exact Hin|]. split; [exact Hq|]. split; assumption.
Qed.

(** [bestChildPosition] step by step: the killer moves of the node's level,
    the ordered moves, the shuffle of a helper near the root, the loop over
    the children, and [finishNode]. *)
Lemma bestChildPosition_steps (recurse : bool -> Node -> AlphaBeta -> Search MoveRating)
    (maximizing : bool) (node : Node) (pvMove : Move) (alphaBeta : AlphaBeta)
    (st st' : SearchState) (r : MoveRating) :
  bestChildPosition recurse maximizing node pvMove alphaBeta st = Ok (r, st') ->
  exists entries ordered movePriorities st0 outcome st1,
    m_killerMoves (self st) !! Z.to_nat (getLevel node) = Some entries /\
    getMovePriorities node pvMove (killerMoves entries) = Ok ordered /\
    (if m_helper (self st) && (getLevel node <? RANDOMIZATION_CUTOFF)
     then shuffleWithUrbg ordered st else Ok (ordered, st)) = Ok (movePriorities, st0) /\
    searchChildren recurse maximizing node movePriorities
      (mkMoveRating Move_null (worstPossibleRating maximizing) false None) alphaBeta st0
    = Ok (outcome, st1) /\
    finishNode maximizing node alphaBeta outcome st1 = Ok (r, st').
Proof.
  unfold bestChildPosition. intros Hbest.
  apply Search_bind_Ok in Hbest as (entries & s1 & Hentries & Hbest).
  unfold killerEntriesAt in Hentries.
  destruct (m_killerMoves (self st) !! Z.to_nat (getLevel node)) as [row|] eqn:Hrow;
    [|discriminate].
  injection Hentries as -> <-.
  apply Search_bind_Ok in Hbest as (ordered & s2 & Hordered & Hbest).
  unfold pure in Hordered.
  destruct (getMovePriorities node pvMove (killerMoves entries)) as [l|f] eqn:Hget;
    [|discriminate].
  injection Hordered as -> <-.
  apply Search_bind_Ok in Hbest as (helper & s3 & Hhelper & Hbest).
  unfold helperFlag in Hhelper. injection Hhelper as <- <-.
  apply Search_bind_Ok in Hbest as (shuffled & s4 & Hshuffle & Hbest).
  apply Search_bind_Ok in Hbest as (outcome & s5 & Hloop & Hfinish).
  exists entries, ordered, shuffled, s4, outcome, s5.
  split; [reflexivity|]. split; [exact Hget|].
  split; [|split; assumption].
  destruct (m_helper (self st) && (getLevel node <? RANDOMIZATION_CUTOFF));
    exact Hshuffle.
Qed.

(** C4.  A node with legal moves whose own position has repetition count 3
    or more makes [tryShortCircuit] return the null move with rating 0 and
    [invalidTTEntry] set, in the state it was called in.  In its parent,
    [bestChildPosition] runs the loop over the ordered moves of the node,
    and the best rating the loop ends with is the result the recursive call
    returned for a child node of one of these moves, as the child returned
    it, repetition flag included, with the move put in (or the initial
    rating, when no child was better).
    When it carries the flag, [bestChildPosition] stores nothing: it leaves
    the state as the loop left it; otherwise it stores the entry of the
    node.  Either way it returns the best rating with the flag cleared.
    Hence [tryShortCircuit] returns a set flag only from the node whose own
    position repeats: the flag reaches the parent and goes no further. *)
Theorem repetition_flag_reaches_parent_only
    (fuel : nat) (maximizing : bool) (node : Node) (alphaBeta : AlphaBeta) (st : SearchState) :
  (legalMoves (getPos node) <> [] ->
   3 <= getPositionCount (getRepetitionMap node) (getPos node) ->
   tryShortCircuit fuel maximizing node alphaBeta st
   = Ok (mkMoveRating Move_null 0%Q true None, st)) /\
  (forall recurse pvMove r st',
     bestChildPosition recurse maximizing node pvMove alphaBeta st = Ok (r, st') ->
     let initial := mkMoveRating Move_null (worstPossibleRating maximizing) false None in
     exists entries ordered movePriorities st0 outcome st1,
       m_killerMoves (self st) !! Z.to_nat (getLevel node) = Some entries /\
       getMovePriorities node pvMove (killerMoves entries) = Ok ordered /\
       (if m_helper (self st) && (getLevel node <? RANDOMIZATION_CUTOFF)
        then shuffleWithUrbg ordered st else Ok (ordered, st))
       = Ok (movePriorities, st0) /\
       searchChildren recurse maximizing node movePriorities initial alphaBeta st0
       = Ok (outcome, st1) /\
       (bestRating outcome = initial \/
        exists movePriority child window s s' childRating,
          In movePriority movePriorities /\
          (Node_child node movePriority = Ok child \/
           exists fullDepth,
             SafeUnsigned.sub (getRemainingDepth node) 1 = Ok fullDepth /\
             Node_child node (MovePriority_full (getMove movePriority) fullDepth)
             = Ok child) /\
          recurse (negb maximizing) child window s = Ok (childRating, s') /\
          bestRating outcome = withMove childRating (getMove movePriority)) /\
       r = withInvalidTTEntry (bestRating outcome) false /\
       st' = (if invalidTTEntry (bestRating outcome) then st1
              else mkSearchState (self st1)
                     (storePositionEntry (table st1) (getPos node)
                        (mkPositionEntry (move r) (rating r) (getRemainingDepth node)
                           (nodeBound maximizing alphaBeta outcome)))
                     (loads st1))) /\
  (forall r st',
     tryShortCircuit fuel maximizing node alphaBeta st = Ok (r, st') ->
     invalidTTEntry r = true ->
     3 <= getPositionCount (getRepetitionMap node) (getPos node) /\
     r = mkMoveRating Move_null 0%Q true None /\ st' = st).
Proof.
  split; [|split].
  - intros Hmoves Hcount. rewrite tryShortCircuit_unfold.
    rewrite bool_decide_eq_false_2 by assumption.
    replace (3 <=? _) with true by (symmetry; apply Z.leb_le; assumption).
    reflexivity.
  - intros recurse pvMove r st' Hbest initial.
    apply bestChildPosition_steps in Hbest
      as (entries & ordered & mps & st0 & outcome & st1 & Hrow & Hordered & Hshuffle
          & Hloop & Hfinish).
    rewrite finishNode_Ok in Hfinish. injection Hfinish as <- <-.
    exists entries, ordered, mps, st0, outcome, st1.
    split; [exact Hrow|]. split; [exact Hordered|]. split; [exact Hshuffle|].
    split; [exact Hloop|].
    split; [exact (searchChildren_best _ _ _ _ _ _ _ _ _ Hloop)|].
    split; [reflexivity|].
    destruct (bestRating outcome) as [m rt flag level]. reflexivity.
  - intros r st' Hrun Hflag. rewrite tryShortCircuit_unfold in Hrun.
    case_bool_decide as Hmoves.
    { unfold yield, terminalResult in Hrun. injection Hrun as <- _.
      destruct (isCheckmate (getPos node)); discriminate. }
    destruct (3 <=? getPositionCount (getRepetitionMap node) (getPos node)) eqn:Hcount.
    { unfold yield in Hrun. injection Hrun as <- <-. comparisons. auto. }
    exfalso. apply Search_bind_Ok in Hrun as (stop & s1 & _ & Hrun).
    destruct stop.
    { unfold yield in Hrun. injection Hrun as <- _. discriminate. }
    apply Search_bind_Ok in Hrun as ([cut | pv window] & s2 & Hconsult & Hrun).
    + unfold yield in Hrun. injection Hrun as <- _.
      apply consultTable_Cutoff in Hconsult. congruence.
    + unfold continueSearch in Hrun. destruct (isDone node).
      { unfold yield in Hrun. injection Hrun as <- _. discriminate. }
      destruct fuel as [|fuel']; [discriminate|].
      apply bestChildPosition_Ok in Hrun as (mps & st0 & outcome & st1 & _ & Hfinish).
      rewrite finishNode_Ok in Hfinish. injection Hfinish as <- _. discriminate.
Qed.

End ChildSelectionFacts.

(** The root at position 5 after the position has occurred three times
    returns the flag.  A parent and its child: a two-ply search of position
    5 when position 6, where its only move leads, has occurred twice.  The
    child is on its third occurrence and returns the flag; the parent takes
    the child's result as its best, stores nothing for position 5 and
    returns the move with the flag cleared.  When position 6 has not
    occurred, the same search stores the entry of position 5. *)
Lemma repetition_flag_reaches_parent_only_witness :
  let st := LineGame.mainWorker ∅ 2 in
  let window := @AlphaBeta_initial LineGame.undisturbed in
  let parent := @Node_root LineGame.undisturbed 5%nat 2 [6; 6]%nat in
  let child := @mkNode LineGame.undisturbed 6%nat [6; 6; 6]%nat 1 1 in
  let returned := mkMoveRating LineGame.advance 0%Q false None in
  @tryShortCircuit LineGame.undisturbed 4 false LineGame.thriceSeenRoot window
    (LineGame.mainWorker ∅ 4)
  = Ok (mkMoveRating Move_null 0%Q true None, LineGame.mainWorker ∅ 4) /\
  @Node_child LineGame.undisturbed parent (mkMovePriority LineGame.advance 0%Q 1 false)
  = Ok child /\
  @tryShortCircuit LineGame.undisturbed 1 true child window
    (@afterLoads LineGame.undisturbed 2 st)
  = Ok (mkMoveRating Move_null 0%Q true None, @afterLoads LineGame.undisturbed 2 st) /\
  @tryShortCircuit LineGame.undisturbed 2 false parent window st
  = Ok (returned, @afterLoads LineGame.undisturbed 2 st) /\
  (exists outcome st1,
     @searchChildren LineGame.undisturbed (@tryShortCircuit LineGame.undisturbed 1) false
       parent [mkMovePriority LineGame.advance 0%Q 1 false]
       (mkMoveRating Move_null (@worstPossibleRating LineGame.undisturbed false) false None)
       window (@afterLoads LineGame.undisturbed 2 st)
     = Ok (outcome, st1) /\
     invalidTTEntry (bestRating outcome) = true /\
     returned = withInvalidTTEntry (bestRating outcome) false /\
     @afterLoads LineGame.undisturbed 2 st
     = (if invalidTTEntry (bestRating outcome) then st1
        else @mkSearchState LineGame.undisturbed (self st1)
               (<[5%nat := mkPositionEntry LineGame.advance 0%Q 2
                             (nodeBound false window outcome)]>
                  (table st1))
               (loads st1))) /\
  exists st',
    @tryShortCircuit LineGame.undisturbed 2 false
      (@Node_root LineGame.undisturbed 5%nat 2 []) window st
    = Ok (returned, st') /\
    @table LineGame.undisturbed st' !! 5%nat
    = Some (mkPositionEntry LineGame.advance 0%Q 2 InWindow).
Proof.
  intros st window parent child returned.
  pose proof (@repetition_flag_reaches_parent_only LineGame.undisturbed) as Hclaim.
  split; [|split; [|split; [|split; [|split]]]].
  - apply (proj1 (Hclaim 4%nat false LineGame.thriceSeenRoot window (LineGame.mainWorker ∅ 4))).
    + discriminate.
    + vm_compute. discriminate.
  - reflexivity.
  - apply (proj1 (Hclaim 1%nat true child window (@afterLoads LineGame.undisturbed 2 st))).
    + discriminate.
    + vm_compute. discriminate.
  - vm_compute. reflexivity.
  - destruct (proj1 (proj2 (Hclaim 1%nat false parent window
                              (@afterLoads LineGame.undisturbed 2 st)))
                (@tryShortCircuit LineGame.undisturbed 1) Move_null returned
                (@afterLoads LineGame.undisturbed 2 st))
      as (entries & ordered & mps & st0 & outcome & st1 & Hrow & Hordered & Hshuffle
          & Hloop & _ & Hreturned & Hstate).
    { vm_compute. reflexivity. }
    injection Hrow as <-. injection Hordered as <-. injection Hshuffle as <- <-.
    exists outcome, st1. split; [exact Hloop|].
    split; [|split; [exact Hreturned | exact Hstate]].
    destruct (invalidTTEntry (bestRating outcome)); [reflexivity|].
    apply (f_equal (fun s => @table LineGame.undisturbed s !! 5%nat)) in Hstate.
    cbn [table] in Hstate. unfold storePositionEntry in Hstate. cbn in Hstate.
    rewrite lookup_insert_eq in Hstate. discriminate Hstate.
  - eexists. split; vm_compute; reflexivity.
Defined.

Section HelperRoot.
Context `{Collaborators}.

(** C5.  At a helper's root (level 0) the table is not consulted: the
    consultation step yields no cutoff, leaves the window as it is and gives
    no PV move, whatever the table holds, and a root that passes the early
    returns goes on to child selection with the null PV move and the window
    it was called with.  The store at the end of child selection does not
    look at the helper flag: unless the best child result carries the
    repetition flag, the node's entry is stored, for a helper's root as for
    any node.  Everywhere else (the main worker's root, any node below a
    root) an entry that is found is consulted. *)
Theorem helper_root_does_not_consume_table
    (fuel : nat) (maximizing : bool) (node : Node) (alphaBeta : AlphaBeta) (st : SearchState) :
  (m_helper (self st) = true -> getLevel node = 0 ->
   consultTable node alphaBeta st = Ok (Proceed Move_null alphaBeta, afterLoads 1 st) /\
   (legalMoves (getPos node) <> [] ->
    getPositionCount (getRepetitionMap node) (getPos node) < 3 ->
    stopRequested (loads st) = false ->
    tryShortCircuit fuel maximizing node alphaBeta st
    = continueSearch fuel maximizing node Move_null alphaBeta (afterLoads 2 st))) /\
  (forall recurse pvMove r st',
     bestChildPosition recurse maximizing node pvMove alphaBeta st = Ok (r, st') ->
     exists movePriorities st0 outcome st1,
       searchChildren recurse maximizing node movePriorities
         (mkMoveRating Move_null (worstPossibleRating maximizing) false None) alphaBeta st0
       = Ok (outcome, st1) /\
       (invalidTTEntry (bestRating outcome) = false ->
        table st'
        = storePositionEntry (table st1) (getPos node)
            (mkPositionEntry (move r) (rating r) (getRemainingDepth node)
               (nodeBound maximizing alphaBeta outcome)))) /\
  (m_helper (self st) = false \/ getLevel node <> 0 ->
   stopRequested (loads st) = false ->
   forall entry,
     getPositionEntry (table st) (getPos node) (getRemainingDepth node) = Some entry ->
     consultTable node alphaBeta st
     = Ok (consultEntry node entry alphaBeta, afterLoads 1 st)).
Proof.
  split; [|split].
  - intros Hhelper Hlevel.
    assert (Hskip : consultTable node alphaBeta st
                    = Ok (Proceed Move_null alphaBeta, afterLoads 1 st)).
    { apply consultTable_skipped. left. rewrite Hhelper, Hlevel. reflexivity. }
    split; [exact Hskip|].
    intros Hmoves Hcount Hstop.
    rewrite tryShortCircuit_reaches_table by assumption.
    erewrite Search_bind_step.
    2: { apply consultTable_skipped. left. cbn [afterLoads self].
         rewrite Hhelper, Hlevel. reflexivity. }
    reflexivity.
  - intros recurse pvMove r st' Hbest.
    apply bestChildPosition_Ok in Hbest as (mps & st0 & outcome & st1 & Hloop & Hfinish).
    exists mps, st0, outcome, st1. split; [exact Hloop|].
    intros Hflag. rewrite finishNode_Ok, Hflag in Hfinish.
    injection Hfinish as <- <-. reflexivity.
  - intros Hother Hstop entry Hentry.
    rewrite consultTable_lookup; [rewrite Hentry; reflexivity | | exact Hstop].
    destruct Hother as [-> | Hlevel]; [reflexivity|].
    apply andb_false_iff. right. apply Z.eqb_neq. exact Hlevel.
Qed.

End HelperRoot.

(** A helper at the root of a two-ply search of position 0, with an exact
    five-ply entry for that position in the table: the consultation yields
    nothing; the search returns what child selection finds, not the entry;
    and the entry of the root is overwritten on the way back. *)
Lemma helper_root_does_not_consume_table_witness :
  let st := LineGame.helperWorker {[ 0%nat := LineGame.cachedEntry ]} 2 in
  let window := @AlphaBeta_initial LineGame.undisturbed in
  @consultTable LineGame.undisturbed LineGame.rootOfTwoPlies window st
  = Ok (Proceed Move_null window, @afterLoads LineGame.undisturbed 1 st) /\
  exists st',
    @tryShortCircuit LineGame.undisturbed 2 true LineGame.rootOfTwoPlies window st
    = Ok (mkMoveRating LineGame.advance 0%Q false None, st') /\
    @table LineGame.undisturbed st' !! 0%nat
    = Some (mkPositionEntry LineGame.advance 0%Q 2 InWindow).
Proof.
  intros st window. split.
  - apply (proj1 (@helper_root_does_not_consume_table LineGame.undisturbed 2 true
                    LineGame.rootOfTwoPlies window st)); reflexivity.
  - eexists. split; vm_compute; reflexivity.
Defined.

(** ** The coordinator: when no move is returned *)

Section NoMove.
Context `{Collaborators}.





Lemma startAlphaBetaSearch_stopped (maximizing : bool) (pos : Position) (d : Z)
    (repetitionMap : RepetitionMap) (st : SearchState) :
  legalMoves pos <> [] ->
  getPositionCount repetitionMap pos < 3 ->
  stopRequested (loads st) = true ->
  startAlphaBetaSearch maximizing pos d repetitionMap st
  = Ok (mkMoveRating Move_null (staticRating pos) false None, afterLoads 1 st).
Proof.
  intros Hmoves Hcount Hstop. unfold startAlphaBetaSearch. rewrite tryShortCircuit_unfold.
  cbn [getPos getRepetitionMap Node_root].
  rewrite bool_decide_eq_false_2 by assumption.
  replace (3 <=? _) with false by (symmetry; apply Z.leb_gt; assumption).
  unfold mbind, Search_bind, loadStopRequested. rewrite Hstop. reflexivity.
Qed.

Lemma warmUp_stopped (maximizing : bool) (pos : Position) (repetitionMap : RepetitionMap)
    (iterDepths : list Z) (st : SearchState) :
  legalMoves pos <> [] ->
  getPositionCount repetitionMap pos < 3 ->
  stoppedFrom (loads st) ->
  warmUp maximizing pos repetitionMap iterDepths st
  = Ok (tt, afterLoads (length iterDepths) st).
Proof.
  intros Hmoves Hcount. revert st.
  induction iterDepths as [|d rest IH]; intros st Hstopped; cbn [warmUp].
  - destruct st; reflexivity.
  - erewrite Search_bind_step
      by (apply startAlphaBetaSearch_stopped; [assumption | assumption | apply Hstopped; lia]).
    rewrite IH.
    + unfold afterLoads. cbn [self table loads length]. do 3 f_equal. lia.
    + intros k Hk. apply Hstopped. cbn [afterLoads loads] in Hk. lia.
Qed.

(** A searcher called while the stop flag is set returns the null move. *)
Lemma searcherCall_stopped (pos : Position) (repetitionMap : RepetitionMap)
    (st : SearchState) :
  legalMoves pos <> [] ->
  getPositionCount repetitionMap pos < 3 ->
  stoppedFrom (loads st) ->
  exists r st',
    searcherCall pos repetitionMap st = Ok (r, st') /\ move r = Move_null /\
    (loads st <= loads st')%nat.
Proof.
  intros Hmoves Hcount Hstopped. unfold searcherCall, iterativeDeepening.
  destruct (isWhite pos);
    (erewrite Search_bind_step by (apply warmUp_stopped; assumption);
     rewrite startAlphaBetaSearch_stopped;
     [ eexists; eexists; split; [reflexivity | split; [reflexivity | simpl; lia]]
     | assumption | assumption | apply Hstopped; simpl; lia ]).
Qed.













End NoMove.

Section NoMoveClaim.
Context `{Collaborators}.


End NoMoveClaim.



(** ** The search thread *)

Section ThreadFacts.
Context `{Collaborators}.

(** C8.  When the committed search returns a move and the thread is not
    shutting down, the step of the thread that takes the result prints the
    move; then, unless a calculation was requested in the meantime, it
    applies the move to the stored position and sets [m_shouldPonder]; a
    fresh request leaves the shared state alone.  After that, a [go] alone
    (no new position) brings the thread in three steps to a committed search
    of the advanced position at the new depth.  When the committed search
    returns no move, nothing is printed and [m_shouldPonder] is cleared. *)
Theorem committed_move_is_printed_then_pondered
    (stopping : bool) (m : SearchThread.Machine) (stateCopy : SearchThread.GameState)
    (found : option Move) (searcher' : AsyncSearchState) :
  SearchThread.control m = SearchThread.Committing stateCopy ->
  findBestMove (SearchThread.m_searcher m) (SearchThread.pos stateCopy)
    (SearchThread.depth stateCopy) (SearchThread.repetitionMap stateCopy)
  = Ok (found, searcher') ->
  let sh := SearchThread.shared m in
  let stored := SearchThread.m_state sh in
  exists m',
    SearchThread.step stopping m = Ok (Some m') /\
    SearchThread.control m' = SearchThread.AtLoopHead /\
    SearchThread.m_searcher m' = searcher' /\
    match found with
    | Some best =>
        let advanced d :=
          SearchThread.mkGameState (applyMove (SearchThread.pos stored) best)
            (SearchThread.repetitionMap stored) d in
        (stopping = false ->
         SearchThread.printed m' = SearchThread.printed m ++ [getUCIString best] /\
         (SearchThread.m_calculationRequested sh = false ->
          SearchThread.shared m'
          = SearchThread.mkShared (advanced (SearchThread.depth stored)) true false /\
          forall d,
            SearchThread.steps false 3 (SearchThread.command (SearchThread.go d) m')
            = Ok (Some (SearchThread.mkMachine (SearchThread.Committing (advanced d))
                          (SearchThread.mkShared (advanced d) false false)
                          searcher' (SearchThread.printed m')))) /\
         (SearchThread.m_calculationRequested sh = true -> SearchThread.shared m' = sh)) /\
        (stopping = true ->
         SearchThread.printed m' = SearchThread.printed m /\ SearchThread.shared m' = sh)
    | None =>
        SearchThread.printed m' = SearchThread.printed m /\
        SearchThread.shared m'
        = SearchThread.mkShared stored false (SearchThread.m_calculationRequested sh)
    end.
Proof.
  intros Hcontrol Hfound sh stored.
  destruct m as [c sh0 searcher out]. simpl in Hcontrol, Hfound, sh, stored. subst c.
  unfold SearchThread.step. cbn [SearchThread.control SearchThread.shared
    SearchThread.m_searcher SearchThread.printed].
  rewrite Hfound. cbn [mbind Checked_bind].
  destruct found as [best|]; cbn [SearchThread.afterCommitted].
  - destruct stopping; cbn [negb].
    + eexists. split; [reflexivity|]. split; [reflexivity|]. split; [reflexivity|].
      split; [discriminate|]. intros _. split; [apply app_nil_r | reflexivity].
    + eexists. split; [reflexivity|]. split; [reflexivity|]. split; [reflexivity|].
      split; [|discriminate]. intros _. split; [reflexivity|].
      cbn [SearchThread.shared]. fold sh. split.
      * intros Hfresh. rewrite Hfresh. cbn [negb]. split; [reflexivity|].
        intros d. reflexivity.
      * intros Hfresh. rewrite Hfresh. reflexivity.
  - eexists. split; [reflexivity|]. split; [reflexivity|]. split; [reflexivity|].
    split; [apply app_nil_r | reflexivity].
Qed.

(** The subscript [m_killerMoves[node.getLevel().get()]] of a node at level
    30 or deeper is past the end of the array. *)
Lemma bestChildPosition_past_killer_table
    (recurse : bool -> Node -> AlphaBeta -> Search MoveRating)
    (maximizing : bool) (node : Node) (pvMove : Move) (alphaBeta : AlphaBeta)
    (st : SearchState) :
  length (m_killerMoves (self st)) = MAX_DEPTH ->
  Z.of_nat MAX_DEPTH <= getLevel node ->
  bestChildPosition recurse maximizing node pvMove alphaBeta st = Failed (IndexOutOfBounds KillerMoveTable).
Proof.
  intros Hlen Hlevel. unfold bestChildPosition, mbind, Search_bind, killerEntriesAt.
  rewrite (proj2 (lookup_ge_None _ _)); [reflexivity|].
  rewrite Hlen. lia.
Qed.

End ThreadFacts.

(** The committed search of position 0 at depth 1, two workers. *)
Lemma line_game_first_move :
  exists searcher',
    @findBestMove LineGame.undisturbed (LineGame.freshCoordinator (fun _ => false) 2)
      0%nat 1 [] = Ok (Some LineGame.advance, searcher').
Proof. eexists. vm_compute. reflexivity. Qed.

(** The committed search of position 0 at depth 1 returns [advance]: the
    thread prints it, stores position 1 and sets the ponder flag; a [go]
    alone then brings it to the committed search of position 1. *)
Lemma committed_move_is_printed_then_pondered_witness :
  exists m',
    @SearchThread.step LineGame.undisturbed false
      (LineGame.threadAt (SearchThread.Committing LineGame.startPosition) false)
    = Ok (Some m') /\
    SearchThread.printed m' = ["a2a3"%string] /\
    SearchThread.shared m'
    = @SearchThread.mkShared LineGame.undisturbed
        (@SearchThread.mkGameState LineGame.undisturbed 1%nat [] 1) true false /\
    forall d, exists m3,
      @SearchThread.steps LineGame.undisturbed false 3
        (SearchThread.command (SearchThread.go d) m') = Ok (Some m3) /\
      SearchThread.control m3
      = SearchThread.Committing (@SearchThread.mkGameState LineGame.undisturbed 1%nat [] d) /\
      SearchThread.printed m3 = ["a2a3"%string].
Proof.
  destruct line_game_first_move as (searcher' & Hfound).
  destruct (@committed_move_is_printed_then_pondered LineGame.undisturbed false
              (LineGame.threadAt (SearchThread.Committing LineGame.startPosition) false)
              LineGame.startPosition (Some LineGame.advance) searcher' eq_refl Hfound)
    as (m' & Hstep & _ & _ & Hmove & _).
  destruct (Hmove eq_refl) as (Hprinted & Hquiet & _).
  destruct (Hquiet eq_refl) as (Hshared & Hgo).
  exists m'. split; [exact Hstep|]. split; [exact Hprinted|].
  split; [exact Hshared|].
  intros d. eexists. split; [apply Hgo|]. split; [reflexivity | exact Hprinted].
Defined.

(** C1, the claim fails on the code.  The pondering search of [think] and a
    committed search of 31 plies both subscript the killer-move table at
    level 30, one past its last element, on a position whose first line goes
    on for 30 plies; a search of 30 plies stays inside the table. *)
Theorem deep_search_leaves_killer_table :
  @SearchThread.step LineGame.undisturbed false
    (LineGame.threadAt (SearchThread.Pondering LineGame.startPosition) true)
  = Failed (IndexOutOfBounds KillerMoveTable) /\
  @findBestMove LineGame.undisturbed (LineGame.freshCoordinator (fun _ => false) 4)
    0%nat 31 [] = Failed (IndexOutOfBounds KillerMoveTable) /\
  exists state',
    @findBestMove LineGame.undisturbed (LineGame.freshCoordinator (fun _ => false) 4)
      0%nat 30 [] = Ok (Some LineGame.advance, state').
Proof.
  split; [vm_compute; reflexivity|].
  split; [vm_compute; reflexivity|].
  eexists. vm_compute. reflexivity.
Qed.

(** ** Termination of the search and the bounds of the killer-move table

    For every instance of the collaborators: the fuel the model gives a
    search is enough, and a search of at most [MAX_DEPTH] plies keeps every
    subscript of the killer-move table inside it. *)

Section FuelIsEnough.
Context `{Collaborators}.

Section CheckedFaults.
(** The checked computations of the move ordering and of the coordinator
    raise neither of the searcher's own faults. *)
Variable f : Fault.
Hypothesis Hf : searchFault f.

Lemma avoids_bind {A B} (c : Checked A) (k : A -> Checked B) :
  avoids f c -> (forall a, c = Ok a -> avoids f (k a)) -> avoids f (c ≫= k).
Proof.
  unfold avoids, mbind, Checked_bind. intros Hc Hk.
  destruct c as [a|f']; [apply Hk; reflexivity|].
  intros [= ->]. apply Hc. reflexivity.
Qed.

Lemma avoids_Ok {A} (a : A) : avoids f (Ok a).
Proof. discriminate. Qed.

Lemma avoids_other {A} (f' : Fault) : ~ searchFault f' -> avoids f (@Failed A f').
Proof. intros Hother [= ->]. exact (Hother Hf). Qed.

Lemma avoids_zAssert (b : bool) : avoids f (zAssert b).
Proof.
  destruct b; [apply avoids_Ok|]. apply avoids_other. intros [|]; discriminate.
Qed.

Create HintDb fuel.

Ltac keeps_fuel :=
  repeat first
    [ apply avoids_zAssert
    | apply avoids_Ok
    | solve [auto with fuel nocore]
    | apply avoids_bind; [|intros ? ?]
    | match goal with
      | |- avoids _ (Failed _) => apply avoids_other; intros [|]; discriminate
      | |- avoids _ (if ?c then _ else _) => destruct c
      | |- avoids _ (match ?c with _ => _ end) => destruct c
      end ].

Lemma avoids_trim (p : MovePriority) (i : Z) : avoids f (trim p i).
Proof.
  unfold trim, SafeUnsigned.add, SafeUnsigned.subToMin, SafeUnsigned.sub, LOG_TABLE,
    uint8_of_double.
  keeps_fuel.
Qed.

#[local] Hint Resolve avoids_trim : fuel.

Lemma avoids_trimFrom (l : list MovePriority) (offset : Z) : avoids f (trimFrom offset l).
Proof.
  revert offset. induction l as [|p l IH]; intros offset; cbn [trimFrom]; keeps_fuel.
Qed.
#[local] Hint Resolve avoids_trimFrom : fuel.

Lemma avoids_makePriorities (b : Bitboard) (d : Z) (l : list Move) :
  avoids f (makePriorities b d l).
Proof.
  induction l as [|m l IH]; cbn [makePriorities];
    unfold MovePriority_ordered, SafeUnsigned.sub; keeps_fuel.
Qed.
#[local] Hint Resolve avoids_makePriorities : fuel.

Lemma avoids_getMovePriorities (node : Node) (pv : Move) (killers : list Move) :
  avoids f (getMovePriorities node pv killers).
Proof.
  unfold getMovePriorities, getMovePrioritiesImpl, SafeUnsigned.sub. keeps_fuel.
Qed.

Lemma avoids_Node_child (node : Node) (p : MovePriority) : avoids f (Node_child node p).
Proof. unfold Node_child, SafeUnsigned.add. keeps_fuel. Qed.

Lemma avoids_sub (a b : Z) : avoids f (SafeUnsigned.sub a b).
Proof. unfold SafeUnsigned.sub. keeps_fuel. Qed.

Lemma avoids_castVotes (worst diff : Rating) (votes : list (MoveRating * Searcher))
    (t : Tally) :
  avoids f (castVotes getVotingWeight worst diff t votes).
Proof.
  revert t. induction votes as [|[mr s] votes IH]; intros t; cbn [castVotes];
    [apply avoids_Ok|].
  apply avoids_bind; [|intros; apply IH].
  unfold castVote, getVotingWeight. keeps_fuel.
Qed.

Lemma avoids_chooseMove (searchers : list Searcher) (candidates : list MoveRating) :
  avoids f (chooseMove searchers candidates).
Proof.
  unfold chooseMove, voteForBestMove, voteWith.
  apply avoids_bind; [apply avoids_zAssert|]. intros u _.
  destruct (hasNullMove candidates); [apply avoids_Ok|].
  apply avoids_bind; [|intros; apply avoids_Ok].
  destruct (anyPathsLeadToCheckmate candidates); destruct candidates as [|first others];
    keeps_fuel.
  apply avoids_castVotes.
Qed.

Lemma avoids_assignDepths (d : Z) (searchers : list Searcher) :
  avoids f (assignDepths d searchers).
Proof.
  unfold assignDepths. apply avoids_bind; [apply avoids_zAssert|]. intros u _.
  generalize 0%nat. induction searchers as [|s rest IH]; intros i;
    cbn [assignDepthsFrom]; [apply avoids_Ok|].
  apply avoids_bind;
    [|intros s' _; apply avoids_bind; [apply IH | intros; apply avoids_Ok]].
  unfold assignDepth, SafeUnsigned.rem, SafeUnsigned.sub. keeps_fuel.
Qed.

End CheckedFaults.

Lemma searchFault_fuel : searchFault FuelExhausted.
Proof. left. reflexivity. Qed.

Lemma searchFault_table : searchFault (IndexOutOfBounds KillerMoveTable).
Proof. right. reflexivity. Qed.

Lemma makePriorities_depths (b : Bitboard) (d : Z) (l : list Move) (ps : list MovePriority) :
  makePriorities b d l = Ok ps -> Forall (depthWithin (d - 1)) ps.
Proof.
  revert ps. induction l as [|m l IH]; intros ps Hps; cbn [makePriorities] in Hps.
  - injection Hps as <-. constructor.
  - apply Checked_bind_Ok in Hps as (p & Hp & Hps).
    apply Checked_bind_Ok in Hps as (ps' & Hps' & Hps). injection Hps as <-.
    unfold MovePriority_ordered in Hp.
    apply Checked_bind_Ok in Hp as (d' & Hd' & Hp). injection Hp as <-.
    apply SafeUnsigned_sub_Ok in Hd' as [Hle ->].
    constructor; [unfold depthWithin, getDepth; simpl; lia | apply IH; exact Hps'].
Qed.

Lemma swapWithFront_Forall {A} (P : A -> Prop) (k : nat) (l : list A) :
  Forall P l -> Forall P (swapWithFront k l).
Proof.
  intros Hl. unfold swapWithFront. destruct k as [|k]; [exact Hl|].
  destruct l as [|x l]; [exact Hl|].
  destruct (l !! k) as [y|] eqn:Hy; [|exact Hl].
  apply Forall_cons in Hl as [Hx Hl].
  constructor.
  - exact (Forall_lookup_1 _ _ _ _ Hl Hy).
  - apply Forall_insert; assumption.
Qed.

Lemma movePVMoveToFront_Forall (P : MovePriority -> Prop) (l : list MovePriority) (pv : Move) :
  Forall P l ->
  Forall P (fst (movePVMoveToFront l pv)) /\ Forall P (snd (movePVMoveToFront l pv)).
Proof.
  intros Hl. unfold movePVMoveToFront.
  case_bool_decide; [|split; [constructor | exact Hl]].
  destruct (findIndex _ l) as [k|]; [|split; [constructor | exact Hl]].
  pose proof (swapWithFront_Forall P k l Hl) as Hswap.
  destruct (swapWithFront k l) as [|p rest]; [split; constructor|].
  apply Forall_cons in Hswap as [Hp Hrest].
  split; [constructor; [exact Hp | constructor] | exact Hrest].
Qed.

Lemma List_partition_Forall {A} (P : A -> Prop) (f : A -> bool) (l : list A) :
  Forall P l ->
  Forall P (fst (List.partition f l)) /\ Forall P (snd (List.partition f l)).
Proof.
  induction 1 as [|x l Hx _ [IHyes IHno]]; simpl; [split; constructor|].
  destruct (List.partition f l) as [yes no]. simpl in *.
  destruct (f x); simpl; split; try constructor; assumption.
Qed.

Lemma partitionByTargets_Forall (P : MovePriority -> Prop) (pos : Position)
    (targets : list PieceData) (front ret : list MovePriority) :
  Forall P front -> Forall P ret ->
  Forall P (fst (partitionByTargets pos targets front ret)) /\
  Forall P (snd (partitionByTargets pos targets front ret)).
Proof.
  revert front ret. induction targets as [|t targets IH]; intros front ret Hfront Hret;
    cbn [partitionByTargets]; [split; assumption|].
  pose proof (List_partition_Forall P (capturesOrEvades pos t) ret Hret) as [Hyes Hno].
  destruct (List.partition (capturesOrEvades pos t) ret) as [yes no]. simpl in Hyes, Hno.
  apply IH; [apply Forall_app; split; assumption | exact Hno].
Qed.

Lemma trimFrom_depths (limit : Z) (l l' : list MovePriority) (offset : Z) :
  Forall (depthWithin limit) l ->
  trimFrom offset l = Ok l' ->
  Forall (depthWithin limit) l'.
Proof.
  intros Hl. revert offset l'.
  induction Hl as [|p l Hp _ IH]; intros offset l' Htrim; cbn [trimFrom] in Htrim.
  - injection Htrim as <-. constructor.
  - apply Checked_bind_Ok in Htrim as (p' & Hp' & Htrim).
    apply Checked_bind_Ok in Htrim as (rest & Hrest & Htrim). injection Htrim as <-.
    constructor; [|exact (IH _ _ Hrest)].
    apply trim_Ok in Hp' as (subbed & Hsub & ->).
    unfold depthWithin, getDepth in *. simpl. lia.
Qed.

Section WithLaws.
Context `{!LibraryLaws}.

(** Every move priority of a node recommends a depth below the node's. *)
Lemma getMovePriorities_depths (node : Node) (pv : Move) (killers : list Move)
    (mps : list MovePriority) :
  getMovePriorities node pv killers = Ok mps ->
  0 < getRemainingDepth node /\
  Forall (depthWithin (getRemainingDepth node - 1)) mps.
Proof.
  unfold getMovePriorities, getMovePrioritiesImpl. intros Hmps.
  apply Checked_bind_Ok in Hmps as (u & Hpositive & Hmps).
  apply zAssert_Ok in Hpositive. comparisons. split; [exact Hpositive|].
  apply Checked_bind_Ok in Hmps as (made & Hmade & Hmps).
  apply makePriorities_depths in Hmade.
  apply (sort_Forall _ _) in Hmade.
  pose proof (movePVMoveToFront_Forall _ _ pv Hmade) as [Hpv HnonPV].
  destruct (movePVMoveToFront (sortByExchangeRating made) pv) as [front nonPV].
  simpl in Hpv, HnonPV.
  unfold orderCapturesAndEvasionsFirst in Hmps.
  pose proof (partitionByTargets_Forall _ (getPos node)
                (getTargets (getPos node) (allEnemySquares (getPos node))) [] nonPV
                (Forall_nil_2 _) HnonPV) as [Hmaterial HnonMaterial].
  destruct (partitionByTargets _ _ [] nonPV) as [material nonMaterial].
  simpl in Hmaterial, HnonMaterial.
  unfold orderKillerMovesFirst in Hmps.
  pose proof (partition_Forall _
                (fun priority =>
                   existsb (fun move => Move_eqb move (getMove priority)) killers)
                nonMaterial HnonMaterial) as [Hkillers Hbad].
  destruct (partitionUnstable _ nonMaterial) as [killerPart likelyBad].
  simpl in Hkillers, Hbad.
  apply Checked_bind_Ok in Hmps as (childDepth & HchildDepth & Hmps).
  apply Checked_bind_Ok in Hmps as (trimmed & Htrimmed & Hmps).
  apply Checked_bind_Ok in Hmps as (u' & _ & Hmps). injection Hmps as <-.
  assert (Hbad' : Forall (depthWithin (getRemainingDepth node - 1)) trimmed).
  { destruct (negb (childDepth =? 0)).
    - eapply trimFrom_depths; [exact Hbad | exact Htrimmed].
    - injection Htrimmed as <-. exact Hbad. }
  repeat (apply Forall_app; split); assumption.
Qed.


Lemma hasFuel_bind {A B} (c : Search A) (k : A -> Search B) (st : SearchState) :
  hasFuel c st ->
  (forall a st1, c st = Ok (a, st1) -> hasFuel (k a) st1) ->
  hasFuel (c ≫= k) st.
Proof.
  unfold hasFuel, mbind, Search_bind. intros Hc Hk.
  destruct (c st) as [[a st1]|f]; [apply Hk; reflexivity|].
  intros [= ->]. apply Hc. reflexivity.
Qed.

Lemma hasFuel_pure {A} (c : Checked A) (st : SearchState) :
  avoids FuelExhausted c -> hasFuel (pure c) st.
Proof.
  unfold avoids, hasFuel, pure. intros Hc. destruct c as [a|f]; [discriminate|].
  intros [= ->]. apply Hc. reflexivity.
Qed.

Lemma hasFuel_yield {A} (a : A) (st : SearchState) : hasFuel (yield a) st.
Proof. discriminate. Qed.

Lemma pure_Ok {A} (c : Checked A) (st st1 : SearchState) (a : A) :
  pure c st = Ok (a, st1) -> c = Ok a.
Proof. unfold pure. destruct c; [intros [= -> _]; reflexivity | discriminate]. Qed.

Lemma Node_child_depth (node child : Node) (p : MovePriority) :
  Node_child node p = Ok child -> getRemainingDepth child = getDepth p.
Proof.
  unfold Node_child. intros Hchild.
  apply Checked_bind_Ok in Hchild as (lvl & _ & Hchild). injection Hchild as <-. reflexivity.
Qed.

Lemma hasFuel_searchChild (recurse : bool -> Node -> AlphaBeta -> Search MoveRating)
    (limit : Z) (maximizing : bool) (node : Node) (alphaBeta : AlphaBeta)
    (p : MovePriority) (st : SearchState) :
  fuelled recurse limit ->
  depthWithin limit p ->
  1 <= getRemainingDepth node <= limit + 1 ->
  hasFuel (searchChild recurse maximizing node alphaBeta p) st.
Proof.
  intros Hrec Hp Hnode. unfold searchChild.
  apply hasFuel_bind; [apply hasFuel_pure, avoids_Node_child, searchFault_fuel|].
  intros child st1 Hchild. apply pure_Ok, Node_child_depth in Hchild.
  apply hasFuel_bind; [apply Hrec; rewrite Hchild; exact Hp|].
  intros childRating st2 _.
  destruct (isTrimmed p); [|apply hasFuel_yield].
  match goal with |- hasFuel (if ?c then _ else _) _ => destruct c end;
    [|apply hasFuel_yield].
  apply hasFuel_bind.
  { apply hasFuel_pure, avoids_sub, searchFault_fuel. }
  intros fullDepth st3 Hfull. apply pure_Ok, SafeUnsigned_sub_Ok in Hfull as [_ ->].
  apply hasFuel_bind; [apply hasFuel_pure, avoids_Node_child, searchFault_fuel|].
  intros newChild st4 HnewChild. apply pure_Ok, Node_child_depth in HnewChild.
  apply Hrec. rewrite HnewChild. unfold getDepth, MovePriority_full. simpl. lia.
Qed.

Lemma hasFuel_addKillerMove (level : Z) (killer : Move) (st : SearchState) :
  hasFuel (addKillerMove level killer) st.
Proof.
  unfold hasFuel, addKillerMove.
  destruct (m_killerMoves (self st) !! Z.to_nat level) as [entries|]; [|discriminate].
  destruct (index entries <? MAX_KILLER_MOVES)%nat; discriminate.
Qed.

Lemma hasFuel_searchChildren (recurse : bool -> Node -> AlphaBeta -> Search MoveRating)
    (limit : Z) (maximizing : bool) (node : Node) (mps : list MovePriority)
    (best : MoveRating) (alphaBeta : AlphaBeta) (st : SearchState) :
  fuelled recurse limit ->
  Forall (depthWithin limit) mps ->
  1 <= getRemainingDepth node <= limit + 1 ->
  hasFuel (searchChildren recurse maximizing node mps best alphaBeta) st.
Proof.
  intros Hrec Hmps Hnode. revert best alphaBeta st.
  induction Hmps as [|p mps Hp _ IH]; intros best alphaBeta st; cbn [searchChildren];
    [apply hasFuel_yield|].
  apply hasFuel_bind; [eapply hasFuel_searchChild; eassumption|].
  intros childRating st1 _.
  destruct (canPrune _).
  - apply hasFuel_bind; [|intros; apply hasFuel_yield].
    case_bool_decide; [apply hasFuel_addKillerMove | apply hasFuel_yield].
  - destruct (Rating_eqb _ _); [apply hasFuel_yield | apply IH].
Qed.

Lemma hasFuel_finishNode (maximizing : bool) (node : Node) (original : AlphaBeta)
    (outcome : ChildLoopResult) (st : SearchState) :
  hasFuel (finishNode maximizing node original outcome) st.
Proof. unfold hasFuel. rewrite finishNode_Ok. discriminate. Qed.

Lemma hasFuel_bestChildPosition (recurse : bool -> Node -> AlphaBeta -> Search MoveRating)
    (limit : Z) (maximizing : bool) (node : Node) (pvMove : Move) (alphaBeta : AlphaBeta)
    (st : SearchState) :
  fuelled recurse limit ->
  getRemainingDepth node <= limit + 1 ->
  hasFuel (bestChildPosition recurse maximizing node pvMove alphaBeta) st.
Proof.
  intros Hrec Hnode. unfold bestChildPosition.
  apply hasFuel_bind.
  { unfold hasFuel, killerEntriesAt. destruct (_ !! _); discriminate. }
  intros entries st1 _.
  apply hasFuel_bind; [apply hasFuel_pure, avoids_getMovePriorities, searchFault_fuel|].
  intros mps st2 Hmps. apply pure_Ok, getMovePriorities_depths in Hmps as [Hpositive Hmps].
  assert (Hwithin : Forall (depthWithin limit) mps).
  { eapply Forall_impl; [exact Hmps|]. unfold depthWithin. intros p Hp. lia. }
  apply hasFuel_bind; [discriminate|]. intros helper st3 _.
  apply hasFuel_bind.
  { destruct (helper && _); [|apply hasFuel_yield].
    unfold hasFuel, shuffleWithUrbg. destruct (shuffle _ _). discriminate. }
  intros shuffled st4 Hshuffled.
  assert (Hshuffle : Forall (depthWithin limit) shuffled).
  { destruct (helper && _).
    - unfold shuffleWithUrbg in Hshuffled.
      pose proof (shuffle_Forall _ mps (m_urbg (self st3)) Hwithin) as Hlaw.
      destruct (shuffle mps (m_urbg (self st3))) as [l g]. injection Hshuffled as <- _.
      exact Hlaw.
    - unfold yield in Hshuffled. injection Hshuffled as <- _. exact Hwithin. }
  apply hasFuel_bind; [|intros; apply hasFuel_finishNode].
  eapply hasFuel_searchChildren; [exact Hrec | exact Hshuffle | lia].
Qed.

Lemma hasFuel_consultTable (node : Node) (alphaBeta : AlphaBeta) (st : SearchState) :
  hasFuel (consultTable node alphaBeta) st.
Proof.
  unfold consultTable.
  apply hasFuel_bind; [discriminate|]. intros helper st1 _.
  apply hasFuel_bind; [discriminate|]. intros stop st2 _.
  destruct (negb stop && _); [|apply hasFuel_yield].
  apply hasFuel_bind; [discriminate|]. intros [entry|] st3 _; apply hasFuel_yield.
Qed.

(** Fuel for the remaining depth is enough: [tryShortCircuit] returns a
    rating or a fault of the program, never the fault of the model. *)
Lemma tryShortCircuit_has_fuel (fuel : nat) : fuelled (tryShortCircuit fuel) (Z.of_nat fuel).
Proof.
  induction fuel as [|fuel IH]; intros maximizing node alphaBeta st Hdepth;
    rewrite tryShortCircuit_unfold;
    (case_bool_decide; [apply hasFuel_yield|]);
    (destruct (3 <=? _); [apply hasFuel_yield|]);
    (apply hasFuel_bind; [discriminate|]; intros stop st1 _);
    (destruct stop; [apply hasFuel_yield|]);
    (apply hasFuel_bind; [apply hasFuel_consultTable|]);
    intros [r | pv window] st2 _; try apply hasFuel_yield;
    unfold continueSearch; destruct (isDone node) eqn:Hdone; try apply hasFuel_yield.
  - unfold isDone in Hdone. comparisons. lia.
  - eapply hasFuel_bestChildPosition; [exact IH | lia].
Qed.


Lemma startAlphaBetaSearch_has_fuel (maximizing : bool) (pos : Position) (d : Z)
    (repetitionMap : RepetitionMap) (st : SearchState) :
  0 <= d -> hasFuel (startAlphaBetaSearch maximizing pos d repetitionMap) st.
Proof.
  intros Hd. unfold startAlphaBetaSearch. apply tryShortCircuit_has_fuel.
  cbn [getRemainingDepth Node_root]. lia.
Qed.

Lemma warmUp_has_fuel (maximizing : bool) (pos : Position) (repetitionMap : RepetitionMap)
    (iterDepths : list Z) (st : SearchState) :
  Forall (fun d => 0 <= d) iterDepths ->
  hasFuel (warmUp maximizing pos repetitionMap iterDepths) st.
Proof.
  intros Hdepths. revert st.
  induction Hdepths as [|d rest Hd _ IH]; intros st; cbn [warmUp]; [apply hasFuel_yield|].
  apply hasFuel_bind; [apply startAlphaBetaSearch_has_fuel; exact Hd|].
  intros r st1 _. apply IH.
Qed.

Lemma searcherCall_has_fuel (pos : Position) (repetitionMap : RepetitionMap)
    (st : SearchState) :
  0 <= depth (self st) -> hasFuel (searcherCall pos repetitionMap) st.
Proof.
  intros Hdepth. unfold searcherCall, iterativeDeepening.
  assert (Hwarm : Forall (fun d => 0 <= d) (seqZ 1 (depth (self st) - 1))).
  { apply list.Forall_forall. intros d Hd. apply elem_of_seqZ in Hd. lia. }
  destruct (isWhite pos);
    (apply hasFuel_bind; [apply warmUp_has_fuel; exact Hwarm|];
     intros u st1 _; apply startAlphaBetaSearch_has_fuel; exact Hdepth).
Qed.

(** *** The subscripts of the killer-move table *)

Lemma safely_bind {A B} (c : Search A) (k : A -> Search B) (st : SearchState) :
  subscriptsSafely c st ->
  (forall a st1, c st = Ok (a, st1) -> subscriptsSafely (k a) st1) ->
  subscriptsSafely (c ≫= k) st.
Proof.
  intros Hc Hk Hintact. destruct (Hc Hintact) as [Hno Hpost].
  unfold mbind, Search_bind. destruct (c st) as [[a st1]|f'] eqn:Hrun.
  - exact (Hk a st1 eq_refl (Hpost a st1 eq_refl)).
  - split; [|discriminate]. intros [= ->]. apply Hno. reflexivity.
Qed.

(** A step that cannot raise the fault and leaves the killer moves alone. *)
Lemma safely_unchanged {A} (c : Search A) (st : SearchState) :
  c st <> Failed (IndexOutOfBounds KillerMoveTable) ->
  (forall a st', c st = Ok (a, st') ->
                 m_killerMoves (self st') = m_killerMoves (self st)) ->
  subscriptsSafely c st.
Proof.
  intros Hno Hsame Hintact. split; [exact Hno|].
  intros a st' Hrun. unfold tableIntact in *. rewrite (Hsame a st' Hrun). exact Hintact.
Qed.

Lemma safely_yield {A} (a : A) (st : SearchState) : subscriptsSafely (yield a) st.
Proof. apply safely_unchanged; [discriminate | intros ? ? [= _ <-]; reflexivity]. Qed.

Lemma safely_pure {A} (c : Checked A) (st : SearchState) :
  avoids (IndexOutOfBounds KillerMoveTable) c -> subscriptsSafely (pure c) st.
Proof.
  intros Hc. apply safely_unchanged; unfold pure; destruct c as [a|f'].
  - discriminate.
  - intros [= ->]. apply Hc. reflexivity.
  - intros ? ? [= _ <-]. reflexivity.
  - discriminate.
Qed.

Lemma safely_killerEntriesAt (level : Z) (st : SearchState) :
  0 <= level < Z.of_nat MAX_DEPTH -> subscriptsSafely (killerEntriesAt level) st.
Proof.
  intros Hlevel Hintact. unfold killerEntriesAt.
  destruct (lookup_lt_is_Some_2 (m_killerMoves (self st)) (Z.to_nat level)) as [entries Hentries].
  { unfold tableIntact in Hintact. rewrite Hintact. lia. }
  rewrite Hentries. split; [discriminate|]. intros ? ? [= _ <-]. exact Hintact.
Qed.

Lemma safely_addKillerMove (level : Z) (killer : Move) (st : SearchState) :
  0 <= level < Z.of_nat MAX_DEPTH -> subscriptsSafely (addKillerMove level killer) st.
Proof.
  intros Hlevel Hintact. unfold addKillerMove.
  destruct (lookup_lt_is_Some_2 (m_killerMoves (self st)) (Z.to_nat level)) as [entries Hentries].
  { unfold tableIntact in Hintact. rewrite Hintact. lia. }
  rewrite Hentries. destruct (index entries <? MAX_KILLER_MOVES)%nat.
  - split; [discriminate|]. intros ? ? [= _ <-].
    unfold tableIntact in *. cbn [self m_killerMoves]. rewrite length_insert. exact Hintact.
  - split; discriminate.
Qed.

Lemma Node_child_Ok (node child : Node) (p : MovePriority) :
  Node_child node p = Ok child ->
  getLevel child = getLevel node + 1 /\ getRemainingDepth child = getDepth p.
Proof.
  unfold Node_child. intros Hchild.
  apply Checked_bind_Ok in Hchild as (lvl & Hlvl & Hchild). injection Hchild as <-.
  apply SafeUnsigned_add_Ok in Hlvl as [_ ->]. split; reflexivity.
Qed.

Lemma safely_searchChild (recurse : bool -> Node -> AlphaBeta -> Search MoveRating)
    (maximizing : bool) (node : Node) (alphaBeta : AlphaBeta)
    (p : MovePriority) (st : SearchState) :
  guarded recurse ->
  insideTable node ->
  depthWithin (getRemainingDepth node - 1) p ->
  subscriptsSafely (searchChild recurse maximizing node alphaBeta p) st.
Proof.
  intros Hrec (Hlevel & Hremaining & Hsum) [Hplo Hphi]. unfold searchChild.
  apply safely_bind; [apply safely_pure, avoids_Node_child, searchFault_table|].
  intros child st1 Hchild. apply pure_Ok, Node_child_Ok in Hchild as [Hcl Hcd].
  apply safely_bind.
  { apply Hrec. unfold insideTable. rewrite Hcl, Hcd. lia. }
  intros childRating st2 _.
  destruct (isTrimmed p); [|apply safely_yield].
  match goal with |- subscriptsSafely (if ?c then _ else _) _ => destruct c end;
    [|apply safely_yield].
  apply safely_bind; [apply safely_pure, avoids_sub, searchFault_table|].
  intros fullDepth st3 Hfull. apply pure_Ok, SafeUnsigned_sub_Ok in Hfull as [Hone ->].
  apply safely_bind; [apply safely_pure, avoids_Node_child, searchFault_table|].
  intros newChild st4 HnewChild. apply pure_Ok, Node_child_Ok in HnewChild as [Hnl Hnd].
  apply Hrec. unfold insideTable. rewrite Hnl, Hnd.
  unfold getDepth, MovePriority_full. simpl. lia.
Qed.

Lemma safely_searchChildren (recurse : bool -> Node -> AlphaBeta -> Search MoveRating)
    (maximizing : bool) (node : Node) (mps : list MovePriority)
    (best : MoveRating) (alphaBeta : AlphaBeta) (st : SearchState) :
  guarded recurse ->
  insideTable node ->
  1 <= getRemainingDepth node ->
  Forall (depthWithin (getRemainingDepth node - 1)) mps ->
  subscriptsSafely (searchChildren recurse maximizing node mps best alphaBeta) st.
Proof.
  intros Hrec Hnode Hone Hmps. revert best alphaBeta st.
  induction Hmps as [|p mps Hp _ IH]; intros best alphaBeta st; cbn [searchChildren];
    [apply safely_yield|].
  apply safely_bind; [apply safely_searchChild; assumption|].
  intros childRating st1 _.
  destruct (canPrune _).
  - apply safely_bind; [|intros; apply safely_yield].
    case_bool_decide; [|apply safely_yield].
    apply safely_addKillerMove. destruct Hnode as (Hlevel & _ & Hsum). lia.
  - destruct (Rating_eqb _ _); [apply safely_yield | apply IH].
Qed.

Lemma safely_finishNode (maximizing : bool) (node : Node) (original : AlphaBeta)
    (outcome : ChildLoopResult) (st : SearchState) :
  subscriptsSafely (finishNode maximizing node original outcome) st.
Proof.
  apply safely_unchanged; rewrite finishNode_Ok; [discriminate|].
  intros ? ? [= _ <-]. destruct (invalidTTEntry _); reflexivity.
Qed.

Lemma safely_bestChildPosition (recurse : bool -> Node -> AlphaBeta -> Search MoveRating)
    (maximizing : bool) (node : Node) (pvMove : Move) (alphaBeta : AlphaBeta)
    (st : SearchState) :
  guarded recurse ->
  insideTable node ->
  getRemainingDepth node <> 0 ->
  subscriptsSafely (bestChildPosition recurse maximizing node pvMove alphaBeta) st.
Proof.
  intros Hrec Hnode Hnotdone. pose proof Hnode as (Hlevel & Hremaining & Hsum).
  unfold bestChildPosition.
  apply safely_bind; [apply safely_killerEntriesAt; lia|].
  intros entries st1 _.
  apply safely_bind; [apply safely_pure, avoids_getMovePriorities, searchFault_table|].
  intros mps st2 Hmps. apply pure_Ok, getMovePriorities_depths in Hmps as [Hpositive Hmps].
  apply safely_bind.
  { apply safely_unchanged; [discriminate | intros ? ? [= _ <-]; reflexivity]. }
  intros helper st3 _.
  apply safely_bind.
  { destruct (helper && _); [|apply safely_yield].
    apply safely_unchanged; unfold shuffleWithUrbg; destruct (shuffle _ _);
      [discriminate | intros ? ? [= _ <-]; reflexivity]. }
  intros shuffled st4 Hshuffled.
  assert (Hshuffle : Forall (depthWithin (getRemainingDepth node - 1)) shuffled).
  { destruct (helper && _).
    - unfold shuffleWithUrbg in Hshuffled.
      pose proof (shuffle_Forall _ mps (m_urbg (self st3)) Hmps) as Hlaw.
      destruct (shuffle mps (m_urbg (self st3))) as [l g]. injection Hshuffled as <- _.
      exact Hlaw.
    - unfold yield in Hshuffled. injection Hshuffled as <- _. exact Hmps. }
  apply safely_bind; [|intros; apply safely_finishNode].
  apply safely_searchChildren; [exact Hrec | exact Hnode | lia | exact Hshuffle].
Qed.

Lemma safely_consultTable (node : Node) (alphaBeta : AlphaBeta) (st : SearchState) :
  subscriptsSafely (consultTable node alphaBeta) st.
Proof.
  apply safely_unchanged.
  - pose proof (hasFuel_consultTable node alphaBeta st) as Hfuel.
    unfold consultTable, helperFlag, loadStopRequested, lookupEntry, yield, mbind,
      Search_bind. simpl.
    destruct (negb _ && _); [destruct (getPositionEntry _ _ _)|]; discriminate.
  - unfold consultTable, helperFlag, loadStopRequested, lookupEntry, yield, mbind,
      Search_bind. simpl.
    intros a st'.
    destruct (negb _ && _); [destruct (getPositionEntry _ _ _)|];
      intros [= _ <-]; reflexivity.
Qed.

(** A search whose levels stay inside the killer-move table never
    subscripts the table out of bounds. *)
Lemma tryShortCircuit_subscripts_safely (fuel : nat) : guarded (tryShortCircuit fuel).
Proof.
  induction fuel as [|fuel IH]; intros maximizing node alphaBeta st Hnode;
    rewrite tryShortCircuit_unfold;
    (case_bool_decide; [apply safely_yield|]);
    (destruct (3 <=? _); [apply safely_yield|]);
    (apply safely_bind;
     [apply safely_unchanged; [discriminate | intros ? ? [= _ <-]; reflexivity]|];
     intros stop st1 _);
    (destruct stop; [apply safely_yield|]);
    (apply safely_bind; [apply safely_consultTable|]);
    intros [r | pv window] st2 _; try apply safely_yield;
    unfold continueSearch; destruct (isDone node) eqn:Hdone; try apply safely_yield.
  - intros _. split; discriminate.
  - apply safely_bestChildPosition; [exact IH | exact Hnode|].
    unfold isDone in Hdone. comparisons. exact Hdone.
Qed.

Lemma safely_startAlphaBetaSearch (maximizing : bool) (pos : Position) (d : Z)
    (repetitionMap : RepetitionMap) (st : SearchState) :
  0 <= d <= Z.of_nat MAX_DEPTH ->
  subscriptsSafely (startAlphaBetaSearch maximizing pos d repetitionMap) st.
Proof.
  intros Hd. apply tryShortCircuit_subscripts_safely.
  unfold insideTable. cbn [getLevel getRemainingDepth Node_root]. lia.
Qed.

Lemma safely_warmUp (maximizing : bool) (pos : Position) (repetitionMap : RepetitionMap)
    (iterDepths : list Z) (st : SearchState) :
  Forall (fun d => 0 <= d <= Z.of_nat MAX_DEPTH) iterDepths ->
  subscriptsSafely (warmUp maximizing pos repetitionMap iterDepths) st.
Proof.
  intros Hdepths. revert st.
  induction Hdepths as [|d rest Hd _ IH]; intros st; cbn [warmUp]; [apply safely_yield|].
  apply safely_bind; [apply safely_startAlphaBetaSearch; exact Hd|].
  intros r st1 _. apply IH.
Qed.

(** A searcher of depth at most [MAX_DEPTH] stays inside its killer-move
    table. *)
Lemma safely_searcherCall (pos : Position) (repetitionMap : RepetitionMap)
    (st : SearchState) :
  0 <= depth (self st) <= Z.of_nat MAX_DEPTH ->
  subscriptsSafely (searcherCall pos repetitionMap) st.
Proof.
  intros Hdepth. unfold searcherCall, iterativeDeepening.
  assert (Hwarm : Forall (fun d => 0 <= d <= Z.of_nat MAX_DEPTH)
                    (seqZ 1 (depth (self st) - 1))).
  { apply list.Forall_forall. intros d Hd. apply elem_of_seqZ in Hd. lia. }
  destruct (isWhite pos);
    (apply safely_bind; [apply safely_warmUp; exact Hwarm|];
     intros u st1 _; apply safely_startAlphaBetaSearch; exact Hdepth).
Qed.

(** *** The coordinator *)

Lemma runSearchers_avoids (f : Fault) (pos : Position) (repetitionMap : RepetitionMap)
    (pending : list Searcher) (tt : PositionTable) (n : nat) :
  Forall (fun s => forall tt n,
              searcherCall pos repetitionMap (mkSearchState s tt n) <> Failed f) pending ->
  avoids f (runSearchers pos repetitionMap pending tt n).
Proof.
  intros Hcalls. revert tt n.
  induction Hcalls as [|s rest Hs _ IH]; intros tt n; cbn [runSearchers]; [discriminate|].
  apply avoids_bind; [apply Hs|].
  intros [candidate st] _. apply avoids_bind; [apply IH|].
  intros [candidates final] _. discriminate.
Qed.

Lemma findBestMoveImpl_avoids (f : Fault) (state : AsyncSearchState) (pos : Position)
    (d : Z) (repetitionMap : RepetitionMap) :
  searchFault f ->
  (1 <= d ->
   Forall (fun s => forall tt n,
               searcherCall pos repetitionMap (mkSearchState s tt n) <> Failed f)
          (imap (fun k s => withDepth s (staggeredDepth d k (isHelper s)))
                (searchers state))) ->
  findBestMoveImpl state pos d repetitionMap <> Failed f.
Proof.
  intros Hf Hcalls. unfold findBestMoveImpl.
  apply avoids_bind; [apply avoids_assignDepths; exact Hf|].
  intros assigned Hassigned.
  assert (Hd : 1 <= d).
  { unfold assignDepths in Hassigned.
    apply Checked_bind_Ok in Hassigned as (u & Hassert & _).
    apply zAssert_Ok in Hassert. comparisons. exact Hassert. }
  rewrite assignDepths_Ok in Hassigned by exact Hd. injection Hassigned as <-.
  apply avoids_bind; [apply runSearchers_avoids, Hcalls, Hd|].
  intros [candidates state'] _.
  apply avoids_bind; [apply avoids_chooseMove; exact Hf | discriminate].
Qed.

(** X22.  The coordinator never fails for lack of fuel: the fuel the model gives a
    search, its depth, is enough, so a dispatch ends with a move, with "no
    move", or with a fault of the program itself. *)
Lemma findBestMoveImpl_has_fuel (state : AsyncSearchState) (pos : Position) (d : Z)
    (repetitionMap : RepetitionMap) :
  findBestMoveImpl state pos d repetitionMap <> Failed FuelExhausted.
Proof.
  apply findBestMoveImpl_avoids; [apply searchFault_fuel|].
  intros Hd. apply list.Forall_forall. intros s Hs. apply elem_of_lookup_imap in Hs.
  destruct Hs as (i & s0 & -> & _). intros tt n.
  apply searcherCall_has_fuel. cbn [self depth withDepth].
  pose proof (staggeredDepth_at_least_one d i (isHelper s0) Hd). lia.
Qed.

(** X23.  A dispatch of depth at most [MAX_DEPTH], by searchers whose killer-move
    tables have their [MAX_DEPTH] rows, never subscripts a killer-move table
    out of bounds. *)
Lemma findBestMoveImpl_within_killer_table (state : AsyncSearchState) (pos : Position)
    (d : Z) (repetitionMap : RepetitionMap) :
  d <= Z.of_nat MAX_DEPTH ->
  Forall (fun s => length (m_killerMoves s) = MAX_DEPTH) (searchers state) ->
  findBestMoveImpl state pos d repetitionMap <> Failed (IndexOutOfBounds KillerMoveTable).
Proof.
  intros Hmax Hintact. apply findBestMoveImpl_avoids; [apply searchFault_table|].
  intros Hd. apply list.Forall_forall. intros s Hs. apply elem_of_lookup_imap in Hs.
  destruct Hs as (i & s0 & -> & Hs0). intros tt n.
  pose proof (staggeredDepth_at_least_one d i (isHelper s0) Hd) as Hdepth.
  apply safely_searcherCall.
  - cbn [self depth withDepth]. lia.
  - unfold tableIntact. cbn [self m_killerMoves withDepth].
    exact (Forall_lookup_1 _ _ _ _ Hintact Hs0).
Qed.

End WithLaws.
End FuelIsEnough.

(** The routines of the line game obey the laws. *)
Lemma LineGame_insertByExchange_Forall (P : MovePriority -> Prop) (p : MovePriority)
    (l : list MovePriority) :
  P p -> Forall P l -> Forall P (LineGame.insertByExchange p l).
Proof.
  intros Hp. induction 1 as [|q l Hq Hl IH]; simpl.
  - constructor; [exact Hp | constructor].
  - destruct (Rating_ltb _ _); repeat constructor; assumption.
Qed.

#[global] Instance LineGame_laws (stops : nat -> bool) : @LibraryLaws (LineGame.game stops).
Proof.
  split; simpl.
  - intros P l. unfold LineGame.insertionSort. induction 1 as [|p l Hp _ IH]; simpl.
    + constructor.
    + apply LineGame_insertByExchange_Forall; assumption.
  - intros P f l Hl. apply List_partition_Forall. exact Hl.
  - intros P l g Hl. exact Hl.
Qed.

(** ** Chess.SafeInt: the remaining operators *)

Lemma SafeUnsigned_truncate_small (v : Z) :
  SafeUnsigned.inRange v -> SafeUnsigned.truncate v = v.
Proof.
  unfold SafeUnsigned.inRange, SafeUnsigned.MAX_VALUE, SafeUnsigned.truncate.
  intros Hv. apply Z.mod_small. lia.
Qed.

Lemma SafeUnsigned_truncate_range (v : Z) :
  SafeUnsigned.inRange (SafeUnsigned.truncate v).
Proof.
  unfold SafeUnsigned.inRange, SafeUnsigned.MAX_VALUE, SafeUnsigned.truncate.
  pose proof (Z.mod_pos_bound v 256 ltac:(lia)). lia.
Qed.

(** A property checked on each of the 256 values holds for every value in
    range. *)
Lemma SafeUnsigned_each_value (P : Z -> bool) (v : Z) :
  forallb P (seqZ 0 256) = true -> SafeUnsigned.inRange v -> P v = true.
Proof.
  intros Hall Hv. rewrite forallb_forall in Hall. apply Hall.
  apply list_elem_of_In, elem_of_seqZ.
  unfold SafeUnsigned.inRange, SafeUnsigned.MAX_VALUE in Hv. lia.
Qed.

(** The guard of the product, [MAX_VALUE / a >= b], is exact. *)
Lemma SafeUnsigned_mul_Ok (a b : Z) :
  SafeUnsigned.inRange a -> SafeUnsigned.inRange b ->
  SafeUnsigned.mul a b = (if a * b <=? 255 then Ok (a * b) else Failed AssertionFailed).
Proof.
  unfold SafeUnsigned.inRange, SafeUnsigned.MAX_VALUE. intros Ha Hb.
  unfold SafeUnsigned.mul, SafeUnsigned.MAX_VALUE.
  destruct (a =? 0) eqn:Hzero; comparisons; simpl.
  - subst a. simpl. reflexivity.
  - assert (Hexact : b <= 255 / a <-> a * b <= 255).
    { split; intros Hle.
      - pose proof (Z.mul_div_le 255 a ltac:(lia)). nia.
      - apply Z.div_le_lower_bound; lia. }
    destruct (a * b <=? 255) eqn:Hfits; comparisons.
    + rewrite zAssert_true by (apply Z.leb_le, Hexact; lia). simpl.
      rewrite SafeUnsigned_truncate_small; [reflexivity|].
      unfold SafeUnsigned.inRange, SafeUnsigned.MAX_VALUE. nia.
    + replace (b <=? 255 / a) with false; [reflexivity|].
      symmetry. apply Z.leb_gt. lia.
Qed.

(** X1.  Addition, subtraction, multiplication, increment, decrement and the
    conversion from a wider integer either return the exact mathematical
    result or fail their assertion; none of them wraps around.  The test
    [MAX_VALUE / a >= b] of the product is exact. *)
Theorem SafeUnsigned_arithmetic_never_wraps (a b : Z) :
  SafeUnsigned.inRange a -> SafeUnsigned.inRange b ->
  SafeUnsigned.add a b = (if a + b <=? 255 then Ok (a + b) else Failed AssertionFailed) /\
  SafeUnsigned.sub a b = (if b <=? a then Ok (a - b) else Failed AssertionFailed) /\
  SafeUnsigned.mul a b = (if a * b <=? 255 then Ok (a * b) else Failed AssertionFailed) /\
  SafeUnsigned.incr a = (if a <? 255 then Ok (a + 1) else Failed AssertionFailed) /\
  SafeUnsigned.decr a = (if 0 <? a then Ok (a - 1) else Failed AssertionFailed) /\
  forall v : Z,
    SafeUnsigned.convertImpl v
    = (if (0 <=? v) && (v <=? 255) then Ok v else Failed AssertionFailed).
Proof.
  unfold SafeUnsigned.inRange, SafeUnsigned.MAX_VALUE. intros Ha Hb.
  split; [|split; [|split; [|split; [|split]]]].
  - unfold SafeUnsigned.add, SafeUnsigned.MAX_VALUE.
    destruct (a + b <=? 255) eqn:Hfits; comparisons.
    + rewrite zAssert_true by lia. reflexivity.
    + replace (b <=? 255 - a) with false by (symmetry; apply Z.leb_gt; lia). reflexivity.
  - unfold SafeUnsigned.sub. destruct (b <=? a); reflexivity.
  - apply SafeUnsigned_mul_Ok; assumption.
  - unfold SafeUnsigned.incr, SafeUnsigned.MAX_VALUE.
    destruct (a <? 255) eqn:Hlt; comparisons.
    + rewrite zAssert_true by lia. reflexivity.
    + replace (0 <? 255 - a) with false by (symmetry; apply Z.ltb_ge; lia). reflexivity.
  - unfold SafeUnsigned.decr. destruct (0 <? a); reflexivity.
  - intros v. unfold SafeUnsigned.convertImpl, SafeUnsigned.MAX_VALUE.
    destruct ((0 <=? v) && (v <=? 255)) eqn:Hfits; simpl; [|reflexivity].
    comparisons. rewrite SafeUnsigned_truncate_small; [reflexivity|].
    unfold SafeUnsigned.inRange, SafeUnsigned.MAX_VALUE. lia.
Qed.

(** The largest product that fits, and the smallest that does not. *)
Lemma SafeUnsigned_arithmetic_never_wraps_witness :
  SafeUnsigned.mul 15 17 = Ok 255 /\ SafeUnsigned.mul 16 16 = Failed AssertionFailed.
Proof.
  destruct (SafeUnsigned_arithmetic_never_wraps 15 17) as (_ & _ & Hfits & _);
    [unfold SafeUnsigned.inRange, SafeUnsigned.MAX_VALUE; lia ..|].
  destruct (SafeUnsigned_arithmetic_never_wraps 16 16) as (_ & _ & Hwraps & _);
    [unfold SafeUnsigned.inRange, SafeUnsigned.MAX_VALUE; lia ..|].
  split; [exact Hfits | exact Hwraps].
Defined.

(** X2.  Quotient and remainder fail their assertion on a zero divisor and
    otherwise are the Euclidean ones: the remainder is below the divisor, and
    multiplying the quotient back and adding the remainder returns the
    dividend without tripping an assertion on the way. *)
Theorem SafeUnsigned_div_rem_recompose (a b : Z) :
  SafeUnsigned.inRange a -> SafeUnsigned.inRange b ->
  (b = 0 ->
   SafeUnsigned.div a b = Failed AssertionFailed /\
   SafeUnsigned.rem a b = Failed AssertionFailed) /\
  (b <> 0 ->
   exists q r,
     SafeUnsigned.div a b = Ok q /\ SafeUnsigned.rem a b = Ok r /\
     0 <= q <= a /\ 0 <= r < b /\
     (qb ← SafeUnsigned.mul q b; SafeUnsigned.add qb r) = Ok a).
Proof.
  unfold SafeUnsigned.inRange, SafeUnsigned.MAX_VALUE. intros Ha Hb. split.
  - intros ->. split; reflexivity.
  - intros Hne. exists (a / b), (a mod b).
    pose proof (Z.mod_pos_bound a b ltac:(lia)) as Hrem.
    pose proof (Z.div_mod a b Hne) as Hdiv.
    assert (Hq : 0 <= a / b <= a).
    { split; [apply Z.div_pos; lia|]. apply Z.div_le_upper_bound; [lia | nia]. }
    unfold SafeUnsigned.div, SafeUnsigned.rem.
    rewrite zAssert_true by (apply negb_true_iff, Z.eqb_neq; exact Hne). simpl.
    rewrite SafeUnsigned_truncate_small
      by (unfold SafeUnsigned.inRange, SafeUnsigned.MAX_VALUE; lia).
    split; [reflexivity|]. split; [reflexivity|]. split; [exact Hq|]. split; [exact Hrem|].
    rewrite SafeUnsigned_mul_Ok
      by (unfold SafeUnsigned.inRange, SafeUnsigned.MAX_VALUE; lia). replace (a / b * b <=? 255) with true by (symmetry; apply Z.leb_le; nia).
    simpl. apply SafeUnsigned_add_Ok. unfold SafeUnsigned.MAX_VALUE. split; lia.
Qed.

Lemma SafeUnsigned_div_rem_recompose_witness :
  exists q r,
    SafeUnsigned.div 255 7 = Ok q /\ SafeUnsigned.rem 255 7 = Ok r /\
    0 <= q <= 255 /\ 0 <= r < 7 /\
    (qb ← SafeUnsigned.mul q 7; SafeUnsigned.add qb r) = Ok 255.
Proof.
  apply (SafeUnsigned_div_rem_recompose 255 7);
    unfold SafeUnsigned.inRange, SafeUnsigned.MAX_VALUE; lia.
Defined.

(** X3.  [subToMin] is the subtraction that saturates at the floor: it fails
    its assertion when the floor is above the receiver, and otherwise leaves
    the larger of the floor and the difference. *)
Theorem SafeUnsigned_subToMin_saturates (self subbed min : Z) :
  SafeUnsigned.inRange self -> SafeUnsigned.inRange subbed -> SafeUnsigned.inRange min ->
  SafeUnsigned.subToMin self subbed min
  = (if min <=? self then Ok (Z.max min (self - subbed)) else Failed AssertionFailed).
Proof.
  unfold SafeUnsigned.inRange, SafeUnsigned.MAX_VALUE. intros Hself Hsubbed Hmin.
  unfold SafeUnsigned.subToMin.
  destruct (min <=? self) eqn:Hfloor; simpl; [|reflexivity].
  comparisons.
  destruct (self <? subbed) eqn:Hbelow; comparisons.
  - f_equal. lia.
  - unfold SafeUnsigned.sub. rewrite zAssert_true by lia. simpl.
    destruct (self - subbed <? min) eqn:Hdiff; comparisons; f_equal; lia.
Qed.

Lemma SafeUnsigned_subToMin_saturates_witness :
  SafeUnsigned.subToMin 8 20 2 = Ok 2 /\ SafeUnsigned.subToMin 8 3 2 = Ok 5.
Proof.
  split.
  - apply (SafeUnsigned_subToMin_saturates 8 20 2);
      unfold SafeUnsigned.inRange, SafeUnsigned.MAX_VALUE; lia.
  - reflexivity.
Defined.

(** X4.  The shifts fail their assertion for a count of 8 or more; for a
    smaller count the left shift keeps the low eight bits of the product
    with the power of two, the right shift divides by it, and shifting left
    and back keeps the low [8 - s] bits.  The complement is the difference
    to 255 and an involution; a value and its complement share no bit and
    together have all eight. *)
Theorem SafeUnsigned_shifts_and_complement (a : Z) (s : N) :
  SafeUnsigned.inRange a ->
  ((8 <= s)%N ->
   SafeUnsigned.shiftLeft a s = Failed AssertionFailed /\
   SafeUnsigned.shiftRight a s = Failed AssertionFailed) /\
  ((s < 8)%N ->
   SafeUnsigned.shiftLeft a s = Ok ((a * 2 ^ Z.of_N s) mod 256) /\
   SafeUnsigned.shiftRight a s = Ok (a / 2 ^ Z.of_N s) /\
   (SafeUnsigned.shiftLeft a s ≫= fun shifted => SafeUnsigned.shiftRight shifted s)
   = Ok (a mod 2 ^ (8 - Z.of_N s))) /\
  SafeUnsigned.bitNot a = 255 - a /\
  SafeUnsigned.bitNot (SafeUnsigned.bitNot a) = a /\
  SafeUnsigned.bitAnd a (SafeUnsigned.bitNot a) = 0 /\
  SafeUnsigned.bitOr a (SafeUnsigned.bitNot a) = 255.
Proof.
  intros Ha. split; [|split].
  - intros Hs. unfold SafeUnsigned.shiftLeft, SafeUnsigned.shiftRight.
    replace (Z.of_N s <? 8) with false by (symmetry; apply Z.ltb_ge; lia).
    split; reflexivity.
  - intros Hs.
    assert (Hcount : In s [0; 1; 2; 3; 4; 5; 6; 7]%N).
    { assert (s = 0 \/ s = 1 \/ s = 2 \/ s = 3 \/ s = 4 \/ s = 5 \/ s = 6 \/ s = 7)%N
        as Hcases by lia.
      simpl. intuition congruence. }
    pose (shiftsAgree (s : N) (a : Z) :=
            bool_decide
              (SafeUnsigned.shiftLeft a s = Ok ((a * 2 ^ Z.of_N s) mod 256) /\
               SafeUnsigned.shiftRight a s = Ok (a / 2 ^ Z.of_N s) /\
               (SafeUnsigned.shiftLeft a s
                  ≫= fun shifted => SafeUnsigned.shiftRight shifted s)
               = Ok (a mod 2 ^ (8 - Z.of_N s)))).
    assert (Hall : forallb (fun s => forallb (shiftsAgree s) (seqZ 0 256))
                     [0; 1; 2; 3; 4; 5; 6; 7]%N = true) by (vm_compute; reflexivity).
    rewrite forallb_forall in Hall. specialize (Hall s Hcount).
    apply (SafeUnsigned_each_value _ a) in Hall; [|exact Ha].
    apply bool_decide_eq_true in Hall. exact Hall.
  - pose (complements (a : Z) :=
            bool_decide
              (SafeUnsigned.bitNot a = 255 - a /\
               SafeUnsigned.bitNot (SafeUnsigned.bitNot a) = a /\
               SafeUnsigned.bitAnd a (SafeUnsigned.bitNot a) = 0 /\
               SafeUnsigned.bitOr a (SafeUnsigned.bitNot a) = 255)).
    assert (Hall : forallb complements (seqZ 0 256) = true) by (vm_compute; reflexivity).
    apply (SafeUnsigned_each_value _ a) in Hall; [|exact Ha].
    apply bool_decide_eq_true in Hall. exact Hall.
Qed.

Lemma SafeUnsigned_shifts_and_complement_witness :
  SafeUnsigned.shiftLeft 200 3 = Ok 64 /\ SafeUnsigned.bitNot 200 = 55.
Proof.
  destruct (SafeUnsigned_shifts_and_complement 200 3) as (_ & Hshift & Hnot & _);
    [unfold SafeUnsigned.inRange, SafeUnsigned.MAX_VALUE; lia|].
  destruct (Hshift ltac:(lia)) as (Hleft & _).
  split; [exact Hleft | exact Hnot].
Defined.

(** ** Chess.MoveSearch:MovePriority: the subscripts of the log table *)

Section TrimBounds.
Context `{Collaborators}.

Lemma LOG_TABLE_inside (i : Z) :
  0 <= i < MAX_MOVE_COUNT -> exists x, LOG_TABLE i = Ok x.
Proof.
  intros Hi. unfold LOG_TABLE.
  replace ((0 <=? i) && (i <? MAX_MOVE_COUNT)) with true; [eexists; reflexivity|].
  symmetry. apply andb_true_iff. split; [apply Z.leb_le | apply Z.ltb_lt]; lia.
Qed.

Lemma LOG_TABLE_outside (i : Z) :
  MAX_MOVE_COUNT <= i -> LOG_TABLE i = Failed (IndexOutOfBounds Log2Table).
Proof.
  intros Hi. unfold LOG_TABLE.
  replace (i <? MAX_MOVE_COUNT) with false by (symmetry; apply Z.ltb_ge; lia).
  rewrite andb_false_r. reflexivity.
Qed.

(** With both subscripts inside the table, [trim] fails only where the
    conversion of the reduction does, and otherwise takes the reduction off
    the depth plus one, saturating at zero and never exceeding the depth. *)
Lemma trim_inside_table (p : MovePriority) (moveIndex : Z) :
  0 <= getDepth p < 218 -> 0 <= moveIndex < 218 ->
  trim p moveIndex
  = (reduced ← reductionOf (getDepth p) moveIndex;
     Ok (mkMovePriority (getMove p) (getExchangeRating p)
           (Z.min (getDepth p) (Z.max 0 (getDepth p + 1 - reduced))) true)).
Proof.
  unfold getDepth, getMove, getExchangeRating, reductionOf. intros Hdepth Hindex.
  unfold trim, SafeUnsigned.add, SafeUnsigned.MAX_VALUE.
  rewrite !zAssert_true by (apply Z.leb_le; lia). cbn [mbind Checked_bind].
  unfold LOG_TABLE, MAX_MOVE_COUNT.
  replace ((0 <=? m_recommendedDepth p + 1) && (m_recommendedDepth p + 1 <? 219)) with true
    by (symmetry; apply andb_true_iff; split; [apply Z.leb_le | apply Z.ltb_lt]; lia).
  replace ((0 <=? moveIndex + 1) && (moveIndex + 1 <? 219)) with true
    by (symmetry; apply andb_true_iff; split; [apply Z.leb_le | apply Z.ltb_lt]; lia).
  replace (m_recommendedDepth p + 1 =? 0) with false by (symmetry; apply Z.eqb_neq; lia).
  replace (moveIndex + 1 =? 0) with false by (symmetry; apply Z.eqb_neq; lia).
  cbn [mbind Checked_bind].
  destruct (uint8_of_double _) as [reduced|f] eqn:Hreduced; [|reflexivity].
  apply uint8_of_double_range in Hreduced as [Hlo Hhi].
  unfold SafeUnsigned.subToMin.
  rewrite zAssert_true by (apply Z.leb_le; lia). cbn [mbind Checked_bind].
  destruct (m_recommendedDepth p + 1 <? reduced) eqn:Hbelow; comparisons.
  - cbn [mbind Checked_bind]. do 2 f_equal. lia.
  - unfold SafeUnsigned.sub. rewrite zAssert_true by (apply Z.leb_le; lia).
    cbn [mbind Checked_bind].
    destruct (m_recommendedDepth p + 1 - reduced <? 0) eqn:Hneg; comparisons;
      cbn [mbind Checked_bind]; do 2 f_equal; lia.
Qed.

Lemma reductionOf_faults (d moveIndex : Z) (f : Fault) :
  reductionOf d moveIndex = Failed f -> f = ValueNotRepresentable.
Proof.
  unfold reductionOf, uint8_of_double.
  destruct (Prim2SF _) as [s| s | |s m e]; try congruence.
  match goal with |- (if ?c then _ else _) = _ -> _ => destruct c end; congruence.
Qed.

(** X5.  [trim] subscripts the table of logarithms, which has 219 entries,
    at the recommended depth plus one and at the move index plus one.  For an
    eight-bit depth and index it reads past the table exactly when the depth
    is 218 or more, or else the index is; it fails an assertion exactly for a
    depth or index of 255, whose increment does not fit; with both below 218
    the only failure left is a reduction that does not convert to eight
    bits. *)
Theorem trim_reads_log_table_below_218 (p : MovePriority) (moveIndex : Z) :
  SafeUnsigned.inRange (getDepth p) -> SafeUnsigned.inRange moveIndex ->
  (trim p moveIndex = Failed (IndexOutOfBounds Log2Table) <->
   218 <= getDepth p < 255 \/ (getDepth p < 218 /\ 218 <= moveIndex < 255)) /\
  (trim p moveIndex = Failed AssertionFailed <->
   getDepth p = 255 \/ (getDepth p < 218 /\ moveIndex = 255)) /\
  (getDepth p < 218 -> moveIndex < 218 ->
   (exists p', trim p moveIndex = Ok p') \/
   trim p moveIndex = Failed ValueNotRepresentable).
Proof.
  unfold SafeUnsigned.inRange, SafeUnsigned.MAX_VALUE. intros Hdepth Hindex.
  assert (Hinside : getDepth p < 218 -> moveIndex < 218 ->
            (exists p', trim p moveIndex = Ok p') \/
            trim p moveIndex = Failed ValueNotRepresentable).
  { intros Hd Hi. rewrite trim_inside_table by lia.
    destruct (reductionOf (getDepth p) moveIndex) as [reduced|f] eqn:Hreduced.
    - left. eexists. reflexivity.
    - right. apply reductionOf_faults in Hreduced as ->. reflexivity. }
  assert (Hcases : getDepth p = 255 \/ 218 <= getDepth p < 255 \/
                   (getDepth p < 218 /\ moveIndex = 255) \/
                   (getDepth p < 218 /\ 218 <= moveIndex < 255) \/
                   (getDepth p < 218 /\ moveIndex < 218)) by lia.
  assert (Hresult :
            trim p moveIndex
            = (if getDepth p =? 255 then Failed AssertionFailed
               else if 218 <=? getDepth p then Failed (IndexOutOfBounds Log2Table)
               else if moveIndex =? 255 then Failed AssertionFailed
               else if 218 <=? moveIndex then Failed (IndexOutOfBounds Log2Table)
               else trim p moveIndex)).
  { unfold getDepth in *.
    destruct (m_recommendedDepth p =? 255) eqn:Hd255; comparisons.
    { unfold trim, SafeUnsigned.add, SafeUnsigned.MAX_VALUE. rewrite Hd255. reflexivity. }
    destruct (218 <=? m_recommendedDepth p) eqn:Hd218; comparisons.
    { unfold trim, SafeUnsigned.add, SafeUnsigned.MAX_VALUE.
      rewrite zAssert_true by (apply Z.leb_le; lia). cbn [mbind Checked_bind].
      rewrite LOG_TABLE_outside by (unfold MAX_MOVE_COUNT; lia). reflexivity. }
    destruct (LOG_TABLE_inside (m_recommendedDepth p + 1)) as (logDepth & HlogDepth);
      [unfold MAX_MOVE_COUNT; lia|].
    destruct (moveIndex =? 255) eqn:Hi255; comparisons.
    { unfold trim, SafeUnsigned.add, SafeUnsigned.MAX_VALUE.
      rewrite zAssert_true by (apply Z.leb_le; lia). cbn [mbind Checked_bind].
      rewrite HlogDepth. cbn [mbind Checked_bind]. rewrite Hi255. reflexivity. }
    destruct (218 <=? moveIndex) eqn:Hi218; comparisons; [|reflexivity].
    unfold trim, SafeUnsigned.add, SafeUnsigned.MAX_VALUE.
    rewrite !zAssert_true by (apply Z.leb_le; lia). cbn [mbind Checked_bind].
    rewrite HlogDepth. cbn [mbind Checked_bind].
    rewrite LOG_TABLE_outside by (unfold MAX_MOVE_COUNT; lia). reflexivity. }
  split; [|split; [|exact Hinside]].
  - split.
    + intros Hfault. rewrite Hfault in Hresult.
      destruct (getDepth p =? 255) eqn:Hd255; [discriminate|].
      destruct (218 <=? getDepth p) eqn:Hd218; comparisons; [lia|].
      destruct (moveIndex =? 255) eqn:Hi255; [discriminate|].
      destruct (218 <=? moveIndex) eqn:Hi218; comparisons; [lia|].
      destruct (Hinside ltac:(lia) ltac:(lia)) as [(p' & Hok) | Hconv]; congruence.
    + intros [Hd | [Hd Hi]]; rewrite Hresult.
      * replace (getDepth p =? 255) with false by (symmetry; apply Z.eqb_neq; lia).
        replace (218 <=? getDepth p) with true by (symmetry; apply Z.leb_le; lia).
        reflexivity.
      * replace (getDepth p =? 255) with false by (symmetry; apply Z.eqb_neq; lia).
        replace (218 <=? getDepth p) with false by (symmetry; apply Z.leb_gt; lia).
        replace (moveIndex =? 255) with false by (symmetry; apply Z.eqb_neq; lia).
        replace (218 <=? moveIndex) with true by (symmetry; apply Z.leb_le; lia).
        reflexivity.
  - split.
    + intros Hfault. rewrite Hfault in Hresult.
      destruct (getDepth p =? 255) eqn:Hd255; comparisons; [lia|].
      destruct (218 <=? getDepth p) eqn:Hd218; comparisons; [discriminate|].
      destruct (moveIndex =? 255) eqn:Hi255; comparisons; [lia|].
      destruct (218 <=? moveIndex) eqn:Hi218; comparisons; [discriminate|].
      destruct (Hinside ltac:(lia) ltac:(lia)) as [(p' & Hok) | Hconv]; congruence.
    + intros [Hd | [Hd Hi]]; rewrite Hresult.
      * replace (getDepth p =? 255) with true by (symmetry; apply Z.eqb_eq; lia).
        reflexivity.
      * replace (getDepth p =? 255) with false by (symmetry; apply Z.eqb_neq; lia).
        replace (218 <=? getDepth p) with false by (symmetry; apply Z.leb_gt; lia).
        replace (moveIndex =? 255) with true by (symmetry; apply Z.eqb_eq; lia).
        reflexivity.
Qed.

End TrimBounds.

(** A move whose child would be searched 218 plies deep, as the pondering
    search of 255 plies produces them near its root. *)
Lemma trim_reads_log_table_below_218_witness :
  @trim LineGame.undisturbed (mkMovePriority LineGame.advance 0%Q 218 false) 4
  = Failed (IndexOutOfBounds Log2Table).
Proof.
  apply (@trim_reads_log_table_below_218 LineGame.undisturbed
           (mkMovePriority LineGame.advance 0%Q 218 false) 4);
    unfold SafeUnsigned.inRange, SafeUnsigned.MAX_VALUE, getDepth; simpl; lia.
Defined.

(** ** Chess.MoveSearch:MoveOrdering *)

Section OrderingFacts.
Context `{Collaborators}.

Lemma findIndex_Some {A} (f : A -> bool) (l : list A) (k : nat) :
  findIndex f l = Some k -> exists x, l !! k = Some x /\ f x = true.
Proof.
  revert k. induction l as [|x l IH]; intros k; simpl; [discriminate|].
  destruct (f x) eqn:Hx.
  - intros [= <-]. exists x. split; [reflexivity | exact Hx].
  - destruct (findIndex f l) as [k'|]; simpl; [|discriminate].
    intros [= <-]. exact (IH k' eq_refl).
Qed.

Lemma findIndex_None {A} (f : A -> bool) (l : list A) :
  findIndex f l = None -> Forall (fun x => f x = false) l.
Proof.
  induction l as [|x l IH]; simpl; [constructor|].
  destruct (f x) eqn:Hx; [discriminate|].
  destruct (findIndex f l); simpl; [discriminate|].
  intros _. constructor; [exact Hx | apply IH; reflexivity].
Qed.

Lemma swapWithFront_Permutation {A} (k : nat) (l : list A) :
  Permutation (swapWithFront k l) l.
Proof.
  destruct k as [|k], l as [|x l]; simpl; try reflexivity.
  destruct (l !! k) as [y|] eqn:Hy; [|reflexivity].
  rewrite insert_take_drop by (eapply lookup_lt_Some; exact Hy).
  rewrite <- (take_drop_middle l k y Hy) at 3.
  rewrite <- !Permutation_middle. apply perm_swap.
Qed.

Lemma swapWithFront_head {A} (k : nat) (l : list A) (x : A) :
  l !! k = Some x -> exists rest, swapWithFront k l = x :: rest.
Proof.
  destruct k as [|k], l as [|y l]; simpl; try discriminate.
  - intros [= ->]. eexists. reflexivity.
  - intros Hx. rewrite Hx. eexists. reflexivity.
Qed.

(** [movePVMoveToFront]: the two ranges together are the moves given; the
    first holds at most the PV move. *)
Lemma movePVMoveToFront_spec (priorities pv nonPV : list MovePriority) (pvMove : Move) :
  movePVMoveToFront priorities pvMove = (pv, nonPV) ->
  Permutation (pv ++ nonPV) priorities /\
  (pv = [] \/ exists p, pv = [p] /\ getMove p = pvMove /\ pvMove <> Move_null) /\
  (pvMove <> Move_null -> Exists (fun p => getMove p = pvMove) priorities -> pv <> []).
Proof.
  unfold movePVMoveToFront. case_bool_decide as Hnull.
  - destruct (findIndex _ priorities) as [k|] eqn:Hfind.
    + apply findIndex_Some in Hfind as (p & Hp & Hmove).
      apply bool_decide_eq_true in Hmove.
      destruct (swapWithFront_head k priorities p Hp) as (rest & Hswap).
      pose proof (swapWithFront_Permutation k priorities) as Hperm.
      rewrite Hswap in *. intros [= <- <-].
      split; [exact Hperm|]. split; [|discriminate].
      right. exists p. split; [reflexivity|]. split; assumption.
    + intros [= <- <-]. split; [reflexivity|]. split; [left; reflexivity|].
      intros _ Hsome. apply findIndex_None in Hfind. exfalso.
      apply Exists_exists in Hsome as (p & Hin & Hp).
      rewrite list.Forall_forall in Hfind. specialize (Hfind p Hin).
      apply bool_decide_eq_false in Hfind. contradiction.
  - intros [= <- <-]. split; [reflexivity|]. split; [left; reflexivity|].
    intros Hne. contradiction.
Qed.

Lemma List_partition_spec {A} (f : A -> bool) (l yes no : list A) :
  List.partition f l = (yes, no) ->
  Permutation (yes ++ no) l /\
  Forall (fun x => f x = true) yes /\ Forall (fun x => f x = false) no.
Proof.
  revert yes no. induction l as [|x l IH]; intros yes no; simpl.
  - intros [= <- <-]. split; [reflexivity | split; constructor].
  - destruct (List.partition f l) as [yes' no'].
    destruct (IH yes' no' eq_refl) as (Hperm & Hyes & Hno).
    destruct (f x) eqn:Hx; intros [= <- <-].
    + split; [simpl; constructor; exact Hperm|]. split; [constructor; assumption | exact Hno].
    + split; [rewrite <- Permutation_middle; constructor; exact Hperm|].
      split; [exact Hyes | constructor; assumption].
Qed.

(** [orderCapturesAndEvasionsFirst]: the moves moved to the front capture or
    evade for one of the targets, the moves left behind for none. *)
Lemma partitionByTargets_spec (pos : Position) (targets : list PieceData)
    (front ret front' rest : list MovePriority) :
  partitionByTargets pos targets front ret = (front', rest) ->
  exists chosen,
    front' = front ++ chosen /\
    Permutation (chosen ++ rest) ret /\
    Forall (fun p => Exists (fun t => capturesOrEvades pos t p = true) targets) chosen /\
    Forall (fun p => Forall (fun t => capturesOrEvades pos t p = false) targets) rest.
Proof.
  revert front ret. induction targets as [|t targets IH]; intros front ret; simpl.
  - intros [= <- <-]. exists []. rewrite app_nil_r.
    split; [reflexivity|]. split; [reflexivity|]. split; [constructor|].
    apply list.Forall_forall. intros p _. constructor.
  - destruct (List.partition (capturesOrEvades pos t) ret) as [yes no] eqn:Hpart.
    apply List_partition_spec in Hpart as (Hperm & Hyes & Hno).
    intros Hrest. apply IH in Hrest as (chosen & -> & Hperm' & Hchosen & Hrest).
    exists (yes ++ chosen). split; [rewrite app_assoc; reflexivity|].
    split; [rewrite <- Hperm, <- app_assoc, Hperm'; reflexivity|].
    split.
    + apply Forall_app. split.
      * eapply Forall_impl; [exact Hyes|]. intros p Hp. left. exact Hp.
      * eapply Forall_impl; [exact Hchosen|]. intros p Hp. right. exact Hp.
    + assert (Hno' : Forall (fun p => capturesOrEvades pos t p = false) rest).
      { rewrite list.Forall_forall in Hno |- *. intros p Hp. apply Hno.
        rewrite <- Hperm'. apply elem_of_app. right. exact Hp. }
      rewrite list.Forall_forall in Hno', Hrest |- *. intros p Hp.
      constructor; [apply Hno' | apply Hrest]; exact Hp.
Qed.

(** The priority the constructor makes for a move of a node with
    [remainingDepth] plies left. *)
Lemma makePriorities_Ok (allEnemy : Bitboard) (remainingDepth : Z) (moves : list Move)
    (priorities : list MovePriority) :
  makePriorities allEnemy remainingDepth moves = Ok priorities ->
  priorities = map (freshPriority allEnemy remainingDepth) moves.
Proof.
  revert priorities. induction moves as [|m moves IH]; intros priorities; simpl.
  - intros [= <-]. reflexivity.
  - unfold MovePriority_ordered. intros Hmake. checked_inv.
    match goal with Hs : SafeUnsigned.sub _ _ = Ok _ |- _ =>
      apply SafeUnsigned_sub_Ok in Hs as [_ ->] end.
    subst. f_equal. apply IH. assumption.
Qed.

Lemma makePriorities_returns (allEnemy : Bitboard) (remainingDepth : Z) (moves : list Move) :
  1 <= remainingDepth ->
  makePriorities allEnemy remainingDepth moves
  = Ok (map (freshPriority allEnemy remainingDepth) moves).
Proof.
  intros Hdepth. induction moves as [|m moves IH]; simpl; [reflexivity|].
  unfold MovePriority_ordered, SafeUnsigned.sub.
  rewrite zAssert_true by (apply Z.leb_le; lia). cbn [mbind Checked_bind].
  rewrite IH. reflexivity.
Qed.

Lemma trimFrom_Ok (offset : Z) (l l' : list MovePriority) :
  Forall (fun p => 0 <= getDepth p) l ->
  trimFrom offset l = Ok l' -> Forall2 trimmedFrom l l'.
Proof.
  intros Hdepths. revert offset l'.
  induction Hdepths as [|p l Hp _ IH]; intros offset l'; simpl.
  - intros [= <-]. constructor.
  - intros Htrim. checked_inv. subst.
    match goal with Ht : trim _ _ = Ok _ |- _ =>
      apply trim_Ok in Ht as (subbed & Hsubbed & ->) end.
    constructor; [|eapply IH; eassumption].
    unfold trimmedFrom, getMove, getExchangeRating, isTrimmed, getDepth in *. simpl.
    repeat split; lia.
Qed.

Lemma killer_predicate (killerMoves : list Move) (p : MovePriority) :
  existsb (fun move => Move_eqb move (getMove p)) killerMoves = true
  <-> In (getMove p) killerMoves.
Proof.
  rewrite existsb_exists. split.
  - intros (m & Hin & Heq). apply bool_decide_eq_true in Heq. subst. exact Hin.
  - intros Hin. exists (getMove p). split; [exact Hin | apply bool_decide_eq_true; reflexivity].
Qed.

Section WithOrderingLaws.
Context `{!OrderingLaws}.

(** The four ranges [getMovePrioritiesImpl] arranges: the PV move, the
    captures and evasions, the killer moves, and the moves left for
    trimming. *)
Lemma getMovePriorities_Ok (node : Node) (pvMove : Move) (killerMoves : list Move)
    (priorities : list MovePriority) :
  getMovePriorities node pvMove killerMoves = Ok priorities ->
  let pos := getPos node in
  let allEnemy := allEnemySquares pos in
  let targets := getTargets pos allEnemy in
  exists pv material killers bad bad',
    priorities = pv ++ material ++ killers ++ bad' /\
    1 <= getRemainingDepth node /\
    Permutation (pv ++ material ++ killers ++ bad)
      (map (freshPriority allEnemy (getRemainingDepth node)) (legalMoves pos)) /\
    (pv = [] \/ exists p, pv = [p] /\ getMove p = pvMove /\ pvMove <> Move_null) /\
    (pvMove <> Move_null -> In pvMove (legalMoves pos) -> pv <> []) /\
    Forall (fun p => Exists (fun t => capturesOrEvades pos t p = true) targets) material /\
    Forall (fun p => In (getMove p) killerMoves) killers /\
    Forall (fun p => Forall (fun t => capturesOrEvades pos t p = false) targets /\
                     ~ In (getMove p) killerMoves) bad /\
    (if getRemainingDepth node =? 1 then bad' = bad else Forall2 trimmedFrom bad bad').
Proof.
  intros Hget pos allEnemy targets. unfold getMovePriorities, getMovePrioritiesImpl in Hget.
  apply Checked_bind_Ok in Hget as (u & Hpositive & Hget).
  apply zAssert_Ok in Hpositive. comparisons.
  apply Checked_bind_Ok in Hget as (made & Hmade & Hget).
  apply makePriorities_Ok in Hmade. fold pos allEnemy in Hmade.
  destruct (movePVMoveToFront (sortByExchangeRating made) pvMove) as [pv nonPV] eqn:Hpv.
  apply movePVMoveToFront_spec in Hpv as (Hperm1 & Hhead & Hfound).
  destruct (orderCapturesAndEvasionsFirst node (allEnemySquares (getPos node)) nonPV)
    as [material nonMaterial] eqn:Hmaterial.
  unfold orderCapturesAndEvasionsFirst in Hmaterial.
  apply partitionByTargets_spec in Hmaterial as (chosen & Hchosen & Hperm2 & Hcaptures & Hquiet).
  simpl in Hchosen. subst material.
  destruct (orderKillerMovesFirst killerMoves nonMaterial) as [killers bad] eqn:Hkillers.
  unfold orderKillerMovesFirst in Hkillers.
  pose proof (partition_Permutation
                (fun priority => existsb (fun move => Move_eqb move (getMove priority)) killerMoves)
                nonMaterial) as Hperm3.
  pose proof (partition_selects
                (fun priority => existsb (fun move => Move_eqb move (getMove priority)) killerMoves)
                nonMaterial) as [Hyes Hno].
  rewrite Hkillers in Hperm3, Hyes, Hno. simpl in Hperm3, Hyes, Hno.
  apply Checked_bind_Ok in Hget as (childDepth & HchildDepth & Hget).
  apply SafeUnsigned_sub_Ok in HchildDepth as [_ ->].
  apply Checked_bind_Ok in Hget as (bad' & Hbad' & Hget).
  apply Checked_bind_Ok in Hget as (u' & _ & Hget). injection Hget as <-.
  assert (Hall : Permutation (pv ++ chosen ++ killers ++ bad)
                   (map (freshPriority allEnemy (getRemainingDepth node)) (legalMoves pos))).
  { rewrite Hperm3, Hperm2, Hperm1, sort_Permutation, Hmade. reflexivity. }
  exists pv, chosen, killers, bad, bad'.
  split; [reflexivity|]. split; [lia|]. split; [exact Hall|]. split; [exact Hhead|].
  split.
  { intros Hne Hin. apply Hfound; [exact Hne|].
    apply Exists_exists. exists (freshPriority allEnemy (getRemainingDepth node) pvMove).
    split; [|reflexivity].
    rewrite sort_Permutation, Hmade. apply list_elem_of_In, in_map, Hin. }
  split; [exact Hcaptures|].
  split; [eapply Forall_impl; [exact Hyes|]; intros p Hp; apply killer_predicate, Hp|].
  split.
  { rewrite list.Forall_forall in Hno, Hquiet |- *. intros p Hp. split.
    - apply Hquiet. rewrite <- Hperm3. apply elem_of_app. right. exact Hp.
    - intros Hin. apply killer_predicate in Hin. specialize (Hno p Hp). simpl in Hno.
      congruence. }
  destruct (getRemainingDepth node =? 1) eqn:Hone; comparisons.
  - replace (getRemainingDepth node - 1 =? 0) with true in Hbad'
      by (symmetry; apply Z.eqb_eq; lia).
    simpl in Hbad'. injection Hbad' as <-. reflexivity.
  - replace (getRemainingDepth node - 1 =? 0) with false in Hbad'
      by (symmetry; apply Z.eqb_neq; lia).
    simpl in Hbad'. eapply trimFrom_Ok; [|exact Hbad'].
    rewrite list.Forall_forall. intros p Hp.
    assert (Hfresh : p ∈ map (freshPriority allEnemy (getRemainingDepth node)) (legalMoves pos)).
    { rewrite <- Hall. rewrite !elem_of_app. auto. }
    apply list_elem_of_In, in_map_iff in Hfresh as (m & <- & _).
    unfold getDepth, freshPriority. simpl. lia.
Qed.

Lemma trimmedFrom_moves (l l' : list MovePriority) :
  Forall2 trimmedFrom l l' -> map getMove l' = map getMove l.
Proof.
  induction 1 as [|p p' l l' (Hmove & _) _ IH]; simpl; [reflexivity|].
  rewrite Hmove, IH. reflexivity.
Qed.

Lemma freshPriority_In (allEnemy : Bitboard) (remainingDepth : Z) (moves : list Move)
    (l : list MovePriority) (p : MovePriority) :
  Permutation l (map (freshPriority allEnemy remainingDepth) moves) ->
  p ∈ l ->
  In (getMove p) moves /\ p = freshPriority allEnemy remainingDepth (getMove p).
Proof.
  intros Hperm Hp. rewrite Hperm in Hp.
  apply list_elem_of_In, in_map_iff in Hp as (m & <- & Hm).
  split; [exact Hm | reflexivity].
Qed.

Lemma getMovePriorities_moves (node : Node) (pvMove : Move) (killerMoves : list Move)
    (priorities : list MovePriority) :
  getMovePriorities node pvMove killerMoves = Ok priorities ->
  Permutation (map getMove priorities) (legalMoves (getPos node)).
Proof.
  intros Hget.
  apply getMovePriorities_Ok in Hget
    as (pv & material & killers & bad & bad' & -> & Hdepth & Hperm & _ & _ & _ & _ & _ & Hbad').
  assert (Hmoves : map getMove bad' = map getMove bad).
  { destruct (getRemainingDepth node =? 1); [subst; reflexivity|].
    apply trimmedFrom_moves. exact Hbad'. }
  rewrite !map_app, Hmoves, <- !map_app, Hperm, map_map. simpl. rewrite map_id.
  reflexivity.
Qed.

(** X6.  The move ordering neither loses, nor repeats, nor invents a move:
    the moves of the priorities it returns are the legal moves of the node,
    rearranged.  Every priority keeps the exchange rating of its move and a
    depth between zero and one less than the node has left. *)
Theorem move_ordering_rearranges_legal_moves (node : Node) (pvMove : Move)
    (killerMoves : list Move) (priorities : list MovePriority) :
  getMovePriorities node pvMove killerMoves = Ok priorities ->
  Permutation (map getMove priorities) (legalMoves (getPos node)) /\
  Forall (fun p =>
            getExchangeRating p
            = calcExchangeRating (getMove p) (allEnemySquares (getPos node)) /\
            0 <= getDepth p <= getRemainingDepth node - 1) priorities.
Proof.
  intros Hget. pose proof Hget as Hget0.
  apply getMovePriorities_Ok in Hget
    as (pv & material & killers & bad & bad' & Hparts & Hdepth & Hperm & _ & _ & _ & _ & _ & Hbad').
  set (fresh := freshPriority (allEnemySquares (getPos node)) (getRemainingDepth node)) in *.
  assert (Hfresh : forall p, p ∈ pv ++ material ++ killers ++ bad ->
                             p = fresh (getMove p)).
  { intros p Hp. eapply freshPriority_In; [exact Hperm | exact Hp]. }
  assert (Hbad : Forall2 (fun p p' => p' = p \/ trimmedFrom p p') bad bad').
  { destruct (getRemainingDepth node =? 1).
    - subst bad'. apply Forall2_same_length_lookup_2; [reflexivity|].
      intros i p p' Hp Hp'. left. congruence.
    - eapply Forall2_impl; [exact Hbad'|]. intros p p' Hp. right. exact Hp. }
  split.
  - eapply getMovePriorities_moves. exact Hget0.
  - rewrite Hparts, !app_assoc. apply Forall_app. split.
    + rewrite list.Forall_forall. intros p Hp.
      rewrite (Hfresh p) by (rewrite !app_assoc, elem_of_app; left; exact Hp).
      unfold fresh, freshPriority, getExchangeRating, getMove, getDepth. simpl.
      split; [reflexivity | lia].
    + assert (Hin : Forall (fun p => p = fresh (getMove p)) bad).
      { rewrite list.Forall_forall. intros p Hp. apply Hfresh.
        rewrite !elem_of_app. auto. }
      clear -Hbad Hin Hdepth. induction Hbad as [|p p' l l' Hp _ IH]; [constructor|].
      apply Forall_cons in Hin as [Hfresh Hin]. constructor; [|apply IH; exact Hin].
      destruct Hp as [-> | (Hmove & Hrating & _ & Hlo & Hhi)].
      * rewrite Hfresh.
        unfold fresh, freshPriority, getExchangeRating, getMove, getDepth. simpl.
        split; [reflexivity | lia].
      * rewrite Hmove, Hrating, Hfresh.
        rewrite Hfresh in Hhi.
        unfold fresh, freshPriority, getExchangeRating, getMove, getDepth in *. simpl in *.
        split; [reflexivity | lia].
Qed.

(** X7.  A PV move that is a legal move of the node is searched first, at
    the full depth of a child and untrimmed. *)
Theorem pv_move_is_ordered_first (node : Node) (pvMove : Move)
    (killerMoves : list Move) (priorities : list MovePriority) :
  pvMove <> Move_null ->
  In pvMove (legalMoves (getPos node)) ->
  getMovePriorities node pvMove killerMoves = Ok priorities ->
  exists others,
    priorities
    = mkMovePriority pvMove (calcExchangeRating pvMove (allEnemySquares (getPos node)))
        (getRemainingDepth node - 1) false :: others.
Proof.
  intros Hne Hlegal Hget.
  apply getMovePriorities_Ok in Hget
    as (pv & material & killers & bad & bad' & -> & _ & Hperm & Hhead & Hfound & _).
  destruct Hhead as [-> | (p & -> & Hmove & _)].
  - exfalso. exact (Hfound Hne Hlegal eq_refl).
  - exists (material ++ killers ++ bad').
    destruct (freshPriority_In _ _ _ _ p Hperm) as [_ Hfresh]; [left|].
    rewrite Hfresh, Hmove. reflexivity.
Qed.

(** X8.  Late-move reduction applies to the likely bad moves only.  A
    priority that comes back trimmed belongs to a node with at least two
    plies left, captures or evades for none of the attacked pieces and is no
    killer move; a priority that comes back untrimmed has the full depth of
    a child, and is the PV move, captures or evades for an attacked piece,
    is a killer move, or belongs to a node with a single ply left. *)
Theorem only_likely_bad_moves_are_trimmed (node : Node) (pvMove : Move)
    (killerMoves : list Move) (priorities : list MovePriority) :
  getMovePriorities node pvMove killerMoves = Ok priorities ->
  let pos := getPos node in
  let targets := getTargets pos (allEnemySquares pos) in
  Forall (fun p =>
            if isTrimmed p then
              2 <= getRemainingDepth node /\
              Forall (fun t => capturesOrEvades pos t p = false) targets /\
              ~ In (getMove p) killerMoves
            else
              getDepth p = getRemainingDepth node - 1 /\
              (getMove p = pvMove \/
               Exists (fun t => capturesOrEvades pos t p = true) targets \/
               In (getMove p) killerMoves \/
               getRemainingDepth node = 1)) priorities.
Proof.
  intros Hget pos targets.
  apply getMovePriorities_Ok in Hget
    as (pv & material & killers & bad & bad' & -> & Hdepth & Hperm & Hhead & _
        & Hmaterial & Hkillers & Hbad & Hbad').
  fold pos targets in Hperm, Hmaterial, Hbad.
  set (fresh := freshPriority (allEnemySquares pos) (getRemainingDepth node)) in *.
  assert (Hfresh : forall p, p ∈ pv ++ material ++ killers ++ bad ->
                             isTrimmed p = false /\ getDepth p = getRemainingDepth node - 1).
  { intros p Hp. destruct (freshPriority_In _ _ _ _ p Hperm Hp) as [_ ->].
    split; reflexivity. }
  repeat rewrite Forall_app. split; [|split; [|split]].
  - rewrite list.Forall_forall. intros p Hp.
    destruct (Hfresh p) as [-> Hd]; [rewrite elem_of_app; auto|].
    split; [exact Hd|]. left.
    destruct Hhead as [-> | (p0 & -> & Hmove & _)].
    + apply elem_of_nil in Hp. contradiction.
    + apply list_elem_of_singleton in Hp as ->. exact Hmove.
  - rewrite list.Forall_forall in Hmaterial |- *. intros p Hp.
    destruct (Hfresh p) as [-> Hd]; [rewrite !elem_of_app; auto|].
    split; [exact Hd|]. right. left. exact (Hmaterial p Hp).
  - rewrite list.Forall_forall in Hkillers |- *. intros p Hp.
    destruct (Hfresh p) as [-> Hd]; [rewrite !elem_of_app; auto|].
    split; [exact Hd|]. right. right. left. exact (Hkillers p Hp).
  - assert (Hin : Forall (fun p => isTrimmed p = false /\
                                   getDepth p = getRemainingDepth node - 1) bad).
    { rewrite list.Forall_forall. intros p Hp. apply Hfresh. rewrite !elem_of_app. auto. }
    destruct (getRemainingDepth node =? 1) eqn:Hone; comparisons.
    + subst bad'. eapply Forall_impl; [exact Hin|]. intros p [-> Hd].
      split; [exact Hd | auto].
    + clear -Hbad Hbad' Hin Hone Hdepth.
      induction Hbad' as [|p p' l l' (Hmove & Hrating & Htrimmed & _) _ IH]; [constructor|].
      apply Forall_cons in Hbad as [[Hquiet Hnokiller] Hbad].
      apply Forall_cons in Hin as [_ Hin].
      constructor; [|apply IH; assumption].
      rewrite Htrimmed. split; [lia|]. rewrite Hmove. split; [|exact Hnokiller].
      eapply Forall_impl; [exact Hquiet|]. intros t Ht.
      unfold capturesOrEvades in *. rewrite Hmove, Hrating. exact Ht.
Qed.

Lemma partitionByTargets_nil (pos : Position) (targets : list PieceData)
    (front : list MovePriority) :
  partitionByTargets pos targets front [] = (front, []).
Proof.
  revert front. induction targets as [|t targets IH]; intros front; simpl; [reflexivity|].
  rewrite IH, app_nil_r. reflexivity.
Qed.

(** X9.  The two assertions of [getMovePrioritiesImpl]: it fails on a node
    with no ply left, and on a node without legal moves; whenever it returns,
    the node has a ply left and the list returned is not empty. *)
Theorem move_ordering_asserts_depth_and_moves (node : Node) (pvMove : Move)
    (killerMoves : list Move) :
  (getRemainingDepth node <= 0 ->
   getMovePriorities node pvMove killerMoves = Failed AssertionFailed) /\
  (legalMoves (getPos node) = [] ->
   getMovePriorities node pvMove killerMoves = Failed AssertionFailed) /\
  (forall priorities,
     getMovePriorities node pvMove killerMoves = Ok priorities ->
     1 <= getRemainingDepth node /\ priorities <> [] /\
     length priorities = length (legalMoves (getPos node))).
Proof.
  assert (Hnone : getRemainingDepth node <= 0 ->
                  getMovePriorities node pvMove killerMoves = Failed AssertionFailed).
  { intros Hdone. unfold getMovePriorities, getMovePrioritiesImpl.
    replace (0 <? getRemainingDepth node) with false by (symmetry; apply Z.ltb_ge; lia).
    reflexivity. }
  split; [exact Hnone|]. split.
  - intros Hmoves.
    destruct (Z_le_gt_dec (getRemainingDepth node) 0) as [Hdone | Hleft]; [auto|].
    unfold getMovePriorities, getMovePrioritiesImpl.
    rewrite zAssert_true by (apply Z.ltb_lt; lia). cbn [mbind Checked_bind].
    rewrite Hmoves. cbn [makePriorities mbind Checked_bind].
    assert (Hsorted : sortByExchangeRating [] = []).
    { apply Permutation_nil. symmetry. apply sort_Permutation. }
    rewrite Hsorted.
    assert (Hpv : movePVMoveToFront [] pvMove = ([], [])).
    { unfold movePVMoveToFront. case_bool_decide; reflexivity. }
    rewrite Hpv. unfold orderCapturesAndEvasionsFirst. rewrite partitionByTargets_nil.
    unfold orderKillerMovesFirst.
    pose proof (partition_Permutation
                  (fun priority =>
                     existsb (fun move => Move_eqb move (getMove priority)) killerMoves) [])
      as Hperm.
    destruct (partitionUnstable _ []) as [killers bad]. simpl in Hperm.
    symmetry in Hperm. apply Permutation_nil, app_eq_nil in Hperm as [-> ->].
    unfold SafeUnsigned.sub. rewrite zAssert_true by (apply Z.leb_le; lia).
    cbn [mbind Checked_bind]. destruct (negb _); reflexivity.
  - intros priorities Hget.
    pose proof Hget as Hparts.
    apply getMovePriorities_Ok in Hparts
      as (pv & material & killers & bad & bad' & -> & Hdepth & Hperm & _ & _ & _ & _ & _ & Hbad').
    assert (Hlength : length bad' = length bad).
    { destruct (getRemainingDepth node =? 1); [subst; reflexivity|].
      symmetry. eapply Forall2_length; exact Hbad'. }
    assert (Hsame : length (pv ++ material ++ killers ++ bad')
                    = length (legalMoves (getPos node))).
    { apply Permutation_length in Hperm. rewrite length_map in Hperm.
      rewrite !length_app in *. lia. }
    split; [exact Hdepth|]. split; [|exact Hsame].
    intros Hnil. rewrite Hnil in Hsame. simpl in Hsame.
    symmetry in Hsame. apply length_zero_iff_nil in Hsame.
    destruct (Z_le_gt_dec (getRemainingDepth node) 0) as [Hdone | Hleft]; [lia|].
    unfold getMovePriorities, getMovePrioritiesImpl in Hget.
    rewrite Hnil in Hget. clear -Hget Hsame Hleft.
    apply Checked_bind_Ok in Hget as (u & _ & Hget).
    apply Checked_bind_Ok in Hget as (made & _ & Hget).
    destruct (movePVMoveToFront _ _) as [pv' nonPV].
    destruct (orderCapturesAndEvasionsFirst _ _ _) as [material' nonMaterial].
    destruct (orderKillerMovesFirst _ _) as [killers' bad''].
    apply Checked_bind_Ok in Hget as (childDepth & _ & Hget).
    apply Checked_bind_Ok in Hget as (trimmed & _ & Hget).
    apply Checked_bind_Ok in Hget as (u' & Hassert & Hget).
    apply zAssert_Ok in Hassert. injection Hget as Hget. rewrite Hget in Hassert.
    rewrite bool_decide_eq_true_2 in Hassert by reflexivity. discriminate.
Qed.

End WithOrderingLaws.
End OrderingFacts.

(** The library routines of the two small instances keep the promises of
    the standard. *)
Lemma insertByExchange_Permutation (p : MovePriority) (l : list MovePriority) :
  Permutation (LineGame.insertByExchange p l) (p :: l).
Proof.
  induction l as [|q l IH]; simpl; [reflexivity|].
  destruct (Rating_ltb _ _); [reflexivity|].
  rewrite IH. apply perm_swap.
Qed.

Lemma insertionSort_Permutation (l : list MovePriority) :
  Permutation (LineGame.insertionSort l) l.
Proof.
  unfold LineGame.insertionSort. induction l as [|p l IH]; simpl; [reflexivity|].
  rewrite insertByExchange_Permutation, IH. reflexivity.
Qed.

Lemma List_partition_laws {A} (f : A -> bool) (l : list A) :
  Permutation (fst (List.partition f l) ++ snd (List.partition f l)) l /\
  Forall (fun x => f x = true) (fst (List.partition f l)) /\
  Forall (fun x => f x = false) (snd (List.partition f l)).
Proof.
  destruct (List.partition f l) as [yes no] eqn:Hpart.
  exact (@List_partition_spec A f l yes no Hpart).
Qed.

Lemma LineGame_ordering_laws (stops : nat -> bool) : @OrderingLaws (LineGame.game stops).
Proof.
  split; simpl.
  - apply insertionSort_Permutation.
  - intros f l. apply (List_partition_laws f l).
  - intros f l. apply (List_partition_laws f l).
  - reflexivity.
Qed.

Lemma Skirmish_ordering_laws : @OrderingLaws Skirmish.game.
Proof.
  split; simpl.
  - apply insertionSort_Permutation.
  - intros f l. apply (List_partition_laws f l).
  - intros f l. apply (List_partition_laws f l).
  - reflexivity.
Qed.

(** The skirmish with no PV move: the capture of the rook comes first, the
    pawn push last, and the four legal moves are all there. *)
Lemma move_ordering_rearranges_legal_moves_witness :
  exists priorities,
    @getMovePriorities Skirmish.game Skirmish.root Move_null Skirmish.killers
    = Ok priorities /\
    map getMove priorities
    = [Skirmish.takes; Skirmish.blocks; Skirmish.develops; Skirmish.pushes] /\
    Permutation (map getMove priorities)
      [Skirmish.pushes; Skirmish.develops; Skirmish.blocks; Skirmish.takes].
Proof.
  eexists. split; [vm_compute; reflexivity|]. split; [reflexivity|].
  apply (@move_ordering_rearranges_legal_moves Skirmish.game Skirmish_ordering_laws
           Skirmish.root Move_null Skirmish.killers).
  vm_compute. reflexivity.
Defined.

(** The skirmish with the pawn push as PV move: it is searched first, two
    plies deep. *)
Lemma pv_move_is_ordered_first_witness :
  exists others,
    [mkMovePriority Skirmish.pushes 0%Q 2 false;
     mkMovePriority Skirmish.blocks 0%Q 2 false;
     mkMovePriority Skirmish.takes 5%Q 2 false;
     mkMovePriority Skirmish.develops 0%Q 2 false]
    = mkMovePriority Skirmish.pushes 0%Q 2 false :: others.
Proof.
  exact (@pv_move_is_ordered_first Skirmish.game Skirmish_ordering_laws
           Skirmish.root Skirmish.pushes Skirmish.killers _
           ltac:(discriminate) ltac:(simpl; tauto) ltac:(vm_compute; reflexivity)).
Defined.

(** The skirmish with no PV move: of the four moves only the pawn push is
    trimmed. *)
Lemma only_likely_bad_moves_are_trimmed_witness :
  exists priorities,
    @getMovePriorities Skirmish.game Skirmish.root Move_null Skirmish.killers
    = Ok priorities /\
    map isTrimmed priorities = [false; false; false; true] /\
    Forall (fun p => isTrimmed p = true -> ~ In (getMove p) Skirmish.killers) priorities.
Proof.
  eexists. split; [vm_compute; reflexivity|]. split; [reflexivity|].
  eapply Forall_impl.
  - apply (@only_likely_bad_moves_are_trimmed Skirmish.game Skirmish_ordering_laws
             Skirmish.root Move_null Skirmish.killers).
    vm_compute. reflexivity.
  - intros p Hp Htrimmed. simpl in Hp. rewrite Htrimmed in Hp. apply Hp.
Defined.

(** The line game: a stalemate has nothing to order, and the ordering of
    position 0 returns its single move. *)
Lemma move_ordering_asserts_depth_and_moves_witness :
  @getMovePriorities LineGame.undisturbed (@Node_root LineGame.undisturbed 1000%nat 3 [])
    Move_null [] = Failed AssertionFailed /\
  length [mkMovePriority LineGame.advance 0%Q 2 true] = 1%nat.
Proof.
  destruct (@move_ordering_asserts_depth_and_moves LineGame.undisturbed
              (LineGame_ordering_laws (fun _ => false))
              (@Node_root LineGame.undisturbed 1000%nat 3 []) Move_null [])
    as (_ & Hmoves & _).
  destruct (@move_ordering_asserts_depth_and_moves LineGame.undisturbed
              (LineGame_ordering_laws (fun _ => false))
              (@Node_root LineGame.undisturbed 0%nat 3 []) Move_null [])
    as (_ & _ & Hreturns).
  split; [apply Hmoves; reflexivity|].
  apply (Hreturns [mkMovePriority LineGame.advance 0%Q 2 true]).
  vm_compute. reflexivity.
Defined.

(** ** Chess.MoveSearch: the search window *)

(** X10.  An update only narrows the window: alpha never falls and beta
    never rises, the updated bound is the better of the old bound and the
    child's rating, and the other bound stays.  A window that can be pruned
    stays so, and an update makes the window prunable exactly when it was
    already, or the child's rating reaches the opposite bound. *)
Theorem window_only_narrows (maximizing : bool) (ab : AlphaBeta) (childRating : Rating) :
  let ab' := update maximizing ab childRating in
  (getAlpha ab <= getAlpha ab')%Q /\ (getBeta ab' <= getBeta ab)%Q /\
  (if maximizing
   then (childRating <= getAlpha ab')%Q /\ getBeta ab' = getBeta ab /\
        (getAlpha ab' = childRating \/ getAlpha ab' = getAlpha ab)
   else (getBeta ab' <= childRating)%Q /\ getAlpha ab' = getAlpha ab /\
        (getBeta ab' = childRating \/ getBeta ab' = getBeta ab)) /\
  (canPrune ab' = true <->
   canPrune ab = true \/
   (if maximizing then getBeta ab <= childRating else childRating <= getAlpha ab)%Q).
Proof.
  intros ab'. subst ab'.
  unfold update, updateAlpha, updateBeta, canPrune, getAlpha, getBeta, Rating_max, Rating_min.
  destruct maximizing; cbn [m_alpha m_beta].
  - destruct (Rating_ltb childRating (m_alpha ab)) eqn:Hlt; cbn [m_alpha m_beta];
      [apply Rating_ltb_lt in Hlt | apply Rating_ltb_ge in Hlt];
      rewrite !Rating_leb_le;
      (split; [lra|]); (split; [lra|]); (split; [split; [lra | split; auto]|]);
      (split; [intros Hp | intros [Hp | Hp]]); try lra; auto.
  - destruct (Rating_ltb (m_beta ab) childRating) eqn:Hlt; cbn [m_alpha m_beta];
      [apply Rating_ltb_lt in Hlt | apply Rating_ltb_ge in Hlt];
      rewrite !Rating_leb_le;
      (split; [lra|]); (split; [lra|]); (split; [split; [lra | split; auto]|]);
      (split; [intros Hp | intros [Hp | Hp]]); try lra; auto.
Qed.

(** ** Chess.MoveSearch: the searchers of the coordinator *)

Section ConstructorFacts.
Context `{Collaborators}.

Lemma Searcher_new_wellFormed (urbg : Urbg) (helper : bool) :
  wellFormed (Searcher_new urbg helper).
Proof.
  unfold wellFormed, Searcher_new. cbn [m_killerMoves]. split; [apply length_replicate|].
  apply Forall_replicate. unfold rowIntact. cbn [killerMoves index].
  split; [apply length_replicate|]. split; [unfold MAX_KILLER_MOVES; lia|].
  apply Forall_replicate. reflexivity.
Qed.

Lemma AsyncSearchState_searchers_wellFormed (threadCount : nat) (seeded : nat -> Urbg) :
  Forall wellFormed (AsyncSearchState_searchers threadCount seeded).
Proof.
  unfold AsyncSearchState_searchers.
  constructor; [apply Searcher_new_wellFormed|].
  apply Forall_map, list.Forall_forall. intros k _. apply Searcher_new_wellFormed.
Qed.

(** X12.  [AsyncSearchState()] creates the main searcher first and a helper
    for every further hardware thread; when the platform reports no thread at
    all, or a single one, the main searcher is alone, so the list is never
    empty.  Every searcher starts at depth 0 with a killer-move table of
    [MAX_DEPTH] rows of three null moves and ring index 0. *)
Theorem coordinator_starts_with_one_main_searcher (threadCount : nat) (seeded : nat -> Urbg) :
  let created := AsyncSearchState_searchers threadCount seeded in
  length created = Nat.max 1 threadCount /\
  (forall (i : nat) (s : Searcher),
     created !! i = Some s ->
     isHelper s = negb (Nat.eqb i 0) /\ m_urbg s = seeded i /\ depth s = 0 /\
     m_killerMoves s
     = replicate MAX_DEPTH (mkKillerMoveEntries (replicate MAX_KILLER_MOVES Move_null) 0)) /\
  Forall wellFormed created.
Proof.
  intros created. subst created. unfold AsyncSearchState_searchers.
  split; [simpl; rewrite length_map, length_seq; lia|]. split.
  - intros [|i] s; simpl.
    + intros [= <-]. repeat split; reflexivity.
    + rewrite list_lookup_fmap. intros Hs.
      destruct (seq 1 (threadCount - 1) !! i) as [k|] eqn:Hk; [|discriminate].
      apply lookup_seq in Hk as [-> _]. injection Hs as <-.
      repeat split; reflexivity.
  - apply AsyncSearchState_searchers_wellFormed.
Qed.

End ConstructorFacts.

(** ** Chess.MoveSearch: the weight of a vote *)

Section VotingWeightFacts.
Context `{Collaborators}.
#[local] Open Scope Q_scope.

(** X13.  The weight of a vote without a checkmate level.  When all
    candidates have the same rating the weight is [1 + 2^depth].  Otherwise
    it is that base times 1.2 times the share of the candidate's rating in
    the spread of the ratings: nothing for a candidate with the lowest
    rating, 1.2 times the base for one with the highest, and never outside
    these two. *)
Theorem voting_weight_follows_the_rating
    (searcher : Searcher) (mr : MoveRating) (worst best : Rating) :
  checkmateLevel mr = None ->
  worst <= rating mr <= best ->
  let base := 1 + inject_Z (2 ^ depth searcher) in
  exists weight,
    getVotingWeight searcher mr worst (best - worst) = Ok weight /\
    0 < base /\
    (best == worst -> weight = base) /\
    (worst < best ->
     weight == base * ((6 # 5) * (rating mr - worst) / (best - worst)) /\
     0 <= weight <= (6 # 5) * base /\
     (rating mr == worst -> weight == 0) /\
     (rating mr == best -> weight == (6 # 5) * base)).
Proof.
  intros Hunset [Hlo Hhi] base.
  pose proof (searcher_base_weight_positive searcher) as Hbase. fold base in Hbase.
  unfold getVotingWeight. rewrite Hunset.
  rewrite zAssert_true by (apply Rating_leb_le; lra). cbn [mbind Checked_bind].
  fold base. eexists. split; [reflexivity|]. split; [exact Hbase|].
  destruct (Rating_eqb (best - worst) 0) eqn:Hzero; cbn [negb].
  - apply Rating_eqb_eq in Hzero. split; [reflexivity|]. intros Hspread. lra.
  - assert (Hspread : worst < best).
    { apply Qnot_le_lt. intros Hle.
      assert (Heq : best - worst == 0) by lra.
      apply Rating_eqb_eq in Heq. congruence. }
    split; [intros Heq; lra|]. intros _.
    unfold SCORE_BOOST.
    set (share := (6 # 5) * (rating mr - worst) / (best - worst)).
    assert (Hshare : 0 <= share <= 6 # 5).
    { unfold share. split.
      - apply Qle_shift_div_l; lra.
      - apply Qle_shift_div_r; lra. }
    split; [reflexivity|]. split; [nra|]. split.
    + intros Heq. unfold share. rewrite Heq. field. lra.
    + intros Heq. unfold share. rewrite Heq. field. lra.
Qed.

End VotingWeightFacts.

(** A main searcher at depth 3 whose candidate is rated 2 among ratings
    from 1 to 5: a quarter of the spread, so 9 * 1.2 / 4. *)
Lemma voting_weight_follows_the_rating_witness :
  exists weight,
    @getVotingWeight LineGame.undisturbed
      (@withDepth LineGame.undisturbed (@Searcher_new LineGame.undisturbed tt false) 3)
      (mkMoveRating LineGame.advance 2%Q false None) 1%Q (5 - 1)%Q = Ok weight /\
    (weight == 27 # 10)%Q.
Proof.
  destruct (@voting_weight_follows_the_rating LineGame.undisturbed
              (@withDepth LineGame.undisturbed (@Searcher_new LineGame.undisturbed tt false) 3)
              (mkMoveRating LineGame.advance 2%Q false None) 1%Q 5%Q eq_refl)
    as (weight & Hweight & _ & _ & Hspread).
  - simpl. lra.
  - exists weight. split; [exact Hweight|].
    destruct Hspread as (-> & _); [lra|]. reflexivity.
Defined.

(** ** The search returns *)

Section SearchReturns.
Context `{Collaborators}.

Lemma OrderingLaws_LibraryLaws : OrderingLaws -> LibraryLaws.
Proof.
  intros Hlaws. split.
  - intros P l Hl. rewrite sort_Permutation. exact Hl.
  - intros P f l Hl. rewrite <- (partition_Permutation f l) in Hl.
    apply Forall_app in Hl. exact Hl.
  - intros P l g Hl. rewrite shuffle_Permutation. exact Hl.
Qed.

Lemma sameSearcher_refl (s : Searcher) : sameSearcher s s.
Proof. split; reflexivity. Qed.

Lemma sameSearcher_trans (s1 s2 s3 : Searcher) :
  sameSearcher s1 s2 -> sameSearcher s2 s3 -> sameSearcher s1 s3.
Proof. intros [Hh Hd] [Hh' Hd']. split; congruence. Qed.

Lemma returns_bind {A B} (c : Search A) (k : A -> Search B) (st : SearchState) :
  returns c st ->
  (forall a st1, c st = Ok (a, st1) -> returns (k a) st1) ->
  returns (c ≫= k) st.
Proof.
  intros Hc Hk Hwf. destruct (Hc Hwf) as (a & st1 & Hrun & Hwf1 & Hsame1).
  destruct (Hk a st1 Hrun Hwf1) as (b & st2 & Hrun2 & Hwf2 & Hsame2).
  exists b, st2. split; [|split; [exact Hwf2 | eapply sameSearcher_trans; eassumption]].
  unfold mbind, Search_bind. rewrite Hrun. exact Hrun2.
Qed.

(** A step that returns and leaves the searcher's members alone. *)
Lemma returns_step {A} (c : Search A) (st st' : SearchState) (a : A) :
  c st = Ok (a, st') ->
  m_killerMoves (self st') = m_killerMoves (self st) ->
  m_helper (self st') = m_helper (self st) ->
  depth (self st') = depth (self st) ->
  returns c st.
Proof.
  intros Hrun Hkillers Hhelper Hdepth Hwf. exists a, st'.
  split; [exact Hrun|]. split; [|split; assumption].
  unfold wellFormed in *. rewrite Hkillers. exact Hwf.
Qed.

Lemma returns_yield {A} (a : A) (st : SearchState) : returns (yield a) st.
Proof. apply (returns_step _ st st a); reflexivity. Qed.

Lemma returns_pure {A} (c : Checked A) (a : A) (st : SearchState) :
  c = Ok a -> returns (pure c) st.
Proof. intros ->. apply (returns_step _ st st a); reflexivity. Qed.

Lemma returns_killerEntriesAt (level : Z) (st : SearchState) :
  0 <= level < Z.of_nat MAX_DEPTH -> returns (killerEntriesAt level) st.
Proof.
  intros Hlevel Hwf. pose proof Hwf as [Hlength _].
  destruct (lookup_lt_is_Some_2 (m_killerMoves (self st)) (Z.to_nat level)) as [entries Hentries];
    [rewrite Hlength; lia|].
  exists entries, st. unfold killerEntriesAt. rewrite Hentries.
  split; [reflexivity|]. split; [exact Hwf | apply sameSearcher_refl].
Qed.

Lemma returns_addKillerMove (level : Z) (killer : Move) (st : SearchState) :
  0 <= level < Z.of_nat MAX_DEPTH ->
  capturedPiece killer = PieceNone ->
  returns (addKillerMove level killer) st.
Proof.
  intros Hlevel Hquiet [Hlength Hrows].
  destruct (lookup_lt_is_Some_2 (m_killerMoves (self st)) (Z.to_nat level)) as [entries Hentries];
    [rewrite Hlength; lia|].
  pose proof (Forall_lookup_1 _ _ _ _ Hrows Hentries) as (Hslots & Hindex & Hquiets).
  unfold addKillerMove. rewrite Hentries.
  replace (index entries <? MAX_KILLER_MOVES)%nat with true
    by (symmetry; apply Nat.ltb_lt; exact Hindex).
  eexists tt, _. split; [reflexivity|]. split; [|split; reflexivity].
  unfold wellFormed. cbn [self m_killerMoves]. split; [rewrite length_insert; exact Hlength|].
  apply Forall_insert; [exact Hrows|].
  unfold rowIntact. cbn [killerMoves index].
  split; [rewrite length_insert; exact Hslots|]. split.
  - destruct (index entries + 1 =? MAX_KILLER_MOVES)%nat eqn:Hwrap;
      [unfold MAX_KILLER_MOVES; lia|].
    apply Nat.eqb_neq in Hwrap. lia.
  - apply Forall_insert; assumption.
Qed.

Lemma returns_shuffleWithUrbg (movePriorities : list MovePriority) (st : SearchState) :
  returns (shuffleWithUrbg movePriorities) st.
Proof.
  unfold shuffleWithUrbg.
  destruct (shuffle movePriorities (m_urbg (self st))) as [shuffled urbg'] eqn:Hshuffle.
  eapply returns_step; [rewrite Hshuffle; reflexivity | reflexivity ..].
Qed.

Section WithBoardLaws.
Context `{!OrderingLaws} `{!BoardLaws}.

Lemma trimFrom_returns (l : list MovePriority) (offset : Z) :
  0 <= offset -> offset + Z.of_nat (length l) <= 218 ->
  Forall (fun p => 0 <= getDepth p < 218) l ->
  exists l', trimFrom offset l = Ok l'.
Proof.
  intros Hoffset Hend Hdepths. revert offset Hoffset Hend.
  induction Hdepths as [|p l Hp _ IH]; intros offset Hoffset Hend; cbn [trimFrom].
  - eexists. reflexivity.
  - cbn [length] in Hend.
    rewrite SafeUnsigned_truncate_small
      by (unfold SafeUnsigned.inRange, SafeUnsigned.MAX_VALUE; lia).
    rewrite trim_inside_table by lia.
    destruct (reduction_fits (getDepth p) offset) as (reduced & ->); [lia | lia|].
    cbn [mbind Checked_bind].
    destruct (IH (offset + 1)) as (rest & ->); [lia | lia|].
    eexists. reflexivity.
Qed.

(** The four ranges of the move ordering together are the priorities made
    for the legal moves. *)
Lemma ordering_ranges (node : Node) (pvMove : Move) (killerMoves : list Move)
    (made : list MovePriority) :
  let '(pv, nonPVMoves) := movePVMoveToFront (sortByExchangeRating made) pvMove in
  let '(material, nonMaterialMoves) :=
    orderCapturesAndEvasionsFirst node (allEnemySquares (getPos node)) nonPVMoves in
  let '(killers, likelyBadMoves) := orderKillerMovesFirst killerMoves nonMaterialMoves in
  Permutation (pv ++ material ++ killers ++ likelyBadMoves) made.
Proof.
  destruct (movePVMoveToFront (sortByExchangeRating made) pvMove) as [pv nonPV] eqn:Hpv.
  apply movePVMoveToFront_spec in Hpv as (Hperm1 & _ & _).
  destruct (orderCapturesAndEvasionsFirst node (allEnemySquares (getPos node)) nonPV)
    as [material nonMaterial] eqn:Hmaterial.
  unfold orderCapturesAndEvasionsFirst in Hmaterial.
  apply partitionByTargets_spec in Hmaterial as (chosen & Hchosen & Hperm2 & _ & _).
  simpl in Hchosen. subst material.
  destruct (orderKillerMovesFirst killerMoves nonMaterial) as [killers bad] eqn:Hkillers.
  unfold orderKillerMovesFirst in Hkillers.
  pose proof (partition_Permutation
                (fun priority => existsb (fun move => Move_eqb move (getMove priority)) killerMoves)
                nonMaterial) as Hperm3.
  rewrite Hkillers in Hperm3. simpl in Hperm3.
  rewrite Hperm3, Hperm2, Hperm1, sort_Permutation. reflexivity.
Qed.

Lemma getMovePriorities_returns (node : Node) (pvMove : Move) (killerMoves : list Move) :
  1 <= getRemainingDepth node <= 218 ->
  legalMoves (getPos node) <> [] ->
  exists priorities, getMovePriorities node pvMove killerMoves = Ok priorities.
Proof.
  intros Hdepth Hmoves. unfold getMovePriorities, getMovePrioritiesImpl.
  rewrite zAssert_true by (apply Z.ltb_lt; lia). cbn [mbind Checked_bind].
  rewrite makePriorities_returns by lia. cbn [mbind Checked_bind].
  set (made := map (freshPriority (allEnemySquares (getPos node)) (getRemainingDepth node))
                 (legalMoves (getPos node))).
  pose proof (ordering_ranges node pvMove killerMoves made) as Hperm.
  destruct (movePVMoveToFront (sortByExchangeRating made) pvMove) as [pv nonPV].
  destruct (orderCapturesAndEvasionsFirst node (allEnemySquares (getPos node)) nonPV)
    as [material nonMaterial].
  destruct (orderKillerMovesFirst killerMoves nonMaterial) as [killers bad].
  unfold SafeUnsigned.sub. rewrite zAssert_true by (apply Z.leb_le; lia).
  cbn [mbind Checked_bind].
  assert (Hlength : (length (pv ++ material ++ killers) + length bad
                     = length (legalMoves (getPos node)))%nat).
  { apply Permutation_length in Hperm. unfold made in Hperm.
    rewrite length_map in Hperm. rewrite !length_app in *. lia. }
  pose proof (legalMoves_bounded (getPos node)) as Hbound. unfold MAX_MOVE_COUNT in Hbound.
  assert (Htrimmed : exists bad',
             (if negb (getRemainingDepth node - 1 =? 0)
              then trimFrom (Z.of_nat (length (pv ++ material ++ killers))) bad
              else Ok bad) = Ok bad' /\ length bad' = length bad).
  { destruct (negb (getRemainingDepth node - 1 =? 0)); [|eexists; split; reflexivity].
    assert (Hdepths : Forall (fun p => 0 <= getDepth p < 218) bad).
    { rewrite list.Forall_forall. intros p Hp.
      destruct (freshPriority_In _ _ _ _ p Hperm) as [_ ->];
        [rewrite !elem_of_app; auto|].
      unfold getDepth, freshPriority. simpl. lia. }
    destruct (trimFrom_returns bad (Z.of_nat (length (pv ++ material ++ killers))))
      as (bad' & Hbad'); [lia | lia | exact Hdepths|].
    exists bad'. split; [exact Hbad'|].
    apply trimFrom_Ok in Hbad';
      [symmetry; eapply Forall2_length; exact Hbad'|].
    eapply Forall_impl; [exact Hdepths|]. intros p Hp. simpl in Hp. lia. }
  destruct Htrimmed as (bad' & -> & Hbad'). cbn [mbind Checked_bind].
  rewrite zAssert_true; [eexists; reflexivity|].
  apply negb_true_iff, bool_decide_eq_false. intros Hnil.
  apply (f_equal length) in Hnil. rewrite !length_app in *. simpl in Hnil.
  destruct (legalMoves (getPos node)); [congruence | simpl in Hlength; lia].
Qed.

Lemma Node_child_returns (node : Node) (p : MovePriority) :
  0 <= getLevel node < SafeUnsigned.MAX_VALUE ->
  Node_child node p
  = Ok (mkNode (applyMove (getPos node) (getMove p))
          (pushPosition (getRepetitionMap node) (applyMove (getPos node) (getMove p)))
          (getLevel node + 1) (getDepth p)).
Proof.
  intros Hlevel. unfold Node_child, SafeUnsigned.add.
  rewrite zAssert_true by (apply Z.leb_le; lia). reflexivity.
Qed.

Lemma returns_searchChild (recurse : bool -> Node -> AlphaBeta -> Search MoveRating)
    (limit : Z) (maximizing : bool) (node : Node) (alphaBeta : AlphaBeta)
    (p : MovePriority) (st : SearchState) :
  dependable recurse limit ->
  insideTable node ->
  getRemainingDepth node - 1 <= limit ->
  depthWithin (getRemainingDepth node - 1) p ->
  returns (searchChild recurse maximizing node alphaBeta p) st.
Proof.
  intros Hrec (Hlevel & Hremaining & Hsum) Hlimit [Hplo Hphi]. unfold searchChild.
  assert (Hbyte : 0 <= getLevel node < SafeUnsigned.MAX_VALUE)
    by (unfold SafeUnsigned.MAX_VALUE, MAX_DEPTH in *; lia).
  eapply returns_bind; [eapply returns_pure, Node_child_returns; exact Hbyte|].
  intros child st1 Hchild. apply pure_Ok in Hchild.
  rewrite Node_child_returns in Hchild by exact Hbyte. injection Hchild as <-.
  eapply returns_bind.
  { apply Hrec; [unfold insideTable; cbn [getLevel getRemainingDepth]; lia|].
    cbn [getRemainingDepth]. lia. }
  intros childRating st2 _.
  destruct (isTrimmed p); [|apply returns_yield].
  match goal with |- returns (if ?c then _ else _) _ => destruct c end;
    [|apply returns_yield].
  eapply returns_bind.
  { eapply returns_pure. unfold SafeUnsigned.sub.
    rewrite zAssert_true by (apply Z.leb_le; lia). reflexivity. }
  intros fullDepth st3 Hfull. apply pure_Ok, SafeUnsigned_sub_Ok in Hfull as [_ ->].
  eapply returns_bind; [eapply returns_pure, Node_child_returns; exact Hbyte|].
  intros newChild st4 HnewChild. apply pure_Ok in HnewChild.
  rewrite Node_child_returns in HnewChild by exact Hbyte. injection HnewChild as <-.
  apply Hrec; [unfold insideTable|]; cbn [getLevel getRemainingDepth getDepth];
    unfold getDepth, MovePriority_full; simpl; lia.
Qed.

Lemma returns_searchChildren (recurse : bool -> Node -> AlphaBeta -> Search MoveRating)
    (limit : Z) (maximizing : bool) (node : Node) (mps : list MovePriority)
    (best : MoveRating) (alphaBeta : AlphaBeta) (st : SearchState) :
  dependable recurse limit ->
  insideTable node ->
  1 <= getRemainingDepth node ->
  getRemainingDepth node - 1 <= limit ->
  Forall (depthWithin (getRemainingDepth node - 1)) mps ->
  returns (searchChildren recurse maximizing node mps best alphaBeta) st.
Proof.
  intros Hrec Hnode Hone Hlimit Hmps. revert best alphaBeta st.
  induction Hmps as [|p mps Hp _ IH]; intros best alphaBeta st; cbn [searchChildren];
    [apply returns_yield|].
  eapply returns_bind; [eapply returns_searchChild; eassumption|].
  intros childRating st1 _.
  destruct (canPrune _).
  - eapply returns_bind; [|intros; apply returns_yield].
    case_bool_decide as Hquiet; [|apply returns_yield].
    apply returns_addKillerMove; [|exact Hquiet].
    destruct Hnode as (Hlevel & _ & Hsum). lia.
  - destruct (Rating_eqb _ _); [apply returns_yield | apply IH].
Qed.

Lemma returns_finishNode (maximizing : bool) (node : Node) (original : AlphaBeta)
    (outcome : ChildLoopResult) (st : SearchState) :
  returns (finishNode maximizing node original outcome) st.
Proof.
  eapply returns_step; [apply finishNode_Ok | ..];
    destruct (invalidTTEntry (bestRating outcome)); reflexivity.
Qed.

Lemma returns_bestChildPosition (recurse : bool -> Node -> AlphaBeta -> Search MoveRating)
    (limit : Z) (maximizing : bool) (node : Node) (pvMove : Move) (alphaBeta : AlphaBeta)
    (st : SearchState) :
  dependable recurse limit ->
  insideTable node ->
  1 <= getRemainingDepth node ->
  getRemainingDepth node - 1 <= limit ->
  legalMoves (getPos node) <> [] ->
  returns (bestChildPosition recurse maximizing node pvMove alphaBeta) st.
Proof.
  intros Hrec Hnode Hone Hlimit Hmoves. pose proof Hnode as (Hlevel & Hremaining & Hsum).
  pose proof (OrderingLaws_LibraryLaws _) as Hlibrary.
  unfold bestChildPosition.
  eapply returns_bind; [apply returns_killerEntriesAt; lia|].
  intros entries st1 _.
  destruct (getMovePriorities_returns node pvMove (killerMoves entries)) as (mps & Hmps);
    [unfold MAX_DEPTH in *; lia | exact Hmoves|].
  eapply returns_bind; [eapply returns_pure; exact Hmps|].
  intros mps' st2 Hmps'. apply pure_Ok in Hmps'.
  apply getMovePriorities_depths in Hmps' as [_ Hdepths].
  eapply returns_bind; [eapply (returns_step helperFlag); reflexivity|].
  intros helper st3 _.
  eapply returns_bind.
  { destruct (helper && _); [apply returns_shuffleWithUrbg | apply returns_yield]. }
  intros shuffled st4 Hshuffled.
  assert (Hshuffle : Forall (depthWithin (getRemainingDepth node - 1)) shuffled).
  { destruct (helper && _).
    - unfold shuffleWithUrbg in Hshuffled.
      pose proof (shuffle_Forall _ mps' (m_urbg (self st3)) Hdepths) as Hlaw.
      destruct (shuffle mps' (m_urbg (self st3))) as [l g]. injection Hshuffled as <- _.
      exact Hlaw.
    - unfold yield in Hshuffled. injection Hshuffled as <- _. exact Hdepths. }
  eapply returns_bind; [|intros; apply returns_finishNode].
  eapply returns_searchChildren; eassumption.
Qed.

Lemma returns_consultTable (node : Node) (alphaBeta : AlphaBeta) (st : SearchState) :
  returns (consultTable node alphaBeta) st.
Proof.
  unfold consultTable.
  eapply returns_bind; [eapply (returns_step helperFlag); reflexivity|].
  intros helper st1 _.
  eapply returns_bind; [eapply (returns_step loadStopRequested); reflexivity|].
  intros stop st2 _.
  destruct (negb stop && _); [|apply returns_yield].
  eapply returns_bind; [eapply (returns_step (lookupEntry _ _)); reflexivity|].
  intros [entry|] st3 _; apply returns_yield.
Qed.

(** With fuel for the plies left, [tryShortCircuit] returns on every node
    inside the killer-move table. *)
Lemma tryShortCircuit_returns (fuel : nat) :
  dependable (tryShortCircuit fuel) (Z.of_nat fuel).
Proof.
  induction fuel as [|fuel IH]; intros maximizing node alphaBeta st Hnode Hfuel;
    rewrite tryShortCircuit_unfold;
    (case_bool_decide as Hmoves; [apply returns_yield|]);
    (destruct (3 <=? _); [apply returns_yield|]);
    (eapply returns_bind; [eapply (returns_step loadStopRequested); reflexivity|];
     intros stop st1 _);
    (destruct stop; [apply returns_yield|]);
    (eapply returns_bind; [apply returns_consultTable|]);
    intros [r | pv window] st2 _; try apply returns_yield;
    unfold continueSearch; destruct (isDone node) eqn:Hdone; try apply returns_yield;
    unfold isDone in Hdone; comparisons; destruct Hnode as (Hlevel & Hremaining & Hsum).
  - lia.
  - eapply returns_bestChildPosition;
      [exact IH | unfold insideTable; lia | lia | lia | exact Hmoves].
Qed.

Lemma returns_startAlphaBetaSearch (maximizing : bool) (pos : Position) (d : Z)
    (repetitionMap : RepetitionMap) (st : SearchState) :
  0 <= d <= Z.of_nat MAX_DEPTH ->
  returns (startAlphaBetaSearch maximizing pos d repetitionMap) st.
Proof.
  intros Hd. apply tryShortCircuit_returns.
  - unfold insideTable. cbn [getLevel getRemainingDepth Node_root]. lia.
  - cbn [getRemainingDepth Node_root]. lia.
Qed.

Lemma returns_warmUp (maximizing : bool) (pos : Position) (repetitionMap : RepetitionMap)
    (iterDepths : list Z) (st : SearchState) :
  Forall (fun d => 0 <= d <= Z.of_nat MAX_DEPTH) iterDepths ->
  returns (warmUp maximizing pos repetitionMap iterDepths) st.
Proof.
  intros Hdepths. revert st.
  induction Hdepths as [|d rest Hd _ IH]; intros st; cbn [warmUp]; [apply returns_yield|].
  eapply returns_bind; [apply returns_startAlphaBetaSearch; exact Hd|].
  intros r st1 _. apply IH.
Qed.

Lemma returns_searcherCall (pos : Position) (repetitionMap : RepetitionMap)
    (st : SearchState) :
  0 <= depth (self st) <= Z.of_nat MAX_DEPTH ->
  returns (searcherCall pos repetitionMap) st.
Proof.
  intros Hdepth. unfold searcherCall, iterativeDeepening.
  assert (Hwarm : Forall (fun d => 0 <= d <= Z.of_nat MAX_DEPTH)
                    (seqZ 1 (depth (self st) - 1))).
  { apply list.Forall_forall. intros d Hd. apply elem_of_seqZ in Hd. lia. }
  destruct (isWhite pos);
    (eapply returns_bind; [apply returns_warmUp; exact Hwarm|];
     intros u st1 _; apply returns_startAlphaBetaSearch; exact Hdepth).
Qed.

Lemma voteForBestMove_returns (searchers : list Searcher) (moves : list MoveRating) :
  moves <> [] -> exists winner, voteForBestMove searchers moves = Ok winner.
Proof.
  intros Hne. unfold voteForBestMove, voteWith.
  destruct (anyPathsLeadToCheckmate moves) eqn:Hany;
    destruct moves as [|first others]; try congruence; [eexists; reflexivity|].
  destruct (minmaxRating (rating first) (rating first) others) as [worst best] eqn:Hmm.
  apply minmaxRating_brackets in Hmm as (Hworst & Hbest & _ & _); [|lra].
  rewrite castVotes_ballots;
    [eexists; reflexivity
    | lra
    | apply (Forall_zip_fst (fun mr => checkmateLevel mr = None)),
        anyPathsLeadToCheckmate_false, Hany].
Qed.

Lemma chooseMove_returns (searchers : list Searcher) (candidates : list MoveRating) :
  candidates <> [] -> exists chosen, chooseMove searchers candidates = Ok chosen.
Proof.
  intros Hne. unfold chooseMove.
  rewrite zAssert_true
    by (apply negb_true_iff, bool_decide_eq_false; exact Hne).
  cbn [mbind Checked_bind].
  destruct (hasNullMove candidates); [eexists; reflexivity|].
  destruct (voteForBestMove_returns searchers candidates Hne) as (winner & ->).
  eexists. reflexivity.
Qed.

Lemma runSearchers_returns (pos : Position) (repetitionMap : RepetitionMap)
    (pending : list Searcher) (tt : PositionTable) (n : nat) :
  Forall (fun s => wellFormed s /\ 0 <= depth s <= Z.of_nat MAX_DEPTH) pending ->
  exists candidates final,
    runSearchers pos repetitionMap pending tt n = Ok (candidates, final) /\
    length candidates = length pending /\
    Forall2 (fun s s' => wellFormed s' /\ sameSearcher s s') pending (searchers final).
Proof.
  intros Hpending. revert tt n.
  induction Hpending as [|s rest [Hwf Hdepth] _ IH]; intros tt n; cbn [runSearchers].
  - eexists [], _. split; [reflexivity|]. split; [reflexivity | constructor].
  - destruct (returns_searcherCall pos repetitionMap (mkSearchState s tt n) Hdepth Hwf)
      as (candidate & st & Hrun & Hwf' & Hsame).
    rewrite Hrun. cbn [mbind Checked_bind].
    destruct (IH (table st) (loads st)) as (candidates & final & -> & Hlength & Hall).
    cbn [mbind Checked_bind].
    eexists (candidate :: candidates), _. split; [reflexivity|].
    split; [simpl; rewrite Hlength; reflexivity|].
    cbn [searchers]. constructor; [split; assumption | exact Hall].
Qed.

(** X11.  A search of at most [MAX_DEPTH] plies returns.  Whatever the
    position, the repetition map, the position table and the stop flag: when
    the coordinator has a searcher, every searcher's killer-move table is
    intact, and the depth is between 1 and 30, [findBestMove] ends with a
    move or with "no move" (no assertion fails, no array is subscripted out
    of bounds, no conversion is undefined) and leaves every searcher with
    its role and an intact killer-move table, ready for the next search. *)
Theorem search_returns_up_to_max_depth (state : AsyncSearchState) (pos : Position)
    (d : Z) (repetitionMap : RepetitionMap) :
  1 <= d <= Z.of_nat MAX_DEPTH ->
  searchers state <> [] ->
  Forall wellFormed (searchers state) ->
  exists chosen state',
    findBestMoveImpl state pos d repetitionMap = Ok (chosen, state') /\
    Forall2 (fun s s' => isHelper s' = isHelper s /\ wellFormed s')
      (searchers state) (searchers state').
Proof.
  intros Hd Hsome Hintact. unfold findBestMoveImpl.
  rewrite assignDepths_Ok by lia. cbn [mbind Checked_bind].
  set (assigned := imap (fun k s => withDepth s (staggeredDepth d k (isHelper s)))
                     (searchers state)).
  assert (Hassigned : Forall (fun s => wellFormed s /\ 0 <= depth s <= Z.of_nat MAX_DEPTH)
                        assigned).
  { apply list.Forall_forall. intros s Hs. apply elem_of_lookup_imap in Hs.
    destruct Hs as (i & s0 & -> & Hs0).
    pose proof (staggeredDepth_at_least_one d i (isHelper s0) ltac:(lia)) as Hstaggered.
    split; [exact (Forall_lookup_1 _ _ _ _ Hintact Hs0)|].
    cbn [depth withDepth]. lia. }
  destruct (runSearchers_returns pos repetitionMap assigned (sharedTable state)
              (stopLoads state) Hassigned)
    as (candidates & final & -> & Hlength & Hall).
  cbn [mbind Checked_bind].
  assert (Hcandidates : candidates <> []).
  { intros ->. simpl in Hlength. unfold assigned in Hlength.
    rewrite length_imap in Hlength. destruct (searchers state); [congruence | discriminate]. }
  destruct (chooseMove_returns (searchers final) candidates Hcandidates) as (chosen & ->).
  cbn [mbind Checked_bind].
  exists chosen, final. split; [reflexivity|].
  apply Forall2_same_length_lookup_2.
  - apply Forall2_length in Hall. unfold assigned in Hall.
    rewrite length_imap in Hall. exact Hall.
  - intros i s s' Hs Hs'.
    assert (Hi : assigned !! i
                 = Some (withDepth s (staggeredDepth d i (isHelper s)))).
    { unfold assigned. rewrite list_lookup_imap, Hs. reflexivity. }
    destruct (Forall2_lookup_lr _ _ _ _ _ _ Hall Hi Hs') as (Hwf & Hhelper & _).
    split; [exact Hhelper | exact Hwf].
Qed.

End WithBoardLaws.
End SearchReturns.

(** The line game keeps the promises of the board: it never has more than
    one legal move, and the binary exponent it takes for a logarithm gives a
    reduction of at most 20 plies. *)
Lemma LineGame_board_laws (stops : nat -> bool) : @BoardLaws (LineGame.game stops).
Proof.
  split.
  - intros n. simpl. destruct (n <? 1000)%nat; unfold MAX_MOVE_COUNT; simpl; lia.
  - intros d i Hd Hi.
    assert (Hall : forallb (fun d => forallb (fun i => isOk (@reductionOf (LineGame.game stops) d i))
                                       (seqZ 0 218)) (seqZ 0 218) = true)
      by (vm_compute; reflexivity).
    rewrite forallb_forall in Hall.
    specialize (Hall d ltac:(apply list_elem_of_In, elem_of_seqZ; lia)).
    rewrite forallb_forall in Hall.
    specialize (Hall i ltac:(apply list_elem_of_In, elem_of_seqZ; lia)).
    destruct (reductionOf d i) as [r|f]; [exists r; reflexivity | discriminate].
Qed.

(** Four workers searching position 0 of the line game twelve plies deep. *)
Lemma search_returns_up_to_max_depth_witness :
  exists chosen state',
    @findBestMoveImpl LineGame.undisturbed (LineGame.freshCoordinator (fun _ => false) 4)
      0%nat 12 [] = Ok (chosen, state') /\
    Forall2 (fun s s' => isHelper s' = isHelper s /\ wellFormed s')
      (searchers (LineGame.freshCoordinator (fun _ => false) 4)) (searchers state').
Proof.
  apply (@search_returns_up_to_max_depth LineGame.undisturbed
           (LineGame_ordering_laws (fun _ => false)) (LineGame_board_laws (fun _ => false))).
  - unfold MAX_DEPTH. lia.
  - discriminate.
  - apply AsyncSearchState_searchers_wellFormed.
Defined.

(** ** The move returned is a legal move *)

Section LegalAnswers.
Context `{Collaborators}.

Lemma answers_bind {A B} (P : A -> Prop) (Q : B -> Prop) (c : Search A) (k : A -> Search B)
    (st : SearchState) :
  answers P c st ->
  (forall a st1, c st = Ok (a, st1) -> P a -> answers Q (k a) st1) ->
  answers Q (c ≫= k) st.
Proof.
  intros Hc Hk Hsound b st' Hrun.
  apply Search_bind_Ok in Hrun as (a & st1 & Hrun1 & Hrun2).
  destruct (Hc Hsound a st1 Hrun1) as [Hsound1 Ha].
  exact (Hk a st1 Hrun1 Ha Hsound1 b st' Hrun2).
Qed.

(** A step that leaves the position table alone. *)
Lemma answers_step {A} (Q : A -> Prop) (c : Search A) (st : SearchState) :
  (forall a st', c st = Ok (a, st') -> table st' = table st /\ Q a) ->
  answers Q c st.
Proof.
  intros Hc Hsound a st' Hrun. destruct (Hc a st' Hrun) as [-> Ha].
  split; [exact Hsound | exact Ha].
Qed.

Lemma answers_yield {A} (Q : A -> Prop) (a : A) (st : SearchState) :
  Q a -> answers Q (yield a) st.
Proof. intros Ha. apply answers_step. intros a' st' [= <- <-]. split; [reflexivity | exact Ha]. Qed.

Lemma answers_weaken {A} (P Q : A -> Prop) (c : Search A) (st : SearchState) :
  (forall a, P a -> Q a) -> answers P c st -> answers Q c st.
Proof.
  intros Himpl Hc Hsound a st' Hrun. destruct (Hc Hsound a st' Hrun) as [Hsound' Ha].
  split; [exact Hsound' | apply Himpl, Ha].
Qed.

Lemma answers_pure {A} (c : Checked A) (st : SearchState) :
  answers (fun a => c = Ok a) (pure c) st.
Proof.
  apply answers_step. intros a st'. unfold pure. destruct c as [a0|f]; [|discriminate].
  intros [= <- <-]. split; reflexivity.
Qed.

Lemma answers_addKillerMove (level : Z) (killer : Move) (st : SearchState) :
  answers (fun _ => True) (addKillerMove level killer) st.
Proof.
  apply answers_step. intros u st'. unfold addKillerMove.
  destruct (m_killerMoves (self st) !! Z.to_nat level) as [entries|]; [|discriminate].
  destruct (index entries <? MAX_KILLER_MOVES)%nat; [|discriminate].
  intros Hrun. inversion Hrun. split; [reflexivity | exact I].
Qed.

Lemma answers_searchChild (recurse : bool -> Node -> AlphaBeta -> Search MoveRating)
    (maximizing : bool) (node : Node) (alphaBeta : AlphaBeta) (p : MovePriority)
    (st : SearchState) :
  trusty recurse ->
  answers (fun _ => True) (searchChild recurse maximizing node alphaBeta p) st.
Proof.
  intros Hrec. unfold searchChild.
  eapply answers_bind; [apply answers_pure|]. intros child st1 _ _.
  eapply answers_bind; [apply Hrec|]. intros childRating st2 _ _.
  destruct (isTrimmed p); [|apply answers_yield; exact I].
  match goal with |- answers _ (if ?c then _ else _) _ => destruct c end;
    [|apply answers_yield; exact I].
  eapply answers_bind; [apply answers_pure|]. intros fullDepth st3 _ _.
  eapply answers_bind; [apply answers_pure|]. intros newChild st4 _ _.
  eapply answers_weaken; [|apply Hrec]. intros r _. exact I.
Qed.

Lemma takeBetter_move (maximizing : bool) (best childRating : MoveRating) (m : Move) :
  move (takeBetter maximizing best childRating m) = move best \/
  move (takeBetter maximizing best childRating m) = m.
Proof.
  unfold takeBetter.
  destruct (if maximizing then _ else _); [right | left]; reflexivity.
Qed.

Lemma answers_searchChildren (recurse : bool -> Node -> AlphaBeta -> Search MoveRating)
    (maximizing : bool) (node : Node) (mps : list MovePriority)
    (best : MoveRating) (alphaBeta : AlphaBeta) (st : SearchState) :
  trusty recurse ->
  legalOrNull (getPos node) (move best) ->
  Forall (fun p => In (getMove p) (legalMoves (getPos node))) mps ->
  answers (fun outcome => legalOrNull (getPos node) (move (bestRating outcome)))
    (searchChildren recurse maximizing node mps best alphaBeta) st.
Proof.
  intros Hrec Hbest Hmps. revert best alphaBeta st Hbest.
  induction Hmps as [|p mps Hp _ IH]; intros best alphaBeta st Hbest; cbn [searchChildren];
    [apply answers_yield; exact Hbest|].
  eapply answers_bind; [apply answers_searchChild; exact Hrec|].
  intros childRating st1 _ _.
  assert (Hbetter : legalOrNull (getPos node)
                      (move (takeBetter maximizing best childRating (getMove p)))).
  { destruct (takeBetter_move maximizing best childRating (getMove p)) as [-> | ->];
      [exact Hbest | right; exact Hp]. }
  destruct (canPrune _).
  - eapply answers_bind with (P := fun _ => True).
    + case_bool_decide; [apply answers_addKillerMove | apply answers_yield; exact I].
    + intros u st2 _ _. apply answers_yield. exact Hbetter.
  - destruct (Rating_eqb _ _); [apply answers_yield; exact Hbetter | apply IH; exact Hbetter].
Qed.

Section WithTableLaws.
Context `{!OrderingLaws} `{!TableLaws}.

Lemma answers_finishNode (maximizing : bool) (node : Node) (original : AlphaBeta)
    (outcome : ChildLoopResult) (st : SearchState) :
  legalOrNull (getPos node) (move (bestRating outcome)) ->
  answers (fun r => legalOrNull (getPos node) (move r))
    (finishNode maximizing node original outcome) st.
Proof.
  intros Hbest Hsound r st'. rewrite finishNode_Ok. intros [= <- <-].
  split; [|exact Hbest].
  destruct (invalidTTEntry (bestRating outcome)); [exact Hsound|].
  cbn [table]. apply store_sound; [exact Hsound | exact Hbest].
Qed.

Lemma answers_bestChildPosition (recurse : bool -> Node -> AlphaBeta -> Search MoveRating)
    (maximizing : bool) (node : Node) (pvMove : Move) (alphaBeta : AlphaBeta)
    (st : SearchState) :
  trusty recurse ->
  answers (fun r => legalOrNull (getPos node) (move r))
    (bestChildPosition recurse maximizing node pvMove alphaBeta) st.
Proof.
  intros Hrec. unfold bestChildPosition.
  eapply answers_bind with (P := fun _ => True).
  { apply answers_step. intros entries st'. unfold killerEntriesAt.
    destruct (m_killerMoves (self st) !! _); [|discriminate].
    intros [= _ <-]. split; [reflexivity | exact I]. }
  intros entries st1 _ _.
  eapply answers_bind; [apply answers_pure|]. intros mps st2 _ Hmps.
  apply getMovePriorities_moves in Hmps.
  assert (Hlegal : Forall (fun p => In (getMove p) (legalMoves (getPos node))) mps).
  { rewrite list.Forall_forall. intros p Hp. apply list_elem_of_In.
    rewrite <- Hmps. apply list_elem_of_fmap_2. exact Hp. }
  eapply answers_bind with (P := fun _ => True).
  { apply answers_step. intros helper st'. intros [= _ <-]. split; [reflexivity | exact I]. }
  intros helper st3 _ _.
  eapply answers_bind
    with (P := Forall (fun p => In (getMove p) (legalMoves (getPos node)))).
  { destruct (helper && _).
    - apply answers_step. intros shuffled st'. unfold shuffleWithUrbg.
      pose proof (shuffle_Permutation mps (m_urbg (self st3))) as Hperm.
      destruct (shuffle mps (m_urbg (self st3))) as [l g]. simpl in Hperm.
      intros [= <- <-]. split; [reflexivity|]. rewrite Hperm. exact Hlegal.
    - apply answers_yield. exact Hlegal. }
  intros shuffled st4 _ Hshuffled.
  eapply answers_bind.
  - apply answers_searchChildren; [exact Hrec | left; reflexivity | exact Hshuffled].
  - intros outcome st5 _ Houtcome. apply answers_finishNode. exact Houtcome.
Qed.

Lemma answers_consultTable (node : Node) (alphaBeta : AlphaBeta) (st : SearchState) :
  answers (fun verdict =>
             match verdict with
             | Cutoff r => legalOrNull (getPos node) (move r)
             | Proceed _ _ => True
             end)
    (consultTable node alphaBeta) st.
Proof.
  intros Hsound verdict st' Hrun. unfold consultTable in Hrun.
  apply Search_bind_Ok in Hrun as (helper & st1 & [= _ <-] & Hrun).
  apply Search_bind_Ok in Hrun as (stop & st2 & [= _ <-] & Hrun).
  destruct (negb stop && _).
  - apply Search_bind_Ok in Hrun as (entryRes & st3 & Hlookup & Hrun).
    unfold lookupEntry in Hlookup. injection Hlookup as Hentry <-. cbn [table] in Hentry.
    destruct entryRes as [entry|]; injection Hrun as <- <-; (split; [exact Hsound|]); [|exact I].
    apply Hsound in Hentry.
    unfold consultEntry.
    destruct (negb _ && _); [|exact I].
    destruct (bound entry); [| destruct (Rating_leb _ _) | destruct (Rating_leb _ _)];
      first [exact Hentry | exact I].
  - injection Hrun as <- <-. split; [exact Hsound | exact I].
Qed.

(** Whatever the fuel, [tryShortCircuit] answers with the null move or a
    legal move of its node, and keeps the position table sound. *)
Lemma tryShortCircuit_answers (fuel : nat) : trusty (tryShortCircuit fuel).
Proof.
  induction fuel as [|fuel IH]; intros maximizing node alphaBeta st;
    rewrite tryShortCircuit_unfold;
    (case_bool_decide;
     [apply answers_yield; left; unfold terminalResult;
      destruct (isCheckmate _); reflexivity|]);
    (destruct (3 <=? _); [apply answers_yield; left; reflexivity|]);
    (eapply answers_bind with (P := fun _ => True);
     [apply answers_step; intros stop st'; intros [= _ <-]; split; [reflexivity | exact I]|];
     intros stop st1 _ _);
    (destruct stop; [apply answers_yield; left; reflexivity|]);
    (eapply answers_bind; [apply answers_consultTable|]);
    intros [r | pv window] st2 _ Hverdict; try (apply answers_yield; exact Hverdict);
    unfold continueSearch; destruct (isDone node);
    try (apply answers_yield; left; reflexivity).
  - intros _ r st' Hrun. discriminate.
  - apply answers_bestChildPosition. exact IH.
Qed.

Lemma answers_startAlphaBetaSearch (maximizing : bool) (pos : Position) (d : Z)
    (repetitionMap : RepetitionMap) (st : SearchState) :
  answers (fun r => legalOrNull pos (move r))
    (startAlphaBetaSearch maximizing pos d repetitionMap) st.
Proof. apply (tryShortCircuit_answers _ maximizing (Node_root pos d repetitionMap)). Qed.

Lemma answers_warmUp (maximizing : bool) (pos : Position) (repetitionMap : RepetitionMap)
    (iterDepths : list Z) (st : SearchState) :
  answers (fun _ => True) (warmUp maximizing pos repetitionMap iterDepths) st.
Proof.
  revert st. induction iterDepths as [|d rest IH]; intros st; cbn [warmUp];
    [apply answers_yield; exact I|].
  eapply answers_bind; [apply answers_startAlphaBetaSearch|].
  intros r st1 _ _. apply IH.
Qed.

Lemma answers_searcherCall (pos : Position) (repetitionMap : RepetitionMap)
    (st : SearchState) :
  answers (fun r => legalOrNull pos (move r)) (searcherCall pos repetitionMap) st.
Proof.
  unfold searcherCall, iterativeDeepening.
  destruct (isWhite pos);
    (eapply answers_bind; [apply answers_warmUp|];
     intros u st1 _ _; apply answers_startAlphaBetaSearch).
Qed.

Lemma runSearchers_answers (pos : Position) (repetitionMap : RepetitionMap)
    (pending : list Searcher) (tt : PositionTable) (n : nat)
    (candidates : list MoveRating) (final : AsyncSearchState) :
  tableSound tt ->
  runSearchers pos repetitionMap pending tt n = Ok (candidates, final) ->
  tableSound (sharedTable final) /\
  Forall (fun r => legalOrNull pos (move r)) candidates /\
  length candidates = length (searchers final).
Proof.
  revert tt n candidates final.
  induction pending as [|s rest IH]; intros tt n candidates final Hsound; cbn [runSearchers].
  - intros [= <- <-]. split; [exact Hsound|]. split; [constructor | reflexivity].
  - intros Hrun. apply Checked_bind_Ok in Hrun as ([candidate st] & Hcall & Hrun).
    apply Checked_bind_Ok in Hrun as ([others final'] & Hrest & Hrun).
    injection Hrun as <- <-.
    destruct (answers_searcherCall pos repetitionMap (mkSearchState s tt n) Hsound
                candidate st Hcall) as [Hsound' Hcandidate].
    destruct (IH _ _ _ _ Hsound' Hrest) as (Hfinal & Hothers & Hlength).
    split; [exact Hfinal|]. split; [constructor; assumption|].
    simpl. rewrite Hlength. reflexivity.
Qed.

End WithTableLaws.

Lemma accumulatedWeight_positive (cast : list (Move * Rating)) (m : Move) :
  (0 < accumulatedWeight cast m)%Q -> In m (map fst cast).
Proof.
  induction cast as [|[voted weight] cast IH]; simpl; [lra|].
  case_bool_decide as Hvoted; [intros _; left; exact Hvoted|].
  intros Hpos. right. apply IH. lra.
Qed.

Lemma ballots_moves (searchers : list Searcher) (moves : list MoveRating) (m : Move) :
  In m (map fst (ballots searchers moves)) -> exists mr, In mr moves /\ move mr = m.
Proof.
  unfold ballots. destruct moves as [|first others]; [intros []|].
  destruct (minmaxRating (rating first) (rating first) others) as [worst best].
  rewrite map_map. intros Hin. apply in_map_iff in Hin as ([mr s] & Hm & Hin).
  simpl in Hm. exists mr. split; [|exact Hm].
  apply list_elem_of_In, elem_of_zip_l in Hin. apply list_elem_of_In. exact Hin.
Qed.

(** The move the vote returns is the move of one of the candidates. *)
Lemma voteForBestMove_candidate (searchers : list Searcher) (moves : list MoveRating)
    (winner : Move) :
  (length moves <= length searchers)%nat ->
  voteForBestMove searchers moves = Ok winner ->
  exists mr, In mr moves /\ move mr = winner.
Proof.
  intros Hlength Hvote.
  destruct (anyPathsLeadToCheckmate moves) eqn:Hany.
  - unfold voteForBestMove, voteWith in Hvote. rewrite Hany in Hvote.
    destruct moves as [|first others]; [discriminate|]. injection Hvote as <-.
    exists (minElement checkmateKey first others). split; [|reflexivity].
    destruct (minElement_least checkmateKey others first) as ([-> | Hin] & _);
      [left; reflexivity | right; exact Hin].
  - assert (Hne : moves <> []).
    { intros ->. unfold voteForBestMove, voteWith in Hvote. simpl in Hvote. discriminate. }
    apply voteForBestMove_ballots in Hvote as [Hwinner Hnonneg]; [|exact Hany].
    pose proof (Counted_all (ballots searchers moves) [] Tally_initial
                  (Forall_nil_2 _) Hnonneg Counted_initial) as [_ Hbound Hbest _].
    simpl in Hbound, Hbest. rewrite <- Hwinner in Hbest.
    destruct (ballots_some_positive searchers moves Hne Hlength) as (m & weight & Hin & Hweight).
    pose proof (accumulatedWeight_In _ m weight Hnonneg Hin) as Hm.
    pose proof (Hbound m) as Hmax.
    apply (ballots_moves searchers), accumulatedWeight_positive. lra.
Qed.

Lemma hasNullMove_false (candidates : list MoveRating) :
  hasNullMove candidates = false -> Forall (fun r => move r <> Move_null) candidates.
Proof.
  unfold hasNullMove. induction candidates as [|r rest IH]; simpl; [constructor|].
  intros Hnone. apply orb_false_iff in Hnone as [Hr Hrest].
  constructor; [apply bool_decide_eq_false in Hr; exact Hr | apply IH; exact Hrest].
Qed.

Section LegalMove.
Context `{!OrderingLaws} `{!TableLaws}.

(** X14.  Over a sound position table, the move [findBestMove] returns is a
    legal move of the position it was asked about, never the null move and
    never a move of another position; and the table is sound again when the
    search is over, whatever it returned. *)
Theorem best_move_is_a_legal_move (state : AsyncSearchState) (pos : Position) (d : Z)
    (repetitionMap : RepetitionMap) (chosen : option Move) (state' : AsyncSearchState) :
  tableSound (sharedTable state) ->
  findBestMoveImpl state pos d repetitionMap = Ok (chosen, state') ->
  tableSound (sharedTable state') /\
  forall m, chosen = Some m -> In m (legalMoves pos) /\ m <> Move_null.
Proof.
  intros Hsound Hfind. unfold findBestMoveImpl in Hfind.
  apply Checked_bind_Ok in Hfind as (assigned & _ & Hfind).
  apply Checked_bind_Ok in Hfind as ([candidates final] & Hrun & Hfind).
  apply Checked_bind_Ok in Hfind as (chosen' & Hchoose & Hfind).
  injection Hfind as <- <-.
  apply runSearchers_answers in Hrun as (Hfinal & Hcandidates & Hlength); [|exact Hsound].
  split; [exact Hfinal|]. intros m ->.
  unfold chooseMove in Hchoose.
  apply Checked_bind_Ok in Hchoose as (u & _ & Hchoose).
  destruct (hasNullMove candidates) eqn:Hnull; [discriminate|].
  apply Checked_bind_Ok in Hchoose as (winner & Hvote & [= ->]).
  apply voteForBestMove_candidate in Hvote as (mr & Hin & <-); [|lia].
  apply hasNullMove_false in Hnull.
  rewrite list.Forall_forall in Hnull, Hcandidates.
  apply list_elem_of_In in Hin.
  specialize (Hnull mr Hin). split; [|exact Hnull].
  destruct (Hcandidates mr Hin) as [Hnone | Hlegal]; [contradiction | exact Hlegal].
Qed.

End LegalMove.
End LegalAnswers.

(** ** Chess.UCI:SearchThread: what is printed, and when *)

Section OutputFacts.
Context `{Collaborators}.

(** X15.  Only the end of a committed search prints, and it prints one
    line: a step of the search thread either leaves the output as it is, or
    it is the step that takes the result of a committed search while the
    thread is not stopping, and appends the UCI string of the move that
    search returned.  In particular the pondering search never prints. *)
Theorem only_a_committed_search_prints (stopping : bool) (m m' : SearchThread.Machine) :
  SearchThread.step stopping m = Ok (Some m') ->
  SearchThread.printed m' = SearchThread.printed m \/
  (stopping = false /\
   exists stateCopy best searcher',
     SearchThread.control m = SearchThread.Committing stateCopy /\
     findBestMove (SearchThread.m_searcher m) (SearchThread.pos stateCopy)
       (SearchThread.depth stateCopy) (SearchThread.repetitionMap stateCopy)
     = Ok (Some best, searcher') /\
     SearchThread.printed m' = SearchThread.printed m ++ [getUCIString best]).
Proof.
  unfold SearchThread.step.
  destruct (SearchThread.control m) as [| | |stateCopy| |stateCopy|] eqn:Hcontrol.
  - intros [= <-]. left. reflexivity.
  - intros [= <-]. left. reflexivity.
  - destruct (_ || _ || _); [|discriminate]. intros [= <-]. left. reflexivity.
  - destruct (findBestMove _ _ _ _) as [[found searcher']|f]; [|discriminate].
    intros [= <-]. left. reflexivity.
  - destruct stopping; intros [= <-]; left; reflexivity.
  - destruct (findBestMove _ _ _ _) as [[found searcher']|f] eqn:Hfound; [|discriminate].
    cbn [mbind Checked_bind]. unfold SearchThread.afterCommitted.
    destruct found as [best|].
    + destruct stopping; cbn [negb].
      * intros [= <-]. left. cbn [SearchThread.printed]. apply app_nil_r.
      * intros [= <-]. right. split; [reflexivity|].
        exists stateCopy, best, searcher'. repeat split. exact Hfound.
    + intros [= <-]. left. cbn [SearchThread.printed]. apply app_nil_r.
  - discriminate.
Qed.

(** One event keeps the account: what is printed and what is owed grows by
    at most one, and only with a [go]. *)
Lemma perform_keeps_account (e : Session.Event) (m m' : SearchThread.Machine) :
  Session.perform e m = Ok m' ->
  Session.commitIsRequested m ->
  Session.commitIsRequested m' /\
  (length (SearchThread.printed m') + Session.owed m'
   <= length (SearchThread.printed m) + Session.owed m
      + (if Session.isGo e then 1 else 0))%nat.
Proof.
  unfold Session.commitIsRequested, Session.owed.
  destruct e as [|state|d|]; cbn [Session.perform Session.isGo].
  - unfold SearchThread.step.
    destruct (SearchThread.control m) as [| | |stateCopy| |stateCopy|] eqn:Hcontrol;
      cbn [mbind Checked_bind].
    + intros [= <-] _. cbn. split; [discriminate | lia].
    + intros [= <-] _. cbn.
      destruct (SearchThread.m_calculationRequested (SearchThread.shared m)); cbn;
        (split; [congruence | lia]).
    + destruct (SearchThread.m_shouldPonder (SearchThread.shared m));
        destruct (SearchThread.m_calculationRequested (SearchThread.shared m)) eqn:Hcalc;
        cbn; intros [= <-] _; cbn; rewrite ?Hcontrol, ?Hcalc;
        (split; [congruence | lia]).
    + destruct (findBestMove _ _ _ _) as [[found searcher']|f]; [|discriminate].
      cbn [mbind Checked_bind]. intros [= <-] _. cbn.
      split; [discriminate|].
      unfold SearchThread.afterPonder.
      destruct found; [lia|].
      destruct (SearchThread.m_calculationRequested (SearchThread.shared m)) eqn:Hcalc;
        cbn; rewrite ?Hcalc; lia.
    + intros [= <-] Hrequested. cbn. rewrite (Hrequested eq_refl).
      split; [discriminate | lia].
    + destruct (findBestMove _ _ _ _) as [[found searcher']|f]; [|discriminate].
      cbn [mbind Checked_bind]. unfold SearchThread.afterCommitted.
      destruct found as [best|]; cbn [negb].
      * destruct (SearchThread.m_calculationRequested (SearchThread.shared m)) eqn:Hcalc;
          intros [= <-] _; cbn; rewrite ?Hcalc; cbn; rewrite ?length_app; cbn;
          (split; [discriminate | lia]).
      * intros [= <-] _. cbn.
        destruct (SearchThread.m_calculationRequested (SearchThread.shared m));
          rewrite ?length_app; cbn; (split; [discriminate | lia]).
    + intros [= <-] Hrequested. cbn. rewrite Hcontrol.
      split; [discriminate | lia].
  - intros [= <-] Hrequested. cbn.
    split; [exact Hrequested | destruct (SearchThread.control m); lia].
  - intros [= <-] _. cbn. split; [reflexivity|].
    destruct (SearchThread.control m);
      destruct (SearchThread.m_calculationRequested (SearchThread.shared m)); lia.
  - intros [= <-] Hrequested. cbn.
    split; [exact Hrequested | destruct (SearchThread.control m); lia].
Qed.

Lemma performAll_keeps_account (events : list Session.Event) (m m' : SearchThread.Machine) :
  Session.performAll events m = Ok m' ->
  Session.commitIsRequested m ->
  (length (SearchThread.printed m') + Session.owed m'
   <= length (SearchThread.printed m) + Session.owed m + Session.goCount events)%nat.
Proof.
  revert m. induction events as [|e rest IH]; intros m; cbn [Session.performAll].
  - intros [= <-] _. unfold Session.goCount. simpl. lia.
  - intros Hrun Hrequested. apply Checked_bind_Ok in Hrun as (m1 & Hstep & Hrun).
    destruct (perform_keeps_account e m m1 Hstep Hrequested) as [Hrequested1 Hstep1].
    specialize (IH m1 Hrun Hrequested1).
    unfold Session.goCount in *. simpl. destruct (Session.isGo e); simpl; lia.
Qed.

(** X16.  One answer per [go].  From a thread that is neither in nor at the
    start of a committed search and has no calculation requested, whatever
    commands the protocol thread interleaves with the steps of the search
    thread, the number of lines printed is at most the number of [go]
    commands; pondering, new positions and [stop] commands never add a line
    of their own. *)
Theorem at_most_one_answer_per_go (events : list Session.Event) (m m' : SearchThread.Machine) :
  SearchThread.m_calculationRequested (SearchThread.shared m) = false ->
  SearchThread.control m <> SearchThread.AtCommit ->
  (forall stateCopy, SearchThread.control m <> SearchThread.Committing stateCopy) ->
  Session.performAll events m = Ok m' ->
  (length (SearchThread.printed m')
   <= length (SearchThread.printed m) + Session.goCount events)%nat.
Proof.
  intros Hcalc Hcommit Hcommitting Hrun.
  pose proof (performAll_keeps_account events m m' Hrun) as Haccount.
  assert (Howed : Session.owed m = 0%nat).
  { unfold Session.owed. rewrite Hcalc.
    destruct (SearchThread.control m) as [| | |sc| |sc|]; try reflexivity.
    exfalso. exact (Hcommitting sc eq_refl). }
  rewrite Howed in Haccount.
  assert (Hrequested : Session.commitIsRequested m) by (intros Hat; contradiction).
  specialize (Haccount Hrequested). lia.
Qed.

End OutputFacts.

(** A session of the line game on a two-thread machine: a position, a [go],
    the steps up to the end of the committed search, a second position and a
    [stop].  It runs, and prints the one move. *)
Lemma line_game_session :
  match
    @Session.performAll LineGame.undisturbed
      [Session.SetPosition LineGame.startPosition; Session.Go 1;
       Session.Tick; Session.Tick; Session.Tick; Session.Tick;
       Session.SetPosition LineGame.startPosition; Session.Stop; Session.Tick]
      (LineGame.threadAt SearchThread.AtLoopHead false)
  with
  | Ok m' => bool_decide (SearchThread.printed m' = ["a2a3"%string])
  | Failed _ => false
  end = true.
Proof. vm_compute. reflexivity. Qed.

Lemma at_most_one_answer_per_go_witness :
  exists m',
    @Session.performAll LineGame.undisturbed
      [Session.SetPosition LineGame.startPosition; Session.Go 1;
       Session.Tick; Session.Tick; Session.Tick; Session.Tick;
       Session.SetPosition LineGame.startPosition; Session.Stop; Session.Tick]
      (LineGame.threadAt SearchThread.AtLoopHead false) = Ok m' /\
    SearchThread.printed m' = ["a2a3"%string] /\
    (length (SearchThread.printed m')
     <= length (SearchThread.printed (LineGame.threadAt SearchThread.AtLoopHead false))
        + Session.goCount
            [Session.SetPosition LineGame.startPosition; Session.Go 1;
             Session.Tick; Session.Tick; Session.Tick; Session.Tick;
             Session.SetPosition LineGame.startPosition; Session.Stop; Session.Tick])%nat.
Proof.
  pose proof line_game_session as Hsession. revert Hsession.
  destruct (Session.performAll _ _) as [m'|f] eqn:Hrun;
    intros Hprinted; [|discriminate Hprinted]. apply bool_decide_eq_true in Hprinted.
  exists m'. split; [reflexivity|]. split; [exact Hprinted|].
  apply (@at_most_one_answer_per_go LineGame.undisturbed _ _ m');
    [reflexivity | discriminate | discriminate | exact Hrun].
Defined.

(** The step that ends the committed search of position 0 is taken. *)
Lemma line_game_commit_step :
  match
    @SearchThread.step LineGame.undisturbed false
      (LineGame.threadAt (SearchThread.Committing LineGame.startPosition) false)
  with
  | Ok (Some _) => true
  | _ => false
  end = true.
Proof. vm_compute. reflexivity. Qed.

Lemma only_a_committed_search_prints_witness :
  exists m',
    @SearchThread.step LineGame.undisturbed false
      (LineGame.threadAt (SearchThread.Committing LineGame.startPosition) false)
    = Ok (Some m') /\
    (SearchThread.printed m' = [] \/
     exists best, SearchThread.printed m' = [] ++ [@getUCIString LineGame.undisturbed best]).
Proof.
  pose proof line_game_commit_step as Hstep. revert Hstep.
  destruct (SearchThread.step _ _) as [[m'|]|f] eqn:Hstep;
    intros Htaken; try discriminate Htaken.
  exists m'. split; [reflexivity|].
  destruct (@only_a_committed_search_prints LineGame.undisturbed false _ m' Hstep)
    as [Hsame | (_ & sc & best & s' & _ & _ & Hprinted)].
  - left. exact Hsame.
  - right. exists best. exact Hprinted.
Defined.

(** ** Chess.MoveSearch: the ring of killer moves *)

Section KillerRing.
Context `{Collaborators}.

Lemma addKillerMove_Ok (level : Z) (killer : Move) (st : SearchState)
    (row : KillerMoveEntries) :
  m_killerMoves (self st) !! Z.to_nat level = Some row ->
  (index row < MAX_KILLER_MOVES)%nat ->
  exists st',
    addKillerMove level killer st = Ok (tt, st') /\
    m_killerMoves (self st')
    = <[Z.to_nat level := killerWritten killer row]> (m_killerMoves (self st)) /\
    table st' = table st /\ loads st' = loads st /\
    m_helper (self st') = m_helper (self st) /\ depth (self st') = depth (self st).
Proof.
  intros Hrow Hindex. unfold addKillerMove. rewrite Hrow.
  replace (index row <? MAX_KILLER_MOVES)%nat with true
    by (symmetry; apply Nat.ltb_lt; exact Hindex).
  eexists. split; [reflexivity|]. repeat split.
Qed.

(** X17.  The killer moves of a level are a ring of three.  Three quiet
    cutoffs in a row at one level leave exactly their three moves in the
    row, whatever it held, and bring the ring index back to where it was;
    the rows of the other levels, the position table and the searcher's
    other members are untouched. *)
Theorem killer_ring_keeps_the_last_three (level : Z) (k1 k2 k3 : Move) (st : SearchState) :
  wellFormed (self st) ->
  0 <= level < Z.of_nat MAX_DEPTH ->
  exists st' row row',
    (addKillerMove level k1 ≫= fun _ =>
     addKillerMove level k2 ≫= fun _ => addKillerMove level k3) st = Ok (tt, st') /\
    m_killerMoves (self st) !! Z.to_nat level = Some row /\
    m_killerMoves (self st') !! Z.to_nat level = Some row' /\
    index row' = index row /\
    Permutation (killerMoves row') [k1; k2; k3] /\
    (forall other : nat,
       other <> Z.to_nat level ->
       m_killerMoves (self st') !! other = m_killerMoves (self st) !! other) /\
    table st' = table st /\
    m_helper (self st') = m_helper (self st) /\ depth (self st') = depth (self st).
Proof.
  intros Hwf Hlevel. pose proof Hwf as [Hlength Hrows].
  set (n := Z.to_nat level).
  assert (Hn : (n < length (m_killerMoves (self st)))%nat) by (rewrite Hlength; lia).
  destruct (lookup_lt_is_Some_2 _ _ Hn) as [row Hrow].
  pose proof (Forall_lookup_1 _ _ _ _ Hrows Hrow) as (Hslots & Hindex & _).
  assert (Hnext : forall killer r,
             (index r < MAX_KILLER_MOVES)%nat ->
             (index (killerWritten killer r) < MAX_KILLER_MOVES)%nat).
  { intros killer r Hr. unfold killerWritten. cbn [index].
    destruct (index r + 1 =? MAX_KILLER_MOVES)%nat eqn:Hwrap;
      [unfold MAX_KILLER_MOVES; lia | apply Nat.eqb_neq in Hwrap; lia]. }
  destruct (addKillerMove_Ok level k1 st row Hrow Hindex)
    as (st1 & Hrun1 & Hkillers1 & Htable1 & _ & Hhelper1 & Hdepth1).
  assert (Hrow1 : m_killerMoves (self st1) !! n = Some (killerWritten k1 row))
    by (rewrite Hkillers1; apply list_lookup_insert_eq; exact Hn).
  destruct (addKillerMove_Ok level k2 st1 _ Hrow1 (Hnext _ _ Hindex))
    as (st2 & Hrun2 & Hkillers2 & Htable2 & _ & Hhelper2 & Hdepth2).
  assert (Hrow2 : m_killerMoves (self st2) !! n
                  = Some (killerWritten k2 (killerWritten k1 row))).
  { rewrite Hkillers2. apply list_lookup_insert_eq. rewrite Hkillers1, length_insert.
    exact Hn. }
  destruct (addKillerMove_Ok level k3 st2 _ Hrow2 (Hnext _ _ (Hnext _ _ Hindex)))
    as (st3 & Hrun3 & Hkillers3 & Htable3 & _ & Hhelper3 & Hdepth3).
  exists st3, row, (killerWritten k3 (killerWritten k2 (killerWritten k1 row))).
  split.
  { unfold mbind, Search_bind. rewrite Hrun1, Hrun2. exact Hrun3. }
  split; [exact Hrow|]. split.
  { rewrite Hkillers3. apply list_lookup_insert_eq.
    rewrite Hkillers2, Hkillers1, !length_insert. exact Hn. }
  assert (Hring : index (killerWritten k3 (killerWritten k2 (killerWritten k1 row)))
                  = index row /\
                  Permutation
                    (killerMoves (killerWritten k3 (killerWritten k2 (killerWritten k1 row))))
                    [k1; k2; k3]).
  { destruct row as [slots i]. cbn [killerMoves index] in Hslots, Hindex.
    destruct slots as [|a [|b [|c [|]]]]; try discriminate Hslots.
    unfold MAX_KILLER_MOVES in Hindex.
    destruct i as [|[|[|]]]; try lia; unfold killerWritten; cbn; split; try reflexivity.
    - change (Permutation [k3; k1; k2] [k1; k2; k3]).
      rewrite (Permutation_cons_append [k1; k2] k3). reflexivity.
    - change (Permutation [k2; k3; k1] [k1; k2; k3]).
      symmetry. apply (Permutation_cons_append [k2; k3] k1). }
  destruct Hring as [Hsame Hperm].
  split; [exact Hsame|]. split; [exact Hperm|]. split.
  { intros other Hother.
    rewrite Hkillers3, Hkillers2, Hkillers1, !list_lookup_insert_ne by (fold n; congruence).
    reflexivity. }
  split; [congruence|]. split; congruence.
Qed.

End KillerRing.

(** A fresh main searcher after three quiet cutoffs at level 4. *)
Lemma killer_ring_keeps_the_last_three_witness :
  exists st' row',
    (@addKillerMove LineGame.undisturbed 4 LineGame.advance ≫= fun _ =>
     @addKillerMove LineGame.undisturbed 4 LineGame.sidestep ≫= fun _ =>
     @addKillerMove LineGame.undisturbed 4 Skirmish.blocks) (LineGame.mainWorker ∅ 6)
    = Ok (tt, st') /\
    m_killerMoves (self st') !! 4%nat = Some row' /\
    Permutation (killerMoves row') [LineGame.advance; LineGame.sidestep; Skirmish.blocks].
Proof.
  destruct (@killer_ring_keeps_the_last_three LineGame.undisturbed 4
              LineGame.advance LineGame.sidestep Skirmish.blocks (LineGame.mainWorker ∅ 6))
    as (st' & row & row' & Hrun & _ & Hrow' & _ & Hperm & _).
  - apply Searcher_new_wellFormed.
  - unfold MAX_DEPTH. lia.
  - exists st', row'. split; [exact Hrun|]. split; [exact Hrow' | exact Hperm].
Defined.

(** ** Chess.MoveSearch: who can win the vote *)

Section VoteOfTheLowest.
Context `{Collaborators}.
#[local] Open Scope Q_scope.

Lemma minmaxRating_worst_attained (l : list MoveRating) (worst0 best0 worst best : Rating) :
  minmaxRating worst0 best0 l = (worst, best) ->
  worst = worst0 \/ exists mr, In mr l /\ rating mr = worst.
Proof.
  revert worst0 best0. induction l as [|mr l IH]; intros worst0 best0; simpl.
  - intros [= <- _]. left. reflexivity.
  - intros Hmm. apply IH in Hmm as [-> | (mr' & Hin & Hmr')].
    + destruct (Rating_ltb (rating mr) worst0);
        [right; exists mr; split; [left; reflexivity | reflexivity] | left; reflexivity].
    + right. exists mr'. split; [right; exact Hin | exact Hmr'].
Qed.

Lemma accumulatedWeight_ballot (cast : list (Move * Rating)) (m : Move) :
  0 < accumulatedWeight cast m ->
  Forall (fun ballot => 0 <= snd ballot) cast ->
  exists weight, In (m, weight) cast /\ 0 < weight.
Proof.
  intros Hpos Hnonneg. induction Hnonneg as [|[voted w] cast Hw _ IH]; simpl in *; [lra|].
  case_bool_decide as Hvoted.
  - destruct (Qlt_le_dec 0 w) as [Hwpos | Hwzero].
    + exists w. split; [left; rewrite Hvoted; reflexivity | exact Hwpos].
    + destruct IH as (weight & Hin & Hweight); [lra|].
      exists weight. split; [right; exact Hin | exact Hweight].
  - destruct IH as (weight & Hin & Hweight); [lra|].
    exists weight. split; [right; exact Hin | exact Hweight].
Qed.

Lemma quietWeight_positive (searcher : Searcher) (mr : MoveRating) (worst diff : Rating) :
  0 < diff -> 0 < quietWeight searcher mr worst diff -> worst < rating mr.
Proof.
  intros Hdiff Hweight. unfold quietWeight in Hweight.
  pose proof (searcher_base_weight_positive searcher) as Hbase.
  destruct (Rating_eqb diff 0) eqn:Hzero; simpl in Hweight.
  - apply Rating_eqb_eq in Hzero. lra.
  - apply Qnot_le_lt. intros Hle.
    assert (Hshare : SCORE_BOOST * (rating mr - worst) / diff <= 0).
    { apply Qle_shift_div_r; [exact Hdiff|]. unfold SCORE_BOOST. lra. }
    nra.
Qed.

(** X18.  The weighted vote never goes to a move that only the lowest-rated
    candidates propose.  When the candidates' ratings differ (and none
    reports a checkmate), the weight of a vote grows with the rating whoever
    is to move, a candidate with the lowest rating votes with weight zero,
    and so the winner is the move of a candidate rated above another. *)
Theorem lowest_rated_candidates_cannot_win
    (searchers : list Searcher) (moves : list MoveRating) (winner : Move) :
  anyPathsLeadToCheckmate moves = false ->
  (length moves <= length searchers)%nat ->
  (exists a b, In a moves /\ In b moves /\ rating a < rating b) ->
  voteForBestMove searchers moves = Ok winner ->
  exists mr lower,
    In mr moves /\ move mr = winner /\ In lower moves /\ rating lower < rating mr.
Proof.
  intros Hany Hlength (a & b & Ha & Hb & Hab) Hvote.
  assert (Hne : moves <> []) by (intros ->; contradiction).
  apply voteForBestMove_ballots in Hvote as [Hwinner Hnonneg]; [|exact Hany].
  pose proof (Counted_all (ballots searchers moves) [] Tally_initial
                (Forall_nil_2 _) Hnonneg Counted_initial) as [_ Hbound Hbest _].
  simpl in Hbound, Hbest. rewrite <- Hwinner in Hbest.
  destruct (ballots_some_positive searchers moves Hne Hlength) as (m & w & Hin & Hw).
  pose proof (accumulatedWeight_In _ m w Hnonneg Hin) as Hm.
  pose proof (Hbound m) as Hmax.
  destruct (accumulatedWeight_ballot (ballots searchers moves) winner) as (weight & Hballot & Hweight);
    [lra | exact Hnonneg|].
  clear Hbound Hbest Hin Hm Hmax Hnonneg Hwinner.
  unfold ballots in Hballot. destruct moves as [|first others]; [contradiction|].
  destruct (minmaxRating (rating first) (rating first) others) as [worst best] eqn:Hmm.
  pose proof (minmaxRating_worst_attained _ _ _ _ _ Hmm) as Hattained.
  apply minmaxRating_brackets in Hmm as (Hworst & Hbest & Hall & _); [|lra].
  assert (Hbracket : forall x, In x (first :: others) -> worst <= rating x <= best).
  { intros x [<- | Hx]; [lra|]. rewrite list.Forall_forall in Hall.
    apply Hall, list_elem_of_In, Hx. }
  pose proof (Hbracket a Ha) as Hra. pose proof (Hbracket b Hb) as Hrb.
  apply in_map_iff in Hballot as ([mr s] & Heq & Hzip). injection Heq as Hmove Hweq.
  subst weight. apply quietWeight_positive in Hweight; [|lra].
  assert (Hmr : In mr (first :: others)).
  { apply list_elem_of_In. apply list_elem_of_In, elem_of_zip_l in Hzip. exact Hzip. }
  assert (Hlower : exists lower, In lower (first :: others) /\ rating lower = worst).
  { destruct Hattained as [-> | (lower & Hin & Hlower)].
    - exists first. split; [left; reflexivity | reflexivity].
    - exists lower. split; [right; exact Hin | exact Hlower]. }
  destruct Hlower as (lower & Hlin & Hlower).
  exists mr, lower. split; [exact Hmr|]. split; [exact Hmove|]. split; [exact Hlin|].
  rewrite Hlower. exact Hweight.
Qed.

End VoteOfTheLowest.

(** The main searcher, ten plies deep, rates its move 1; a helper, one ply
    deep, rates another move 2: the helper's move wins. *)
Lemma lowest_rated_candidates_cannot_win_witness :
  let searchers :=
    [@withDepth LineGame.undisturbed (@Searcher_new LineGame.undisturbed tt false) 10;
     @withDepth LineGame.undisturbed (@Searcher_new LineGame.undisturbed tt true) 1] in
  let moves :=
    [mkMoveRating LineGame.advance 1%Q false None;
     mkMoveRating LineGame.sidestep 2%Q false None] in
  @voteForBestMove LineGame.undisturbed searchers moves = Ok LineGame.sidestep /\
  exists mr lower,
    In mr moves /\ move mr = LineGame.sidestep /\ In lower moves /\
    (rating lower < rating mr)%Q.
Proof.
  intros searchers moves. split; [vm_compute; reflexivity|].
  apply (@lowest_rated_candidates_cannot_win LineGame.undisturbed searchers moves).
  - reflexivity.
  - simpl. lia.
  - exists (mkMoveRating LineGame.advance 1%Q false None),
      (mkMoveRating LineGame.sidestep 2%Q false None).
    split; [left; reflexivity|]. split; [right; left; reflexivity|]. reflexivity.
  - vm_compute. reflexivity.
Defined.

(** ** The command line *)

Lemma digitOf_numeral (d : Z) :
  0 <= d <= 9 ->
  CommandLine.digitOf (Ascii.ascii_of_nat (Z.to_nat (48 + d))) = Some d.
Proof.
  intros Hd.
  assert (Hcases : d = 0 \/ d = 1 \/ d = 2 \/ d = 3 \/ d = 4 \/ d = 5 \/ d = 6 \/ d = 7
                   \/ d = 8 \/ d = 9) by lia.
  repeat (destruct Hcases as [-> | Hcases]; [reflexivity|]). subst d. reflexivity.
Qed.

Lemma leadingDigits_numeral (digits : list Z) (rest : string) :
  Forall (fun d => 0 <= d <= 9) digits ->
  CommandLine.leadingDigits rest = [] ->
  CommandLine.leadingDigits (CommandLine.numeral digits ++ rest) = digits.
Proof.
  intros Hdigits Hrest. induction Hdigits as [|d digits Hd _ IH]; simpl; [exact Hrest|].
  rewrite digitOf_numeral by exact Hd. rewrite IH. reflexivity.
Qed.

Lemma digitOf_range (c : Ascii.ascii) (d : Z) :
  CommandLine.digitOf c = Some d -> 0 <= d <= 9.
Proof.
  unfold CommandLine.digitOf.
  destruct (_ && _) eqn:Hdigit; [|discriminate]. intros [= <-]. comparisons. lia.
Qed.

Lemma leadingDigits_range (s : string) :
  Forall (fun d => 0 <= d <= 9) (CommandLine.leadingDigits s).
Proof.
  induction s as [|c s IH]; simpl; [constructor|].
  destruct (CommandLine.digitOf c) as [d|] eqn:Hd; [|constructor].
  constructor; [apply (digitOf_range c); exact Hd | exact IH].
Qed.

(** X19.  How the depth argument of [uci [depth]] is read.  The argument
    counts for the decimal numeral it starts with: whatever follows the
    digits is ignored, leading zeros are allowed, and a sign or a leading
    blank makes it unreadable.  A numeral above 255 is reported as
    unreadable, a zero as too small, and any other value starts the engine
    at that depth; with any other number of arguments the usage line is
    printed. *)
Theorem depth_argument_is_read_as_a_numeral (argv : list string) :
  (length argv <> 3%nat ->
   CommandLine.playUCIWithDepth argv
   = CommandLine.Complaint "Error: uci with depth requires 1 argument: [depth]") /\
  (forall program command argument,
     argv = [program; command; argument] ->
     CommandLine.leadingDigits argument = [] ->
     CommandLine.playUCIWithDepth argv
     = CommandLine.Complaint "Error: could not parse depth argument") /\
  (forall program command digits rest,
     argv = [program; command; (CommandLine.numeral digits ++ rest)%string] ->
     digits <> [] ->
     Forall (fun d => 0 <= d <= 9) digits ->
     CommandLine.leadingDigits rest = [] ->
     CommandLine.playUCIWithDepth argv
     = (if 255 <? CommandLine.valueOf digits
        then CommandLine.Complaint "Error: could not parse depth argument"
        else if CommandLine.valueOf digits <? 1
             then CommandLine.Complaint "Error: depth must be at least 1"
             else CommandLine.PlayUCI (CommandLine.valueOf digits))).
Proof.
  split; [|split].
  - intros Hcount. unfold CommandLine.playUCIWithDepth.
    replace (length argv =? 3)%nat with false by (symmetry; apply Nat.eqb_neq; exact Hcount).
    reflexivity.
  - intros program command argument -> Hnone.
    unfold CommandLine.playUCIWithDepth, CommandLine.from_chars. simpl.
    rewrite Hnone. reflexivity.
  - intros program command digits rest -> Hsome Hdigits Hrest.
    unfold CommandLine.playUCIWithDepth, CommandLine.from_chars. simpl.
    rewrite leadingDigits_numeral by assumption.
    destruct digits as [|d digits]; [congruence|].
    unfold SafeUnsigned.MAX_VALUE.
    destruct (255 <? CommandLine.valueOf (d :: digits)) eqn:Hbig; comparisons.
    + replace (CommandLine.valueOf (d :: digits) <=? 255) with false
        by (symmetry; apply Z.leb_gt; lia).
      reflexivity.
    + replace (CommandLine.valueOf (d :: digits) <=? 255) with true
        by (symmetry; apply Z.leb_le; lia).
      reflexivity.
Qed.

(** [uci 12abc] starts the engine twelve plies deep. *)
Lemma depth_argument_is_read_as_a_numeral_witness :
  CommandLine.playUCIWithDepth ["engine"; "uci"; "12abc"]%string = CommandLine.PlayUCI 12.
Proof.
  destruct (depth_argument_is_read_as_a_numeral ["engine"; "uci"; "12abc"]%string)
    as (_ & _ & Hread).
  apply (Hread "engine"%string "uci"%string [1; 2] "abc"%string).
  - reflexivity.
  - discriminate.
  - repeat constructor; lia.
  - reflexivity.
Defined.

Section AcceptedDepth.
Context `{Collaborators}.

(** X20.  A depth the command line accepts is an eight-bit value of at
    least 1, so the depth assignment of the coordinator takes it without
    failing its assertion; nothing keeps it below [MAX_DEPTH]. *)
Theorem accepted_depth_passes_the_depth_assignment (argv : list string) (d : Z)
    (searchers : list Searcher) :
  CommandLine.playUCIWithDepth argv = CommandLine.PlayUCI d ->
  length argv = 3%nat /\ 1 <= d <= 255 /\
  exists assigned,
    assignDepths d searchers = Ok assigned /\ length assigned = length searchers.
Proof.
  unfold CommandLine.playUCIWithDepth, CommandLine.from_chars.
  destruct (length argv =? 3)%nat eqn:Hcount; [|discriminate]. cbn [negb].
  apply Nat.eqb_eq in Hcount.
  destruct (CommandLine.leadingDigits (nth 2 argv EmptyString)) as [|digit digits];
    [discriminate|].
  destruct (_ <=? SafeUnsigned.MAX_VALUE) eqn:Hfits; [|discriminate].
  destruct (_ <? 1) eqn:Hsmall; [discriminate|].
  intros [= <-]. unfold SafeUnsigned.MAX_VALUE in Hfits. comparisons.
  split; [exact Hcount|]. split; [lia|].
  rewrite assignDepths_Ok by lia. eexists. split; [reflexivity | apply length_imap].
Qed.

End AcceptedDepth.

(** [uci 255] is accepted and assigned. *)
Lemma accepted_depth_passes_the_depth_assignment_witness :
  exists assigned,
    @assignDepths LineGame.undisturbed 255
      (@AsyncSearchState_searchers LineGame.undisturbed 4 (fun _ => tt)) = Ok assigned /\
    length assigned = 4%nat.
Proof.
  destruct (@accepted_depth_passes_the_depth_assignment LineGame.undisturbed
              ["engine"; "uci"; "255"]%string 255
              (@AsyncSearchState_searchers LineGame.undisturbed 4 (fun _ => tt)) eq_refl)
    as (_ & _ & assigned & Hassigned & Hlength).
  exists assigned. split; [exact Hassigned | exact Hlength].
Defined.

(** ** Chess.MoveSearch: only helpers shuffle *)

Section OnlyHelpersShuffle.
Context `{Collaborators}.

Lemma mainUntouched_refl (s : Searcher) : mainUntouched s s.
Proof. split; [reflexivity | intros _; reflexivity]. Qed.

Lemma mainUntouched_trans (s1 s2 s3 : Searcher) :
  mainUntouched s1 s2 -> mainUntouched s2 s3 -> mainUntouched s1 s3.
Proof.
  intros [Hh Hu] [Hh' Hu']. split; [congruence|].
  intros Hmain. rewrite Hu' by congruence. apply Hu, Hmain.
Qed.

Lemma steady_bind {A B} (c : Search A) (k : A -> Search B) (st : SearchState) :
  steady c st ->
  (forall a st1, c st = Ok (a, st1) -> steady (k a) st1) ->
  steady (c ≫= k) st.
Proof.
  intros Hc Hk b st' Hrun.
  apply Search_bind_Ok in Hrun as (a & st1 & Hrun1 & Hrun2).
  eapply mainUntouched_trans; [exact (Hc a st1 Hrun1) | exact (Hk a st1 Hrun1 b st' Hrun2)].
Qed.

(** A step that leaves the role and the generator alone. *)
Lemma steady_step {A} (c : Search A) (st : SearchState) :
  (forall a st', c st = Ok (a, st') ->
                 m_helper (self st') = m_helper (self st) /\
                 m_urbg (self st') = m_urbg (self st)) ->
  steady c st.
Proof.
  intros Hc a st' Hrun. destruct (Hc a st' Hrun) as [Hhelper Hurbg].
  split; [exact Hhelper | intros _; exact Hurbg].
Qed.

Lemma steady_yield {A} (a : A) (st : SearchState) : steady (yield a) st.
Proof. apply steady_step. intros a' st' [= _ <-]. split; reflexivity. Qed.

Lemma steady_pure {A} (c : Checked A) (st : SearchState) : steady (pure c) st.
Proof.
  apply steady_step. intros a st'. unfold pure. destruct c; [|discriminate].
  intros [= _ <-]. split; reflexivity.
Qed.

Lemma steady_addKillerMove (level : Z) (killer : Move) (st : SearchState) :
  steady (addKillerMove level killer) st.
Proof.
  apply steady_step. intros u st'. unfold addKillerMove.
  destruct (m_killerMoves (self st) !! Z.to_nat level) as [entries|]; [|discriminate].
  destruct (index entries <? MAX_KILLER_MOVES)%nat; [|discriminate].
  intros Hrun. inversion Hrun. split; reflexivity.
Qed.

Lemma steady_searchChild (recurse : bool -> Node -> AlphaBeta -> Search MoveRating)
    (maximizing : bool) (node : Node) (alphaBeta : AlphaBeta) (p : MovePriority)
    (st : SearchState) :
  calm recurse -> steady (searchChild recurse maximizing node alphaBeta p) st.
Proof.
  intros Hrec. unfold searchChild.
  apply steady_bind; [apply steady_pure|]. intros child st1 _.
  apply steady_bind; [apply Hrec|]. intros childRating st2 _.
  destruct (isTrimmed p); [|apply steady_yield].
  match goal with |- steady (if ?c then _ else _) _ => destruct c end; [|apply steady_yield].
  apply steady_bind; [apply steady_pure|]. intros fullDepth st3 _.
  apply steady_bind; [apply steady_pure|]. intros newChild st4 _. apply Hrec.
Qed.

Lemma steady_searchChildren (recurse : bool -> Node -> AlphaBeta -> Search MoveRating)
    (maximizing : bool) (node : Node) (mps : list MovePriority)
    (best : MoveRating) (alphaBeta : AlphaBeta) (st : SearchState) :
  calm recurse -> steady (searchChildren recurse maximizing node mps best alphaBeta) st.
Proof.
  intros Hrec. revert best alphaBeta st.
  induction mps as [|p mps IH]; intros best alphaBeta st; cbn [searchChildren];
    [apply steady_yield|].
  apply steady_bind; [apply steady_searchChild; exact Hrec|].
  intros childRating st1 _.
  destruct (canPrune _).
  - apply steady_bind; [|intros; apply steady_yield].
    case_bool_decide; [apply steady_addKillerMove | apply steady_yield].
  - destruct (Rating_eqb _ _); [apply steady_yield | apply IH].
Qed.

Lemma steady_bestChildPosition (recurse : bool -> Node -> AlphaBeta -> Search MoveRating)
    (maximizing : bool) (node : Node) (pvMove : Move) (alphaBeta : AlphaBeta)
    (st : SearchState) :
  calm recurse -> steady (bestChildPosition recurse maximizing node pvMove alphaBeta) st.
Proof.
  intros Hrec. unfold bestChildPosition.
  apply steady_bind.
  { apply steady_step. intros entries st'. unfold killerEntriesAt.
    destruct (m_killerMoves (self st) !! _); [|discriminate].
    intros [= _ <-]. split; reflexivity. }
  intros entries st1 _.
  apply steady_bind; [apply steady_pure|]. intros mps st2 _.
  apply steady_bind.
  { apply steady_step. intros helper st'. intros [= _ <-]. split; reflexivity. }
  intros helper st3 Hhelper. unfold helperFlag in Hhelper. injection Hhelper as <- <-.
  apply steady_bind.
  { destruct (m_helper (self st2)) eqn:Hrole; cbn [andb]; [|apply steady_yield].
    destruct (getLevel node <? RANDOMIZATION_CUTOFF); [|apply steady_yield].
    intros shuffled st'. unfold shuffleWithUrbg.
    destruct (shuffle mps (m_urbg (self st2))) as [l g]. intros [= _ <-].
    split; [reflexivity|]. cbn [self m_helper]. congruence. }
  intros shuffled st4 _.
  apply steady_bind; [apply steady_searchChildren; exact Hrec|].
  intros outcome st5 _.
  apply steady_step. intros r st'. rewrite finishNode_Ok. intros [= _ <-].
  destruct (invalidTTEntry (bestRating outcome)); split; reflexivity.
Qed.

Lemma steady_consultTable (node : Node) (alphaBeta : AlphaBeta) (st : SearchState) :
  steady (consultTable node alphaBeta) st.
Proof.
  unfold consultTable.
  apply steady_bind.
  { apply steady_step. intros helper st'. intros [= _ <-]. split; reflexivity. }
  intros helper st1 _.
  apply steady_bind.
  { apply steady_step. intros stop st'. intros [= _ <-]. split; reflexivity. }
  intros stop st2 _.
  destruct (negb stop && _); [|apply steady_yield].
  apply steady_bind.
  { apply steady_step. intros entryRes st'. intros [= _ <-]. split; reflexivity. }
  intros [entry|] st3 _; apply steady_yield.
Qed.

Lemma tryShortCircuit_steady (fuel : nat) : calm (tryShortCircuit fuel).
Proof.
  induction fuel as [|fuel IH]; intros maximizing node alphaBeta st;
    rewrite tryShortCircuit_unfold;
    (case_bool_decide; [apply steady_yield|]);
    (destruct (3 <=? _); [apply steady_yield|]);
    (apply steady_bind;
     [apply steady_step; intros stop st'; intros [= _ <-]; split; reflexivity|];
     intros stop st1 _);
    (destruct stop; [apply steady_yield|]);
    (apply steady_bind; [apply steady_consultTable|]);
    intros [r | pv window] st2 _; try apply steady_yield;
    unfold continueSearch; destruct (isDone node); try apply steady_yield.
  - intros r st' Hrun. discriminate.
  - apply steady_bestChildPosition. exact IH.
Qed.

Lemma steady_warmUp (maximizing : bool) (pos : Position) (repetitionMap : RepetitionMap)
    (iterDepths : list Z) (st : SearchState) :
  steady (warmUp maximizing pos repetitionMap iterDepths) st.
Proof.
  revert st. induction iterDepths as [|d rest IH]; intros st; cbn [warmUp];
    [apply steady_yield|].
  apply steady_bind; [apply tryShortCircuit_steady|]. intros r st1 _. apply IH.
Qed.

Lemma steady_searcherCall (pos : Position) (repetitionMap : RepetitionMap)
    (st : SearchState) :
  steady (searcherCall pos repetitionMap) st.
Proof.
  unfold searcherCall, iterativeDeepening.
  destruct (isWhite pos);
    (apply steady_bind; [apply steady_warmUp|];
     intros u st1 _; apply tryShortCircuit_steady).
Qed.

Lemma runSearchers_steady (pos : Position) (repetitionMap : RepetitionMap)
    (pending : list Searcher) (tt : PositionTable) (n : nat)
    (candidates : list MoveRating) (final : AsyncSearchState) :
  runSearchers pos repetitionMap pending tt n = Ok (candidates, final) ->
  Forall2 mainUntouched pending (searchers final).
Proof.
  revert tt n candidates final.
  induction pending as [|s rest IH]; intros tt n candidates final; cbn [runSearchers].
  - intros [= _ <-]. constructor.
  - intros Hrun. apply Checked_bind_Ok in Hrun as ([candidate st] & Hcall & Hrun).
    apply Checked_bind_Ok in Hrun as ([others final'] & Hrest & Hrun).
    injection Hrun as _ <-. cbn [searchers].
    constructor; [exact (steady_searcherCall _ _ _ _ _ Hcall) | exact (IH _ _ _ _ Hrest)].
Qed.

(** X21.  Only helpers shuffle.  A search leaves every searcher its role,
    and leaves the random-number generator of a main searcher exactly as it
    found it: the main searcher's moves are never shuffled, at any level, so
    its search does not depend on the seed. *)
Theorem main_searcher_never_shuffles (state : AsyncSearchState) (pos : Position)
    (d : Z) (repetitionMap : RepetitionMap) (chosen : option Move)
    (state' : AsyncSearchState) :
  findBestMoveImpl state pos d repetitionMap = Ok (chosen, state') ->
  Forall2 (fun s s' => isHelper s' = isHelper s /\
                       (isHelper s = false -> m_urbg s' = m_urbg s))
    (searchers state) (searchers state').
Proof.
  intros Hfind. unfold findBestMoveImpl in Hfind.
  apply Checked_bind_Ok in Hfind as (assigned & Hassigned & Hfind).
  apply Checked_bind_Ok in Hfind as ([candidates final] & Hrun & Hfind).
  apply Checked_bind_Ok in Hfind as (chosen' & _ & Hfind).
  injection Hfind as _ <-.
  apply runSearchers_steady in Hrun.
  assert (Hd : 1 <= d).
  { unfold assignDepths in Hassigned.
    apply Checked_bind_Ok in Hassigned as (u & Hassert & _).
    apply zAssert_Ok in Hassert. comparisons. exact Hassert. }
  rewrite assignDepths_Ok in Hassigned by exact Hd. injection Hassigned as <-.
  apply Forall2_same_length_lookup_2.
  - apply Forall2_length in Hrun. rewrite length_imap in Hrun. exact Hrun.
  - intros i s s' Hs Hs'.
    assert (Hi : imap (fun k s0 => withDepth s0 (staggeredDepth d k (isHelper s0)))
                   (searchers state) !! i
                 = Some (withDepth s (staggeredDepth d i (isHelper s)))).
    { rewrite list_lookup_imap, Hs. reflexivity. }
    exact (Forall2_lookup_lr _ _ _ _ _ _ Hrun Hi Hs').
Qed.

End OnlyHelpersShuffle.

(** The position table of the line game answers a lookup with the entry
    stored last for that position. *)
Lemma LineGame_table_laws (stops : nat -> bool) : @TableLaws (LineGame.game stops).
Proof.
  split. intros tt pos entry Hsound Hentry pos' d entry'. simpl.
  destruct (decide (pos' = pos)) as [-> | Hother].
  - rewrite lookup_insert_eq. intros [= <-]. exact Hentry.
  - rewrite lookup_insert_ne by congruence. apply (Hsound pos' d entry').
Qed.

Lemma LineGame_empty_table_sound (stops : nat -> bool) :
  @tableSound (LineGame.game stops) ∅.
Proof. intros pos d entry. simpl. rewrite lookup_empty. discriminate. Qed.

(** The first move of the line game, found by two workers one ply deep. *)
Lemma best_move_is_a_legal_move_witness :
  In LineGame.advance (@legalMoves LineGame.undisturbed 0%nat) /\
  LineGame.advance <> Move_null.
Proof.
  destruct line_game_first_move as (state' & Hfound).
  destruct (@best_move_is_a_legal_move LineGame.undisturbed
              (LineGame_ordering_laws (fun _ => false)) (LineGame_table_laws (fun _ => false))
              (LineGame.freshCoordinator (fun _ => false) 2) 0%nat 1 []
              (Some LineGame.advance) state'
              (LineGame_empty_table_sound (fun _ => false)) Hfound) as [_ Hlegal].
  exact (Hlegal LineGame.advance eq_refl).
Defined.

Lemma main_searcher_never_shuffles_witness :
  exists state',
    Forall2 (fun s s' => isHelper s' = isHelper s /\
                         (isHelper s = false -> m_urbg s' = m_urbg s))
      (searchers (LineGame.freshCoordinator (fun _ => false) 2)) (searchers state').
Proof.
  destruct line_game_first_move as (state' & Hfound).
  exists state'.
  exact (@main_searcher_never_shuffles LineGame.undisturbed
           (LineGame.freshCoordinator (fun _ => false) 2) 0%nat 1 []
           (Some LineGame.advance) state' Hfound).
Defined.

(** The pondering search of position 0, 255 plies deep, does not stop for
    lack of fuel (it leaves the killer-move table instead). *)
Lemma findBestMoveImpl_has_fuel_witness :
  @findBestMoveImpl LineGame.undisturbed (LineGame.freshCoordinator (fun _ => false) 2)
    0%nat 255 [] <> Failed FuelExhausted.
Proof.
  apply (@findBestMoveImpl_has_fuel LineGame.undisturbed (LineGame_laws (fun _ => false))).
Defined.

(** A search of position 0, 30 plies deep, by four workers. *)
Lemma findBestMoveImpl_within_killer_table_witness :
  @findBestMoveImpl LineGame.undisturbed (LineGame.freshCoordinator (fun _ => false) 4)
    0%nat 30 [] <> Failed (IndexOutOfBounds KillerMoveTable).
Proof.
  apply (@findBestMoveImpl_within_killer_table LineGame.undisturbed
           (LineGame_laws (fun _ => false))).
  - unfold MAX_DEPTH. lia.
  - eapply Forall_impl; [apply AsyncSearchState_searchers_wellFormed|].
    intros s [Hlength _]. exact Hlength.
Defined.
